(** * A lazily evaluated stream pipeline: iterators, stages, pipeline nodes
    and terminal drivers (package [stream]).

    Shallow embedding.  A Go closure that reads and writes captured variables
    is a function on the state those variables hold; a call that may panic,
    or a loop that may not come back, yields [option].  The variables a
    chained stage captures are paired with the state of the stage below it,
    so the state of a fused stage is the nested pair of everything the chain
    captured, with the terminal operation's variables innermost. *)

From Stdlib Require Import ZArith Lia List Permutation Sorted.
From stdpp Require Import base option list gmap sorting.

Local Open Scope Z_scope.

(** ** Machine integers

    [int64] is a 64-bit two's complement integer; [int] is taken as 64 bits
    wide as well (the common build targets).  Arithmetic wraps around. *)

Definition int64 (z : Z) : Z := (z + 2 ^ 63) mod 2 ^ 64 - 2 ^ 63.
Definition int (z : Z) : Z := int64 z.

Definition min_int : Z := - 2 ^ 63.
Definition max_int : Z := 2 ^ 63 - 1.

(** [const unkonwnSize = -1] (iterator.go) *)
Definition unkonwnSize : Z := -1.

(** ** iterator.go: the iterator interface

    [iterator I] is the method table of an iterator whose fields are a value
    of type [I].  [HasNext] only reads; [Next] returns the element and the
    updated fields, or [None] where the Go code panics. *)

Record iterator (T I : Type) := Iterator {
  GetSizeIfKnown : I -> Z;
  HasNext : I -> bool;
  Next : I -> option (T * I)
}.
Arguments Iterator {T I} _ _ _.
Arguments GetSizeIfKnown {T I} _ _.
Arguments HasNext {T I} _ _.
Arguments Next {T I} _ _.

(** [type base struct { current, size int }] *)
Record base := Base { current : Z; size : Z }.

(** [int64(b.size)]: an [int] converts to [int64] with its value. *)
Definition base_GetSizeIfKnown (b : base) : Z := size b.
Definition base_HasNext (b : base) : bool := current b <? size b.

(** [type sliceIterator struct { *base; elements []types.T }] *)
Record sliceIterator (T : Type) := SliceIterator {
  slice_base : base;
  elements : list T
}.
Arguments SliceIterator {T} _ _.
Arguments slice_base {T} _.
Arguments elements {T} _.

(** [s.elements[i]]: indexing panics outside [0 <= i < len]. *)
Definition index {A : Type} (l : list A) (i : Z) : option A :=
  if (0 <=? i) then l !! Z.to_nat i else None.

(** [e := s.elements[s.current]; s.current++; return e].  The increment
    runs only after the index was found in range, so it stays below the
    length of a slice and does not wrap. *)
Definition sliceIterator_Next {T} (s : sliceIterator T) : option (T * sliceIterator T) :=
  e ← index (elements s) (current (slice_base s));
  Some (e, SliceIterator (Base (current (slice_base s) + 1) (size (slice_base s)))
                         (elements s)).

(** [*sliceIterator] as an [iterator]: [GetSizeIfKnown] and [HasNext] are
    those of the embedded [*base]. *)
Definition sliceIterator_iterator {T} : iterator T (sliceIterator T) :=
  Iterator (fun s => base_GetSizeIfKnown (slice_base s))
           (fun s => base_HasNext (slice_base s))
           sliceIterator_Next.

(** [func it(elements ...types.T) iterator] *)
Definition it {T} (elements : list T) : sliceIterator T :=
  SliceIterator (Base 0 (Z.of_nat (length elements))) elements.

(** [type seedIt struct { element types.T; operator types.UnaryOperator; first bool }] *)
Record seedIt (T : Type) := SeedIt {
  element : T;
  operator : T -> T;
  first : bool
}.
Arguments SeedIt {T} _ _ _.
Arguments element {T} _.
Arguments operator {T} _.
Arguments first {T} _.

Definition seedIt_Next {T} (s : seedIt T) : option (T * seedIt T) :=
  if first s then Some (element s, SeedIt (element s) (operator s) false)
  else let e := operator s (element s) in
       Some (e, SeedIt e (operator s) (first s)).

(** [*seedIt] as an [iterator]. *)
Definition seedIt_iterator {T} : iterator T (seedIt T) :=
  Iterator (fun _ => unkonwnSize) (fun _ => true) seedIt_Next.

(** [func withSeed(seed types.T, f types.UnaryOperator) iterator] *)
Definition withSeed {T} (seed : T) (f : T -> T) : seedIt T := SeedIt seed f true.

(** [type supplierIt struct { get types.Supplier }]; the supplier is a
    closure over its own state [G]. *)
Record supplierIt (T G : Type) := SupplierIt {
  get : G -> T * G;
  get_state : G
}.
Arguments SupplierIt {T G} _ _.
Arguments get {T G} _ _.
Arguments get_state {T G} _.

(** [*supplierIt] as an [iterator]. *)
Definition supplierIt_iterator {T G} : iterator T (supplierIt T G) :=
  Iterator (fun _ => unkonwnSize) (fun _ => true)
           (fun s => let '(e, g) := get s (get_state s) in Some (e, SupplierIt (get s) g)).

Definition withSupplier {T G} (get : G -> T * G) (g : G) : supplierIt T G := SupplierIt get g.

(** ** iterator.go: endpoints and the range iterator *)

(** [type endpoint interface { CompareTo(other endpoint) int; Add(step int) endpoint }] *)
Class endpoint (E : Type) := {
  CompareTo : E -> E -> Z;
  Add : E -> Z -> E
}.

(** [type epInt int]: the value is an [int]. *)
Record epInt := EpInt { epInt_val : Z }.

#[export] Instance epInt_endpoint : endpoint epInt := {|
  CompareTo m other := int (epInt_val m - epInt_val other);
  Add m step := EpInt (int (epInt_val m + step))
|}.

(** [type epInt64 int] *)
Record epInt64 := EpInt64 { epInt64_val : Z }.

#[export] Instance epInt64_endpoint : endpoint epInt64 := {|
  CompareTo m other := int (epInt64_val m - epInt64_val other);
  Add m step := EpInt64 (int (epInt64_val m + step))
|}.

(** [type rangeIt struct { from, to endpoint; step int; next endpoint }] *)
Record rangeIt (E : Type) := RangeIt {
  from : E;
  to : E;
  step : Z;
  next : E
}.
Arguments RangeIt {E} _ _ _ _.
Arguments from {E} _.
Arguments to {E} _.
Arguments step {E} _.
Arguments next {E} _.

Definition rangeIt_HasNext {E} `{endpoint E} (r : rangeIt E) : bool :=
  if step r >=? 0 then CompareTo (next r) (to r) <? 0
  else CompareTo (next r) (to r) >? 0.

Definition rangeIt_Next {E} `{endpoint E} (r : rangeIt E) : option (E * rangeIt E) :=
  let curr := next r in
  Some (curr, RangeIt (from r) (to r) (step r) (Add curr (step r))).

(** [*rangeIt] as an [iterator]. *)
Definition rangeIt_iterator {E} `{endpoint E} : iterator E (rangeIt E) :=
  Iterator (fun _ => unkonwnSize) rangeIt_HasNext rangeIt_Next.

(** [func withRange(fromInclude, toExclude endpoint, step int) iterator] *)
Definition withRange {E} (fromInclude toExclude : E) (step : Z) : rangeIt E :=
  RangeIt fromInclude toExclude step fromInclude.

(** ** stage.go: stages

    [type stage interface { Begin(size int64); Accept(t types.T);
    CanFinish() bool; End() }].  Every stage of the package is a [baseStage]
    (a [chainedStage] and a [terminalStage] only embed one), so the interface
    is modelled by its one implementation: four closures over the state [S]
    of the variables they capture.  [canFinish] only reads. *)

Record baseStage (T S : Type) := BaseStage {
  begin : Z -> S -> option S;
  action : T -> S -> option S;
  canFinish : S -> bool;
  end_ : S -> option S
}.
Arguments BaseStage {T S} _ _ _ _.
Arguments begin {T S} _ _ _.
Arguments action {T S} _ _ _.
Arguments canFinish {T S} _ _.
Arguments end_ {T S} _ _.

Definition Begin {T S} (b : baseStage T S) (size : Z) (s : S) : option S := begin b size s.
Definition Accept {T S} (b : baseStage T S) (t : T) (s : S) : option S := action b t s.
Definition CanFinish {T S} (b : baseStage T S) (s : S) : bool := canFinish b s.
Definition End {T S} (b : baseStage T S) (s : S) : option S := end_ b s.
Arguments Begin : simpl never.
Arguments Accept : simpl never.
Arguments CanFinish : simpl never.
Arguments End : simpl never.

(** [type option func(b *baseStage)] *)
Definition option_ (T S : Type) : Type := baseStage T S -> baseStage T S.

(** The four option constructors [begin], [canFinish], [action], [end]:
    each overrides one closure of the stage it is applied to. *)
Module opt.
Definition begin {T S} (onBegin : Z -> S -> option S) : option_ T S :=
  fun '(BaseStage _ a c e) => BaseStage onBegin a c e.
Definition canFinish {T S} (judge : S -> bool) : option_ T S :=
  fun '(BaseStage b a _ e) => BaseStage b a judge e.
Definition action {T S} (onAction : T -> S -> option S) : option_ T S :=
  fun '(BaseStage b _ c e) => BaseStage b onAction c e.
Definition end_ {T S} (onEnd : S -> option S) : option_ T S :=
  fun '(BaseStage b a c _) => BaseStage b a c onEnd.
End opt.

(** A chained stage captures variables of its own (state [O]) and the stage
    below it (state [D]); calling a method of the stage below leaves the
    own variables as they are. *)
Definition below {O D} (o : O) (r : option D) : option (O * D) := pair o <$> r.

(** [func defaultChainedStage(down stage) *chainedStage]: every closure
    forwards to the stage below. *)
Definition defaultChainedStage {T O D} (down : baseStage T D) : baseStage T (O * D) :=
  BaseStage (fun size '(o, d) => below o (Begin down size d))
            (fun t '(o, d) => below o (Accept down t d))
            (fun '(o, d) => CanFinish down d)
            (fun '(o, d) => below o (End down d)).

(** [func newChainedStage(down stage, opt ...option) *chainedStage] *)
Definition newChainedStage {T O D} (down : baseStage T D) (opts : list (option_ T (O * D)))
  : baseStage T (O * D) :=
  fold_left (fun s o => o s) opts (defaultChainedStage down).

(** [func defaultTerminalStage(action types.Consumer) *terminalStage] *)
Definition defaultTerminalStage {T D} (action : T -> D -> option D) : baseStage T D :=
  BaseStage (fun _ d => Some d) action (fun _ => false) (fun d => Some d).

(** [func newTerminalStage(action types.Consumer, opt ...option) *terminalStage] *)
Definition newTerminalStage {T D} (action : T -> D -> option D) (opts : list (option_ T D))
  : baseStage T D :=
  fold_left (fun s o => o s) opts (defaultTerminalStage action).

(** ** impl.go: pipeline nodes

    [wrap func(stage) stage]: given the stage below, whatever its state [D],
    the closure allocates its captured variables (of type [O], initial value
    [own0]) and returns the stage that works on both. *)
Record wrapper (T O : Type) := Wrapper {
  own0 : O;
  wrap_fn : forall D : Type, baseStage T D -> baseStage T (O * D)
}.
Arguments Wrapper {T O} _ _.
Arguments own0 {T O} _.
Arguments wrap_fn {T O} _ {D} _.

(** [type stream struct { source iterator; prev *stream; wrap func(stage) stage }].
    A head has neither [prev] nor [wrap]; every other node has both, and its
    [source] is the one of its [prev]. *)
Inductive stream (T I : Type) :=
| newHead (source : iterator T I)
| newNode (prev : stream T I) (O : Type) (wrap : wrapper T O).
Arguments newHead {T I} _.
Arguments newNode {T I} _ {O} _.

Fixpoint source {T I} (s : stream T I) : iterator T I :=
  match s with
  | newHead src => src
  | newNode p _ => source p
  end.

Definition prev {T I} (s : stream T I) : option (stream T I) :=
  match s with
  | newHead _ => None
  | newNode p _ => Some p
  end.

(** The state of the stage [wrapStage] builds over a terminal stage with
    state [D]: the node nearest the terminal wraps first, so its variables
    end up innermost. *)
Fixpoint wrapState {T I} (s : stream T I) (D : Type) : Type :=
  match s with
  | newHead _ => D
  | @newNode _ _ p Own _ => wrapState p (Own * D)%type
  end.

(** [func (s *stream) wrapStage(terminalStage stage) stage] *)
Fixpoint wrapStage {T I} (s : stream T I) {D : Type} (terminalStage : baseStage T D)
  : baseStage T (wrapState s D) :=
  match s with
  | newHead _ => terminalStage
  | newNode p w => wrapStage p (wrap_fn w terminalStage)
  end.

(** The variables of the fused stage right after [wrapStage]: each closure's
    fresh variables around the terminal operation's [d]. *)
Fixpoint wrapInit {T I} (s : stream T I) {D : Type} (d : D) : wrapState s D :=
  match s with
  | newHead _ => d
  | newNode p w => wrapInit p (own0 w, d)
  end.

(** The terminal operation's variables inside the state of the fused stage. *)
Fixpoint terminalVars {T I} (s : stream T I) {D : Type} : wrapState s D -> D :=
  match s with
  | newHead _ => fun st => st
  | newNode p w => fun st => snd (terminalVars p st)
  end.

(** [for source.HasNext() && !stage.CanFinish() { stage.Accept(source.Next()) }],
    at most [fuel] rounds. *)
Fixpoint forLoop {T I S} (fuel : nat) (source : iterator T I) (stage : baseStage T S)
  (i : I) (st : S) : option (I * S) :=
  if HasNext source i && negb (CanFinish stage st) then
    match fuel with
    | O => None
    | S fuel' =>
        '(t, i') ← Next source i;
        st' ← Accept stage t st;
        forLoop fuel' source stage i' st'
    end
  else Some (i, st).

(** The body of [terminal] once the stage is fused: [Begin], the loop, [End]. *)
Definition walk {T I S} (fuel : nat) (source : iterator T I) (stage : baseStage T S)
  (i : I) (st : S) : option (I * S) :=
  st1 ← Begin stage (GetSizeIfKnown source i) st;
  '(i', st2) ← forLoop fuel source stage i st1;
  st3 ← End stage st2;
  Some (i', st3).

(** [func (s *stream) terminal(ts *terminalStage)]: [i] are the fields of the
    source and [d] the variables the terminal stage captures, both as they
    are when the call is made; the result is both after the walk. *)
Definition terminal {T I D} (fuel : nat) (s : stream T I) (ts : baseStage T D)
  (i : I) (d : D) : option (I * D) :=
  '(i', st) ← walk fuel (source s) (wrapStage s ts) i (wrapInit s d);
  Some (i', terminalVars s st).

(** The terminal operation [ForEach] is stated here, ahead of its place in
    impl.go, because [FlatMap] runs it on the nested stream.
    [func (s *stream) ForEach(consumer types.Consumer)]: a consumer is a
    closure over the caller's variables [U]. *)
Definition ForEach {T I U} (fuel : nat) (s : stream T I) (consumer : T -> U -> option U)
  (i : I) (u : U) : option (I * U) :=
  terminal fuel s (newTerminalStage consumer []) i u.

(** What [flatten] hands back: a stream together with the fields of the
    source it has just created for it. *)
Record Stream (T : Type) := MkStream {
  source_type : Type;
  nodes : stream T source_type;
  source_fields : source_type
}.
Arguments MkStream {T} _ _ _.
Arguments source_type {T} _.
Arguments nodes {T} _.
Arguments source_fields {T} _.

Section Operations.
Context {T I : Type}.

(** Each operation is [newNode(s, func(down stage) stage { ... })]; the
    closure it hands to [newNode] is named here after the operation. *)

(** *** Stateless operations *)

Definition filterWrap (test : T -> bool) : wrapper T unit :=
  Wrapper tt (fun D down =>
    newChainedStage down [
      opt.begin (fun _ '(o, d) => below o (Begin down unkonwnSize d));
      opt.action (fun t '(o, d) =>
        if test t then below o (Accept down t d) else Some (o, d))
    ]).

(** [func (s *stream) Filter(test types.Predicate) Stream] *)
Definition Filter (test : T -> bool) (s : stream T I) : stream T I :=
  newNode s (filterWrap test).

Definition mapWrap (apply : T -> T) : wrapper T unit :=
  Wrapper tt (fun D down =>
    newChainedStage down [
      opt.action (fun t '(o, d) => below o (Accept down (apply t) d))
    ]).

(** [func (s *stream) Map(apply types.Function) Stream] *)
Definition Map (apply : T -> T) (s : stream T I) : stream T I :=
  newNode s (mapWrap apply).

Definition flatMapWrap (fuel : nat) (flatten : T -> Stream T) : wrapper T unit :=
  Wrapper tt (fun D down =>
    newChainedStage down [
      opt.begin (fun _ '(o, d) => below o (Begin down unkonwnSize d));
      opt.action (fun t '(o, d) =>
        let ss := flatten t in
        below o (snd <$> ForEach fuel (nodes ss) (Accept down) (source_fields ss) d))
    ]).

(** [func (s *stream) FlatMap(flatten func(types.T) Stream) Stream].  The
    nested [ForEach] is a walk of its own over a source of its own; it is
    given [fuel] rounds, and the accept does not return when they run out. *)
Definition FlatMap (fuel : nat) (flatten : T -> Stream T) (s : stream T I) : stream T I :=
  newNode s (flatMapWrap fuel flatten).

Definition peekWrap {U : Type} (consumer : T -> U -> option U) (u : U) : wrapper T U :=
  Wrapper u (fun D down =>
    newChainedStage down [
      opt.action (fun t '(o, d) =>
        o' ← consumer t o;
        below o' (Accept down t d))
    ]).

(** [func (s *stream) Peek(consumer types.Consumer) Stream]: the consumer's
    own variables [U] are carried as the stage's state, starting from [u]. *)
Definition Peek {U : Type} (consumer : T -> U -> option U) (u : U) (s : stream T I)
  : stream T I :=
  newNode s (peekWrap consumer u).

(** *** Stateful operations *)

(** [var set map[int]bool] is [None] while it is nil; reading a nil map
    finds nothing, writing to it panics. *)
Definition distinctWrap (distincter : T -> Z) : wrapper T (option (gmap Z bool)) :=
  Wrapper None (fun D down =>
    newChainedStage down [
      opt.begin (fun _ '(set, d) => below (Some ∅) (Begin down unkonwnSize d));
      opt.action (fun t '(set, d) =>
        let hash := distincter t in
        match set ≫= (fun m : gmap Z bool => m !! hash) with
        | Some _ => Some (set, d)
        | None =>
            m ← set;
            below (Some (<[hash := true]> m)) (Accept down t d)
        end);
      opt.end_ (fun '(set, d) => below None (End down d))
    ]).

(** [func (s *stream) Distinct(distincter types.IntFunction) Stream] *)
Definition Distinct (distincter : T -> Z) (s : stream T I) : stream T I :=
  newNode s (distinctWrap distincter).

Definition limitWrap (maxSize : Z) : wrapper T Z :=
  Wrapper 0 (fun D down =>
    newChainedStage down [
      opt.begin (fun size '(count, d) =>
        let size := if (size >? 0) && (size >? maxSize) then maxSize else size in
        below count (Begin down size d));
      opt.action (fun t '(count, d) =>
        d' ← (if count <? maxSize then Accept down t d else Some d);
        Some (int64 (count + 1), d'));
      opt.canFinish (fun '(count, d) => count >=? maxSize)
    ]).

(** [func (s *stream) Limit(maxSize int64) Stream] *)
Definition Limit (maxSize : Z) (s : stream T I) : stream T I :=
  newNode s (limitWrap maxSize).

Definition skipWrap (n : Z) : wrapper T Z :=
  Wrapper 0 (fun D down =>
    newChainedStage down [
      opt.begin (fun size '(count, d) =>
        let size :=
          if size >? 0 then
            let size := int64 (size - n) in
            if size <? 0 then 0 else size
          else size in
        below count (Begin down size d));
      opt.action (fun t '(count, d) =>
        d' ← (if count >=? n then Accept down t d else Some d);
        Some (int64 (count + 1), d'))
    ]).

(** [func (s *stream) Skip(n int64) Stream] *)
Definition Skip (n : Z) (s : stream T I) : stream T I :=
  newNode s (skipWrap n).

End Operations.

(** *** Sorting *)

(** [type Sortable struct { List []types.T; Cmp types.Comparator }] with the
    three methods of [sort.Interface]. *)
Record Sortable (T : Type) := MkSortable {
  List : list T;
  Cmp : T -> T -> Z
}.
Arguments MkSortable {T} _ _.
Arguments List {T} _.
Arguments Cmp {T} _ _ _.

(** [len(a.List)], an [int] that [Sorted] converts to [int64] with its value. *)
Definition Len {T} (a : Sortable T) : Z := Z.of_nat (length (List a)).

Definition Less {T} (a : Sortable T) (i j : Z) : option bool :=
  x ← index (List a) i;
  y ← index (List a) j;
  Some (Cmp a x y <? 0).

Definition Swap {T} (a : Sortable T) (i j : Z) : option (Sortable T) :=
  x ← index (List a) i;
  y ← index (List a) j;
  Some (MkSortable (<[Z.to_nat j := x]> (<[Z.to_nat i := y]> (List a))) (Cmp a)).

(** What the Go standard library documents of [sort.Sort(data)] and asks of
    [Less]: [Less] is to be a strict weak ordering; the call only swaps
    elements, so the list stays a permutation of itself, and with such a
    [Less] it ends in ascending order, no element being [Less] than one
    before it. *)
Definition strictWeak {T} (cmp : T -> T -> Z) : Prop :=
  (forall x, ~ cmp x x < 0) /\
  (forall x y z, cmp x y < 0 -> cmp y z < 0 -> cmp x z < 0) /\
  (forall x y z, ~ cmp x y < 0 -> ~ cmp y z < 0 -> ~ cmp x z < 0).

Definition ascending {T} (a : Sortable T) : Prop :=
  forall i j, 0 <= i < j -> j < Len a -> Less a j i = Some false.

Definition sorts (sort_Sort : forall T : Type, Sortable T -> Sortable T) : Prop :=
  forall T (a : Sortable T),
    Cmp (sort_Sort T a) = Cmp a /\
    List (sort_Sort T a) ≡ₚ List a /\
    (strictWeak (Cmp a) -> ascending (sort_Sort T a)).

(** A sorting routine that meets [sorts]: a merge sort by "not [Less] the
    other way round". *)
Definition mergeSort (T : Type) (a : Sortable T) : Sortable T :=
  MkSortable
    (merge_sort (fun x y => 0 <= Cmp a y x) (H := fun x y => decide (0 <= Cmp a y x)) (List a))
    (Cmp a).

Section Sorting.
(** [sort.Sort] belongs to the Go standard library: it is a parameter. *)
Variable sort_Sort : forall T : Type, Sortable T -> Sortable T.
Context {T : Type}.

(** [var list []types.T] is [list_] here. *)
Definition sortedWrap (comparator : T -> T -> Z) : wrapper T (list T) :=
  Wrapper [] (fun D down =>
    newChainedStage down [
      opt.begin (fun size '(list_, d) =>
        (* both branches make an empty slice; they differ in capacity only *)
        let list_ : list T := if size >? 0 then [] else [] in
        below list_ (Begin down size d));
      opt.action (fun t '(list_, d) => Some (list_ ++ [t], d));
      opt.end_ (fun '(list_, d) =>
        let a := sort_Sort T (MkSortable list_ comparator) in
        d1 ← Begin down (Len a) d;
        '(_, d2) ← forLoop (length (List a)) sliceIterator_iterator down (it (List a)) d1;
        below [] (End down d2))
    ]).

(** [func (s *stream) Sorted(comparator types.Comparator) Stream] *)
Definition Sorted {I} (comparator : T -> T -> Z) (s : stream T I) : stream T I :=
  newNode s (sortedWrap comparator).

End Sorting.

(** ** optional: the result wrapper

    [type present struct { value types.T }] (optional/present.go) and the
    package's one absent value, [emtpy]. *)
Inductive Optional (V : Type) :=
| emtpy
| present (value : V).
Arguments emtpy {V}.
Arguments present {V} _.

Definition IsPresent {V} (o : Optional V) : bool :=
  match o with
  | emtpy => false
  | present _ => true
  end.

(** Modelled from the spec: [optional.OfNullable], whose file is not among
    the sources.  The spec has the core build an optional by "wrap a
    possibly-null result": nil gives the absent value, anything else a
    [present] holding it.  A [types.T] that may be nil is an [option V]. *)
Definition OfNullable {V} (t : option V) : Optional V :=
  match t with
  | None => emtpy
  | Some v => present v
  end.

(** ** impl.go: terminal operations

    Each returns the fields of the source after the walk next to its result.
    A callback handed to [Reduce] or to a match operation is a closure over
    the caller's variables [U]; they are threaded through so that a
    statement can tell whether the callback ran. *)
Section Terminals.
Context {T I : Type}.

(** The terminal stage [ReduceBy] builds. *)
Definition reduceByStage {R} (buildInitValue : Z -> R) (accumulator : R -> T -> option R)
  : baseStage T R :=
  newTerminalStage (fun t result => accumulator result t)
    [opt.begin (fun count _ => Some (buildInitValue count))].

(** [func (s *stream) ReduceBy(buildInitValue func(int64) types.R,
    accumulator func(acc types.R, e types.T) types.R) types.R].
    [var result types.R] starts as the nil interface, [nilR]. *)
Definition ReduceBy {R} (fuel : nat) (s : stream T I) (nilR : R)
  (buildInitValue : Z -> R) (accumulator : R -> T -> option R) (i : I) : option (I * R) :=
  terminal fuel s (reduceByStage buildInitValue accumulator) i nilR.

(** The terminal stage [ReduceWith] and [ReduceFrom] build. *)
Definition reduceStage {R} (accumulator : R -> T -> option R) : baseStage T R :=
  newTerminalStage (fun t result => accumulator result t) [].

(** [func (s *stream) ReduceWith(initValue types.R, accumulator ...) types.R] *)
Definition ReduceWith {R} (fuel : nat) (s : stream T I) (initValue : R)
  (accumulator : R -> T -> option R) (i : I) : option (I * R) :=
  terminal fuel s (reduceStage accumulator) i initValue.

(** [func (s *stream) ReduceFrom(initValue types.T, accumulator types.BinaryOperator) types.T] *)
Definition ReduceFrom (fuel : nat) (s : stream T I) (initValue : T)
  (accumulator : T -> T -> option T) (i : I) : option (I * T) :=
  terminal fuel s (reduceStage accumulator) i initValue.

(** The two closures of [ToSlice].  The accumulator is a [types.R] that is
    nil ([None]) or holds a [[]types.T]; the type assertion
    [acc.([]types.T)] panics on nil. *)
Definition toSliceInit (count : Z) : option (list T) :=
  Some (if count >=? 0 then [] else []).

Definition toSliceAcc (acc : option (list T)) (e : T) : option (option (list T)) :=
  slice ← acc;
  Some (Some (slice ++ [e])).

(** [func (s *stream) ToSlice() []types.T]; the closing [.([]types.T)]
    panics on nil as well. *)
Definition ToSlice (fuel : nat) (s : stream T I) (i : I) : option (I * list T) :=
  '(i', r) ← ReduceBy fuel s None toSliceInit toSliceAcc i;
  slice ← r;
  Some (i', slice).

(** [func (s *stream) Count() int64] *)
Definition Count (fuel : nat) (s : stream T I) (i : I) : option (I * Z) :=
  ReduceWith fuel s (int64 0) (fun count t => Some (int64 (count + 1))) i.

(** The terminal stages of the match operations: their variables are the
    caller's [u] and [result]. *)
Definition allMatchStage {U} (test : T -> U -> bool * U) : baseStage T (U * bool) :=
  newTerminalStage
    (fun t '(u, result) =>
       let '(b, u) := test t u in
       Some (u, if negb b then false else result))
    [opt.canFinish (fun '(u, result) => negb result)].

(** [func (s *stream) AllMatch(test types.Predicate) bool] *)
Definition AllMatch {U} (fuel : nat) (s : stream T I) (test : T -> U -> bool * U)
  (i : I) (u : U) : option (I * (U * bool)) :=
  terminal fuel s (allMatchStage test) i (u, true).

Definition noneMatchStage {U} (test : T -> U -> bool * U) : baseStage T (U * bool) :=
  newTerminalStage
    (fun t '(u, result) =>
       let '(b, u) := test t u in
       Some (u, if b then false else result))
    [opt.canFinish (fun '(u, result) => negb result)].

(** [func (s *stream) NoneMatch(test types.Predicate) bool] *)
Definition NoneMatch {U} (fuel : nat) (s : stream T I) (test : T -> U -> bool * U)
  (i : I) (u : U) : option (I * (U * bool)) :=
  terminal fuel s (noneMatchStage test) i (u, true).

Definition anyMatchStage {U} (test : T -> U -> bool * U) : baseStage T (U * bool) :=
  newTerminalStage
    (fun t '(u, result) =>
       let '(b, u) := test t u in
       Some (u, if b then true else result))
    [opt.canFinish (fun '(u, result) => result)].

(** [func (s *stream) AnyMatch(test types.Predicate) bool] *)
Definition AnyMatch {U} (fuel : nat) (s : stream T I) (test : T -> U -> bool * U)
  (i : I) (u : U) : option (I * (U * bool)) :=
  terminal fuel s (anyMatchStage test) i (u, false).

End Terminals.

(** The elements of a stream that [Reduce] or [FindFirst] runs over are
    [types.T] values that may be nil: [option V]. *)
Section NullableTerminals.
Context {V I : Type}.

(** The variables of [Reduce]: the caller's, [result] and [hasElement]. *)
Record reduceVars (U : Type) := ReduceVars {
  callerVars : U;
  result : option V;
  hasElement : bool
}.
Arguments ReduceVars {U} _ _ _.
Arguments callerVars {U} _.
Arguments result {U} _.
Arguments hasElement {U} _.

Definition reduceOptStage {U} (accumulator : option V -> option V -> U -> option V * U)
  : baseStage (option V) (reduceVars U) :=
  newTerminalStage
    (fun t v =>
       if negb (hasElement v) then Some (ReduceVars (callerVars v) t true)
       else let '(r, u) := accumulator (result v) t (callerVars v) in
            Some (ReduceVars u r (hasElement v)))
    [].

(** [func (s *stream) Reduce(accumulator types.BinaryOperator) optional.Optional] *)
Definition Reduce {U} (fuel : nat) (s : stream (option V) I)
  (accumulator : option V -> option V -> U -> option V * U)
  (i : I) (u : U) : option (I * (U * Optional V)) :=
  '(i', v) ← terminal fuel s (reduceOptStage accumulator) i (ReduceVars u None false);
  Some (i', (callerVars v, OfNullable (result v))).

Definition findFirstStage : baseStage (option V) (option V * bool) :=
  newTerminalStage
    (fun t '(result, find) =>
       if negb find then Some (t, true) else Some (result, find))
    [opt.canFinish (fun '(result, find) => find)].

(** [func (s *stream) FindFirst() optional.Optional] *)
Definition FindFirst (fuel : nat) (s : stream (option V) I) (i : I)
  : option (I * Optional V) :=
  '(i', v) ← terminal fuel s findFirstStage i (None, false);
  Some (i', OfNullable (fst v)).

End NullableTerminals.
Arguments ReduceVars {V U} _ _ _.
Arguments callerVars {V U} _.
Arguments result {V U} _.
Arguments hasElement {V U} _.

(** ** types: the comparators of the package *)

(** [var IntComparator Comparator] *)
Definition IntComparator (left right : Z) : Z :=
  if left >? right then 1
  else if left <? right then -1
  else 0.

(** [func ReverseOrder(cmp Comparator) Comparator] *)
Definition ReverseOrder {T} (cmp : T -> T -> Z) : T -> T -> Z :=
  fun left right => cmp right left.

(** ** Observing a stage

    [spy stage] is [stage] with a log: every [Begin], [Accept] and [End] made
    on it is appended to the log and handed on unchanged. *)
Inductive call (T : Type) :=
| CBegin (size : Z)
| CAccept (t : T)
| CEnd.
Arguments CBegin {T} _.
Arguments CAccept {T} _.
Arguments CEnd {T}.

Definition logged {S T} (c : call T) (log : list (call T)) (r : option S)
  : option (S * list (call T)) :=
  st ← r; Some (st, log ++ [c]).

Definition spy {T S} (stage : baseStage T S) : baseStage T (S * list (call T)) :=
  BaseStage (fun size '(st, log) => logged (CBegin size) log (Begin stage size st))
            (fun t '(st, log) => logged (CAccept t) log (Accept stage t st))
            (fun '(st, log) => CanFinish stage st)
            (fun '(st, log) => logged CEnd log (End stage st)).

(** ** Observing a source

    [counting source] is [source] with a counter of the calls made to its
    [Next]. *)
Definition counting {T I} (source : iterator T I) : iterator T (I * nat) :=
  Iterator (fun '(i, n) => GetSizeIfKnown source i)
           (fun '(i, n) => HasNext source i)
           (fun '(i, n) => '(t, i') ← Next source i; Some (t, (i', S n))).

(** [iterates f s n] is [[s; f s; f (f s); ...]], [n] elements long. *)
Fixpoint iterates {T} (f : T -> T) (s : T) (n : nat) : list T :=
  match n with
  | O => []
  | S n' => s :: iterates f (f s) n'
  end.

(** [firstSeen h earlier xs]: the elements of [xs], in order, whose hash
    code is borne neither by an element of [earlier] nor by an element that
    comes before them in [xs]. *)
Fixpoint firstSeen {T} (h : T -> Z) (earlier xs : list T) : list T :=
  match xs with
  | [] => []
  | x :: xs' =>
      (if decide (h x ∈ h <$> earlier) then [] else [x]) ++ firstSeen h (earlier ++ [x]) xs'
  end.

(** The map [Distinct] keeps, after it has accepted [xs] starting from [m]. *)
Definition seenSet {T} (h : T -> Z) (m : gmap Z bool) (xs : list T) : gmap Z bool :=
  fold_left (fun m t => match m !! h t with Some _ => m | None => <[h t := true]> m end) xs m.

(** [holds h m earlier]: the keys of [m] are the hash codes of [earlier]. *)
Definition holds {T} (h : T -> Z) (m : gmap Z bool) (earlier : list T) : Prop :=
  forall z, is_Some (m !! z) <-> z ∈ h <$> earlier.

(** The left-to-right fold of [Reduce]: from the value [r] and the caller's
    variables [u], one call of the combiner per element of [xs]. *)
Fixpoint foldFrom {V U} (accumulator : option V -> option V -> U -> option V * U)
  (r : option V) (u : U) (xs : list (option V)) : option V * U :=
  match xs with
  | [] => (r, u)
  | x :: xs' => let '(r', u') := accumulator r x u in foldFrom accumulator r' u' xs'
  end.

(** ** Stages and closures that stay quiet

    [quiet ts P Q]: on the states [P] (no [Begin] yet) and [Q] (some [Begin]
    made) the stage's [Begin] returns into [Q], and on [Q] its [End]
    returns into [Q]. *)
Definition quiet {T D} (ts : baseStage T D) (P Q : D -> Prop) : Prop :=
  (forall size d, P d \/ Q d -> exists d', Begin ts size d = Some d' /\ Q d') /\
  (forall d, Q d -> exists d', End ts d = Some d' /\ Q d').

(** [passive w]: the [Begin] and [End] of the stage [w] builds only make
    [Begin] and [End] calls on the stage below, and keep an invariant of
    [w]'s own variables that holds when they are allocated. *)
Definition passive {T O} (w : wrapper T O) : Prop :=
  exists OI : O -> Prop,
    OI (own0 w) /\
    forall D (down : baseStage T D) (P Q : D -> Prop),
      quiet down P Q ->
      quiet (wrap_fn w down) (fun x => OI x.1 /\ P x.2) (fun x => OI x.1 /\ Q x.2).

Fixpoint passiveStream {T I} (s : stream T I) : Prop :=
  match s with
  | newHead _ => True
  | newNode p w => passive w /\ passiveStream p
  end.

(** ** Declaring operations

    The eight non-terminal operations, as data: what a caller may declare on
    a stream. *)
Inductive operation (T : Type) :=
| opFilter (test : T -> bool)
| opMap (apply : T -> T)
| opFlatMap (fuel : nat) (flatten : T -> Stream T)
| opPeek (U : Type) (consumer : T -> U -> option U) (u : U)
| opDistinct (distincter : T -> Z)
| opSorted (comparator : T -> T -> Z)
| opLimit (maxSize : Z)
| opSkip (n : Z).
Arguments opFilter {T} _.
Arguments opMap {T} _.
Arguments opFlatMap {T} _ _.
Arguments opPeek {T U} _ _.
Arguments opDistinct {T} _.
Arguments opSorted {T} _.
Arguments opLimit {T} _.
Arguments opSkip {T} _.

Section Declaring.
Variable sort_Sort : forall T : Type, Sortable T -> Sortable T.
Context {T I : Type}.

Definition declare (op : operation T) (s : stream T I) : stream T I :=
  match op with
  | opFilter test => Filter test s
  | opMap apply => Map apply s
  | opFlatMap fuel flatten => FlatMap fuel flatten s
  | opPeek consumer u => Peek consumer u s
  | opDistinct distincter => Distinct distincter s
  | opSorted comparator => Sorted sort_Sort comparator s
  | opLimit maxSize => Limit maxSize s
  | opSkip n => Skip n s
  end.

(** Declaring one operation after the other, the first of [ops] first. *)
Definition declareAll (ops : list (operation T)) (s : stream T I) : stream T I :=
  fold_left (fun s op => declare op s) ops s.

End Declaring.

(** [declared sort_Sort s]: the pipeline [s] is a head with operations
    declared on it, and so is every stream a [FlatMap] of it flattens into. *)
Inductive declared (sort_Sort : forall T : Type, Sortable T -> Sortable T) {T : Type}
  : forall {I : Type}, stream T I -> Prop :=
| declared_head {I} (src : iterator T I) :
    declared sort_Sort (newHead src)
| declared_flatMap {I} (s : stream T I) fuel (flatten : T -> Stream T) :
    declared sort_Sort s ->
    (forall t, declared sort_Sort (nodes (flatten t))) ->
    declared sort_Sort (FlatMap fuel flatten s)
| declared_op {I} (s : stream T I) (op : operation T) :
    declared sort_Sort s ->
    (forall fuel flatten, op <> opFlatMap fuel flatten) ->
    declared sort_Sort (declare sort_Sort op s).

(** [back n s]: the node [n] steps of [prev] behind [s]. *)
Fixpoint back {T I} (n : nat) (s : stream T I) : option (stream T I) :=
  match n with
  | O => Some s
  | S n' => prev s ≫= back n'
  end.

(** ** Closures that treat the stage below as a stage

    [option_le R x y]: if [x] returned, then [y] returned as well and the two
    are related. *)
Definition option_le {A B} (R : A -> B -> Prop) (x : option A) (y : option B) : Prop :=
  match x with
  | None => True
  | Some a => match y with Some b => R a b | None => False end
  end.

(** [related R a b]: from related states, whatever [a] does, [b] does. *)
Definition related {T D1 D2} (R : D1 -> D2 -> Prop)
  (a : baseStage T D1) (b : baseStage T D2) : Prop :=
  (forall size d1 d2, R d1 d2 -> option_le R (Begin a size d1) (Begin b size d2)) /\
  (forall t d1 d2, R d1 d2 -> option_le R (Accept a t d1) (Accept b t d2)) /\
  (forall d1 d2, R d1 d2 -> CanFinish a d1 = CanFinish b d2) /\
  (forall d1 d2, R d1 d2 -> option_le R (End a d1) (End b d2)).

Definition above {O D1 D2} (R : D1 -> D2 -> Prop) (x : O * D1) (y : O * D2) : Prop :=
  x.1 = y.1 /\ R x.2 y.2.

(** [natural w]: the stage [w] builds uses the stage below only through its
    four methods; over two related stages below it builds related stages. *)
Definition natural {T O} (w : wrapper T O) : Prop :=
  forall D1 D2 (R : D1 -> D2 -> Prop) (down1 : baseStage T D1) (down2 : baseStage T D2),
    related R down1 down2 ->
    related (above R) (wrap_fn w down1) (wrap_fn w down2).

Fixpoint naturalStream {T I} (s : stream T I) : Prop :=
  match s with
  | newHead _ => True
  | newNode p w => natural w /\ naturalStream p
  end.

Fixpoint wrapRel {T I} (s : stream T I) {D1 D2} (R : D1 -> D2 -> Prop)
  : wrapState s D1 -> wrapState s D2 -> Prop :=
  match s with
  | newHead _ => R
  | newNode p w => wrapRel p (above R)
  end.

(** [silent ts] is [ts] with an [Accept] that panics whenever it is called. *)
Definition silent {T D} (ts : baseStage T D) : baseStage T D :=
  BaseStage (begin ts) (fun _ _ => None) (canFinish ts) (end_ ts).

(** Dropping the log from the result of a walk over a spied stage. *)
Definition forget {T I S} (r : I * (S * list (call T))) : I * S := (r.1, r.2.1).

(** ** The driver loop as a relation

    [pulls source stage i st ts i' st']: from source fields [i] and stage
    state [st] the loop pulls exactly [ts], one [Next] and one [Accept] per
    element, each with [HasNext] true and [CanFinish] false just before, and
    stops at [i'], [st'] because the source has no next element or because
    [CanFinish] has become true. *)
Inductive pulls {T I S} (source : iterator T I) (stage : baseStage T S)
  : I -> S -> list T -> I -> S -> Prop :=
| pulls_exhausted i st :
    HasNext source i = false ->
    pulls source stage i st [] i st
| pulls_finished i st :
    HasNext source i = true ->
    CanFinish stage st = true ->
    pulls source stage i st [] i st
| pulls_step i st t i1 st1 ts i2 st2 :
    HasNext source i = true ->
    CanFinish stage st = false ->
    Next source i = Some (t, i1) ->
    Accept stage t st = Some st1 ->
    pulls source stage i1 st1 ts i2 st2 ->
    pulls source stage i st (t :: ts) i2 st2.

(** [yields source i ts i']: the source delivers exactly [ts] and is then
    exhausted, with fields [i']. *)
Inductive yields {T I} (source : iterator T I) : I -> list T -> I -> Prop :=
| yields_nil i :
    HasNext source i = false ->
    yields source i [] i
| yields_cons i t i1 ts i2 :
    HasNext source i = true ->
    Next source i = Some (t, i1) ->
    yields source i1 ts i2 ->
    yields source i (t :: ts) i2.

(** Feeding a list to a stage, one [Accept] per element. *)
Fixpoint acceptAll {T S} (stage : baseStage T S) (ts : list T) (st : S) : option S :=
  match ts with
  | [] => Some st
  | t :: ts' => st' ← Accept stage t st; acceptAll stage ts' st'
  end.

(** ** What a pipeline computes

    [sized ys]: the length of [ys] is an [int64], so that a counter of the
    elements of [ys] does not wrap. *)
Definition sized {T} (ys : list T) : Prop := Z.of_nat (length ys) <= max_int.

(** [serves down P A out G]: the stage [down] turns the list it is fed into
    [G] of that list.  [P] holds of its variables before any [Begin], [A ys]
    after a [Begin] and the elements [ys]; its [Begin] is made before any
    element, every [Accept] returns, [End] leaves [G ys] to be read off with
    [out], and once [CanFinish] is true what follows does not matter to
    [G]. *)
Record serves {T D X} (down : baseStage T D) (P : D -> Prop) (A : list T -> D -> Prop)
  (out : D -> X) (G : list T -> X) : Prop := Serves {
  serves_Begin : forall size d, P d \/ A [] d ->
    exists d', Begin down size d = Some d' /\ A [] d';
  serves_Accept : forall ys y d, sized (ys ++ [y]) -> A ys d ->
    exists d', Accept down y d = Some d' /\ A (ys ++ [y]) d';
  serves_CanFinish : forall ys zs d, A ys d -> CanFinish down d = true ->
    G (ys ++ zs) = G ys;
  serves_End : forall ys d, A ys d -> exists d', End down d = Some d' /\ out d' = G ys
}.

(** [computes w f]: over a stage that serves [G], the stage [w] builds
    serves [G] of [f], starting from [w]'s fresh variables. *)
Definition computes {T O} (w : wrapper T O) (f : list T -> list T) : Prop :=
  forall D X (down : baseStage T D) (P : D -> Prop) (A : list T -> D -> Prop)
         (out : D -> X) (G : list T -> X),
    serves down P A out G ->
    exists A', serves (wrap_fn w down) (fun x => x.1 = own0 w /\ P x.2) A'
                 (fun x => out x.2) (fun ys => G (f ys)).

(** [carries s F]: the same of the whole chain of [s], from the states
    [wrapInit] makes. *)
Definition carries {T I} (s : stream T I) (F : list T -> list T) : Prop :=
  forall D X (ts : baseStage T D) (P : D -> Prop) (A : list T -> D -> Prop)
         (out : D -> X) (G : list T -> X),
    serves ts P A out G ->
    exists P' A', serves (wrapStage s ts) P' A' (fun st => out (terminalVars s st))
                    (fun ys => G (F ys)) /\
                  forall d, P d -> P' (wrapInit s d).

(** The list function of an operation whose callbacks are pure: what the
    elements that reach the stage below are, given all the elements that
    reach the operation.  [FlatMap] and [Peek] run callbacks with effects of
    their own and have none here. *)
Section Lists.
Variable sort_Sort : forall T : Type, Sortable T -> Sortable T.
Context {T : Type}.

Definition listOf (op : operation T) : option (list T -> list T) :=
  match op with
  | opFilter test => Some (List.filter test)
  | opMap apply => Some (map apply)
  | opFlatMap _ _ => None
  | opPeek _ _ => None
  | opDistinct distincter => Some (firstSeen distincter [])
  | opSorted comparator => Some (fun ys => List (sort_Sort T (MkSortable ys comparator)))
  | opLimit maxSize => Some (take (Z.to_nat maxSize))
  | opSkip n => Some (drop (Z.to_nat n))
  end.

(** The operations of [ops] one after the other, the first of [ops] first. *)
Fixpoint listsOf (ops : list (operation T)) : option (list T -> list T) :=
  match ops with
  | [] => Some (fun xs => xs)
  | op :: ops' =>
      f ← listOf op;
      F ← listsOf ops';
      Some (fun xs => F (f xs))
  end.

End Lists.

(** ** Stopping short

    [delivers source i ts i']: the source hands out [ts], one [Next] each
    with [HasNext] true just before, and is then left with fields [i'],
    whether it has more to give or not. *)
Inductive delivers {T I} (source : iterator T I) : I -> list T -> I -> Prop :=
| delivers_nil i :
    delivers source i [] i
| delivers_cons i t i1 ts i2 :
    HasNext source i = true ->
    Next source i = Some (t, i1) ->
    delivers source i1 ts i2 ->
    delivers source i (t :: ts) i2.

(** The stage side of the loop over the elements [ts]: before each
    [Accept] the loop has found [CanFinish] false. *)
Fixpoint drive {T S} (stage : baseStage T S) (ts : list T) (st : S) : option S :=
  match ts with
  | [] => Some st
  | t :: ts' =>
      if CanFinish stage st then None
      else st' ← Accept stage t st; drive stage ts' st'
  end.

(** The four cases of a proof that a closure is [natural], with the own
    variables of the two stages identified. *)
Ltac natural_cases :=
  intros D1 D2 R down1 down2 (Hb & Ha & Hc & He);
  repeat split;
  [ intros size [o1 d1] [o2 d2] [Ho Hd]
  | intros t [o1 d1] [o2 d2] [Ho Hd]
  | intros [o1 d1] [o2 d2] [Ho Hd]
  | intros [o1 d1] [o2 d2] [Ho Hd] ];
  match goal with
  | H : (_, _).1 = (?o, _).1, H' : R (_, _).2 (_, _).2 |- _ =>
      cbn [fst snd] in H, H'; subst o
  end.

(** * Properties *)

Section Driver.
Context {T I S : Type}.
Variable source : iterator T I.
Variable stage : baseStage T S.

Lemma forLoop_pulls fuel i st i' st' :
  forLoop fuel source stage i st = Some (i', st') ->
  exists ts, pulls source stage i st ts i' st' /\ (length ts <= fuel)%nat.
Proof.
  revert i st. induction fuel as [|n IH]; intros i st; simpl.
  - destruct (HasNext source i) eqn:Hn; simpl.
    + destruct (CanFinish stage st) eqn:Hc; simpl; [|discriminate].
      intros [= <- <-]. exists []. split; [by apply pulls_finished | done].
    + intros [= <- <-]. exists []. split; [by apply pulls_exhausted | done].
  - destruct (HasNext source i) eqn:Hn; simpl.
    + destruct (CanFinish stage st) eqn:Hc; simpl.
      * intros [= <- <-]. exists []. split; [by apply pulls_finished | simpl; lia].
      * destruct (Next source i) as [[t i1]|] eqn:Hx; simpl; [|discriminate].
        destruct (Accept stage t st) as [st1|] eqn:Ha; simpl; [|discriminate].
        intros H. destruct (IH _ _ H) as (ts & Hp & Hl).
        exists (t :: ts). split; [by eapply pulls_step | simpl; lia].
    + intros [= <- <-]. exists []. split; [by apply pulls_exhausted | simpl; lia].
Qed.

Lemma pulls_forLoop fuel i st ts i' st' :
  pulls source stage i st ts i' st' ->
  (length ts <= fuel)%nat ->
  forLoop fuel source stage i st = Some (i', st').
Proof.
  intros Hp. revert fuel.
  induction Hp as [i st Hn|i st Hn Hc|i st t i1 st1 ts i2 st2 Hn Hc Hx Ha Hp IH];
    intros fuel Hl.
  - destruct fuel; simpl; by rewrite Hn.
  - destruct fuel; simpl; by rewrite Hn, Hc.
  - destruct fuel as [|n]; simpl in Hl; [lia|].
    simpl. rewrite Hn, Hc, Hx. simpl. rewrite Ha. simpl. apply IH. lia.
Qed.

(** The loop is a function: what it pulls and where it stops are determined. *)
Lemma pulls_det i st ts i' st' ts2 i2 st2 :
  pulls source stage i st ts i' st' ->
  pulls source stage i st ts2 i2 st2 ->
  ts = ts2 /\ i' = i2 /\ st' = st2.
Proof.
  intros Hp. revert ts2 i2 st2.
  induction Hp as [i st Hn|i st Hn Hc|i st t i1 st1 ts i3 st3 Hn Hc Hx Ha Hp IH];
    intros ts2 i2 st2 Hq; inversion Hq; subst; try congruence; try done.
  match goal with
  | Hx2 : Next source i = Some _, Ha2 : Accept stage _ st = Some _,
    Hp2 : pulls _ _ _ _ _ _ _ |- _ =>
      rewrite Hx in Hx2; injection Hx2 as <- <-;
      rewrite Ha in Ha2; injection Ha2 as <-;
      destruct (IH _ _ _ Hp2) as (-> & -> & ->)
  end.
  done.
Qed.

(** When the stage never asks to finish, the loop drains a finite source. *)
Lemma pulls_yields i ts i' st st' :
  yields source i ts i' ->
  (forall st, CanFinish stage st = false) ->
  acceptAll stage ts st = Some st' ->
  pulls source stage i st ts i' st'.
Proof.
  intros Hy Hc. revert st. induction Hy as [i Hn|i t i1 ts i2 Hn Hx Hy IH]; intros st; simpl.
  - intros [= <-]. by apply pulls_exhausted.
  - destruct (Accept stage t st) as [st1|] eqn:Ha; simpl; [|discriminate].
    intros H. eapply pulls_step; eauto.
Qed.

End Driver.

Section Spy.
Context {T I S : Type}.
Variable source : iterator T I.
Variable stage : baseStage T S.

Lemma forLoop_spy fuel i st log :
  forget <$> forLoop fuel source (spy stage) i (st, log) = forLoop fuel source stage i st.
Proof.
  revert i st log. induction fuel as [|n IH]; intros i st log; simpl;
    change (CanFinish (spy stage) (st, log)) with (CanFinish stage st);
    destruct (HasNext source i && negb (CanFinish stage st)); try done.
  destruct (Next source i) as [[t i1]|]; simpl; [|done].
  change (Accept (spy stage) t (st, log)) with (logged (CAccept t) log (Accept stage t st)).
  destruct (Accept stage t st) as [st1|]; simpl; [|done]. apply IH.
Qed.

Lemma walk_spy fuel i st log :
  forget <$> walk fuel source (spy stage) i (st, log) = walk fuel source stage i st.
Proof.
  unfold walk.
  change (Begin (spy stage) (GetSizeIfKnown source i) (st, log))
    with (logged (CBegin (GetSizeIfKnown source i)) log
            (Begin stage (GetSizeIfKnown source i) st)).
  destruct (Begin stage (GetSizeIfKnown source i) st) as [st1|]; simpl; [|done].
  rewrite <- (forLoop_spy fuel i st1 (log ++ [CBegin (GetSizeIfKnown source i)])).
  destruct (forLoop fuel source (spy stage) i _) as [[i' [st2 log2]]|]; simpl; [|done].
  change (End (spy stage) (st2, log2)) with (logged CEnd log2 (End stage st2)).
  by destruct (End stage st2).
Qed.

Lemma pulls_spy_fwd i p ts i' p' :
  pulls source (spy stage) i p ts i' p' ->
  pulls source stage i p.1 ts i' p'.1 /\ p'.2 = p.2 ++ map CAccept ts.
Proof.
  induction 1 as [i [st log] Hn|i [st log] Hn Hc
                 |i [st log] t i1 [st1 log1] ts i2 p2 Hn Hc Hx Ha Hp IH];
    simpl in *.
  - split; [by apply pulls_exhausted | by rewrite app_nil_r].
  - split; [by apply pulls_finished | by rewrite app_nil_r].
  - change (Accept (spy stage) t (st, log))
      with (logged (CAccept t) log (Accept stage t st)) in Ha.
    destruct (Accept stage t st) as [st1'|] eqn:Ha'; simpl in Ha; [|discriminate].
    injection Ha as -> <-. destruct IH as [IH1 IH2]. split.
    + by eapply pulls_step.
    + rewrite IH2, <- app_assoc. done.
Qed.

Lemma pulls_spy_bwd i st ts i' st' :
  pulls source stage i st ts i' st' ->
  forall log, pulls source (spy stage) i (st, log) ts i' (st', log ++ map CAccept ts).
Proof.
  induction 1 as [i st Hn|i st Hn Hc|i st t i1 st1 ts i2 st2 Hn Hc Hx Ha Hp IH];
    intros log; simpl.
  - rewrite app_nil_r. by apply pulls_exhausted.
  - rewrite app_nil_r. by apply pulls_finished.
  - eapply pulls_step; eauto.
    + change (Accept (spy stage) t (st, log)) with (logged (CAccept t) log (Accept stage t st)).
      rewrite Ha. reflexivity.
    + specialize (IH (log ++ [CAccept t])). by rewrite <- app_assoc in IH.
Qed.

(** One walk over a spied stage: the log is one [Begin] with the source's
    size, one [Accept] per pulled element, one [End]. *)
Lemma walk_spy_log fuel i st i' st' log :
  walk fuel source (spy stage) i (st, []) = Some (i', (st', log)) <->
  exists st1 pulled st2,
    Begin stage (GetSizeIfKnown source i) st = Some st1 /\
    pulls source stage i st1 pulled i' st2 /\ (length pulled <= fuel)%nat /\
    End stage st2 = Some st' /\
    log = CBegin (GetSizeIfKnown source i) :: map CAccept pulled ++ [CEnd].
Proof.
  unfold walk.
  change (Begin (spy stage) (GetSizeIfKnown source i) (st, []))
    with (logged (CBegin (GetSizeIfKnown source i)) (@nil (call T))
            (Begin stage (GetSizeIfKnown source i) st)).
  split.
  - destruct (Begin stage (GetSizeIfKnown source i) st) as [st1|]; simpl; [|discriminate].
    destruct (forLoop fuel source (spy stage) i _) as [[j [st2 log2]]|] eqn:Hl; simpl;
      [|discriminate].
    change (End (spy stage) (st2, log2)) with (logged CEnd log2 (End stage st2)).
    destruct (End stage st2) as [st3|] eqn:He; simpl; [|discriminate].
    intros [= -> -> <-].
    apply forLoop_pulls in Hl as (pulled & Hp & Hlen).
    apply pulls_spy_fwd in Hp as [Hp Hlog]. simpl in *.
    exists st1, pulled, st2. by rewrite Hlog.
  - intros (st1 & pulled & st2 & Hb & Hp & Hlen & He & ->).
    rewrite Hb. simpl.
    rewrite (pulls_forLoop _ _ fuel _ _ _ _ _
               (pulls_spy_bwd _ _ _ _ _ Hp [CBegin (GetSizeIfKnown source i)]) Hlen).
    simpl. change (End (spy stage) (st2, ?l)) with (logged CEnd l (End stage st2)).
    unfold End in *. simpl. unfold End. rewrite He. done.
Qed.

End Spy.

(** ** C1: the protocol of a terminal evaluation *)

(** C1.  For every pipeline [s], terminal stage [ts], source fields [i] and
    terminal variables [d]: [terminal] runs the walk on the fused stage
    [wrapStage s ts] (watching the fused stage through [spy] changes nothing),
    and the calls the fused stage receives are exactly: one [Begin] with the
    source's size hint; then one [Accept] per pulled element, each pulled by
    [Next] while [HasNext] was true and [CanFinish] was false just before
    it; then, the loop having stopped on an exhausted source or on
    [CanFinish] true, one [End]. *)
Theorem terminal_protocol {T I D} (s : stream T I) (ts : baseStage T D)
  (fuel : nat) (i : I) (d : D) :
  let stage := wrapStage s ts in
  let size := GetSizeIfKnown (source s) i in
  terminal fuel s ts i d =
    (fun r => (r.1, terminalVars s r.2.1)) <$>
      walk fuel (source s) (spy stage) i (wrapInit s d, []) /\
  forall i' st' log,
    walk fuel (source s) (spy stage) i (wrapInit s d, []) = Some (i', (st', log)) <->
    exists st1 pulled st2,
      Begin stage size (wrapInit s d) = Some st1 /\
      pulls (source s) stage i st1 pulled i' st2 /\ (length pulled <= fuel)%nat /\
      End stage st2 = Some st' /\
      log = CBegin size :: map CAccept pulled ++ [CEnd].
Proof.
  intros stage size. split.
  - unfold terminal. fold stage.
    rewrite <- (walk_spy (source s) stage fuel i (wrapInit s d) []).
    by destruct (walk fuel (source s) (spy stage) i (wrapInit s d, [])) as [[j [st l]]|].
  - intros i' st' log. apply walk_spy_log.
Qed.

(** The witness of C1: [Filter(isEven)] then [Limit(2)] over [[2,3,4,5]],
    collected by [ToSlice]'s stage; the loop stops on [CanFinish] with 5
    not pulled. *)
Lemma terminal_protocol_witness :
  let s := Limit 2 (Filter Z.even (newHead sliceIterator_iterator)) in
  let ts := reduceByStage toSliceInit toSliceAcc in
  let stage := wrapStage s ts in
  let stopped := SliceIterator (Base 3 4) [2; 3; 4; 5] in
  let log := [CBegin 4; CAccept 2; CAccept 3; CAccept 4; CEnd] in
  walk 5 (source s) (spy stage) (it [2; 3; 4; 5]) (wrapInit s None, []) =
    Some (stopped, ((tt, (2, Some [2; 4])), log)) /\
  exists st1 pulled st2,
    Begin stage 4 (wrapInit s None) = Some st1 /\
    pulls (source s) stage (it [2; 3; 4; 5]) st1 pulled stopped st2 /\
    (length pulled <= 5)%nat /\
    End stage st2 = Some (tt, (2, Some [2; 4])) /\
    log = CBegin 4 :: map CAccept pulled ++ [CEnd].
Proof.
  intros s ts stage stopped log.
  assert (H : walk 5 (source s) (spy stage) (it [2; 3; 4; 5]) (wrapInit s None, []) =
              Some (stopped, ((tt, (2, Some [2; 4])), log))) by reflexivity.
  split; [exact H|].
  exact (proj1 (proj2 (terminal_protocol s ts 5 (it [2; 3; 4; 5]) None) _ _ _) H).
Defined.

(** ** Sources *)

Lemma yields_slice {T} (done_ rest : list T) :
  yields sliceIterator_iterator
    (SliceIterator (Base (Z.of_nat (length done_)) (Z.of_nat (length (done_ ++ rest))))
       (done_ ++ rest))
    rest
    (SliceIterator (Base (Z.of_nat (length (done_ ++ rest))) (Z.of_nat (length (done_ ++ rest))))
       (done_ ++ rest)).
Proof.
  revert done_. induction rest as [|t rest IH]; intros done_.
  - rewrite app_nil_r. apply yields_nil. simpl. unfold base_HasNext. simpl.
    apply Z.ltb_irrefl.
  - eapply yields_cons.
    + simpl. unfold base_HasNext. simpl. apply Z.ltb_lt.
      rewrite length_app. simpl. lia.
    + simpl. unfold sliceIterator_Next, index. simpl.
      destruct (0 <=? Z.of_nat (length done_)) eqn:H0; [|apply Z.leb_gt in H0; lia].
      rewrite Nat2Z.id, list_lookup_middle by done. simpl. reflexivity.
    + specialize (IH (done_ ++ [t])).
      rewrite <- app_assoc in IH. simpl in IH.
      rewrite length_app in IH. simpl in IH.
      replace (Z.of_nat (length done_ + 1)) with (Z.of_nat (length done_) + 1) in IH by lia.
      exact IH.
Qed.

(** A slice source delivers its elements in order and ends exhausted. *)
Lemma yields_it {T} (xs : list T) :
  yields sliceIterator_iterator (it xs)
    xs (SliceIterator (Base (Z.of_nat (length xs)) (Z.of_nat (length xs))) xs).
Proof. exact (yields_slice [] xs). Qed.

Lemma yields_HasNext {T I} (source : iterator T I) i ts i' :
  yields source i ts i' -> HasNext source i' = false.
Proof. induction 1; done. Qed.

Lemma walk_yields {T I S} (source : iterator T I) (stage : baseStage T S)
  fuel i ts i' st st1 st2 st3 :
  yields source i ts i' ->
  (forall st, CanFinish stage st = false) ->
  Begin stage (GetSizeIfKnown source i) st = Some st1 ->
  acceptAll stage ts st1 = Some st2 ->
  End stage st2 = Some st3 ->
  (length ts <= fuel)%nat ->
  walk fuel source stage i st = Some (i', st3).
Proof.
  intros Hy Hc Hb Ha He Hl. unfold walk. rewrite Hb. simpl.
  rewrite (pulls_forLoop source stage fuel i st1 ts i' st2); [|by apply pulls_yields|done].
  simpl. rewrite He. done.
Qed.


(** ** The stages of the operations, method by method *)

Lemma below_bind {O D A} (o : O) (r : option D) (k : O * D -> option A) :
  below o r ≫= k = r ≫= (fun d => k (o, d)).
Proof. by destruct r. Qed.

Section FilterStage.
Context {T D : Type}.
Variable test : T -> bool.
Variable down : baseStage T D.

Lemma filter_Begin size o d :
  Begin (wrap_fn (filterWrap test) down) size (o, d) = below o (Begin down unkonwnSize d).
Proof. reflexivity. Qed.

Lemma filter_Accept t o d :
  Accept (wrap_fn (filterWrap test) down) t (o, d) =
  if test t then below o (Accept down t d) else Some (o, d).
Proof. reflexivity. Qed.

Lemma filter_CanFinish o d :
  CanFinish (wrap_fn (filterWrap test) down) (o, d) = CanFinish down d.
Proof. reflexivity. Qed.

Lemma filter_End o d :
  End (wrap_fn (filterWrap test) down) (o, d) = below o (End down d).
Proof. reflexivity. Qed.

Lemma filter_acceptAll ts o d :
  acceptAll (wrap_fn (filterWrap test) down) ts (o, d) =
  below o (acceptAll down (List.filter test ts) d).
Proof.
  revert d. induction ts as [|t ts IH]; intros d; [reflexivity|].
  cbn [acceptAll List.filter]. rewrite filter_Accept. destruct (test t).
  - rewrite below_bind. cbn [acceptAll]. destruct (Accept down t d); [apply IH|done].
  - apply IH.
Qed.

End FilterStage.

Section MapStage.
Context {T D : Type}.
Variable apply : T -> T.
Variable down : baseStage T D.

Lemma map_Begin size o d :
  Begin (wrap_fn (mapWrap apply) down) size (o, d) = below o (Begin down size d).
Proof. reflexivity. Qed.

Lemma map_Accept t o d :
  Accept (wrap_fn (mapWrap apply) down) t (o, d) = below o (Accept down (apply t) d).
Proof. reflexivity. Qed.

Lemma map_CanFinish o d :
  CanFinish (wrap_fn (mapWrap apply) down) (o, d) = CanFinish down d.
Proof. reflexivity. Qed.

Lemma map_End o d :
  End (wrap_fn (mapWrap apply) down) (o, d) = below o (End down d).
Proof. reflexivity. Qed.

Lemma map_acceptAll ts o d :
  acceptAll (wrap_fn (mapWrap apply) down) ts (o, d) =
  below o (acceptAll down (map apply ts) d).
Proof.
  revert d. induction ts as [|t ts IH]; intros d; [reflexivity|].
  cbn [acceptAll map]. rewrite map_Accept, below_bind.
  destruct (Accept down (apply t) d); [apply IH|done].
Qed.

End MapStage.

(** The terminal stage of [ToSlice] collects what it is fed. *)
Lemma toSlice_acceptAll {T} (ts acc : list T) :
  acceptAll (reduceByStage toSliceInit toSliceAcc) ts (Some acc) = Some (Some (acc ++ ts)).
Proof.
  revert acc. induction ts as [|t ts IH]; intros acc; cbn [acceptAll].
  - by rewrite app_nil_r.
  - change (Accept (reduceByStage toSliceInit toSliceAcc) t (Some acc))
      with (Some (Some (acc ++ [t]))).
    cbn. rewrite IH, <- app_assoc. done.
Qed.

(** ** C6: Filter, then Map, then ToSlice *)

(** C6.  For every source that delivers exactly [xs] and every [p] and [f],
    [Filter p], then [Map f], then [ToSlice] returns [f] applied to the
    elements of [xs] that satisfy [p], in the order of [xs]. *)
Theorem filter_map_toSlice {T I} (src : iterator T I) (p : T -> bool) (f : T -> T)
  (fuel : nat) (i : I) (xs : list T) (i' : I) :
  yields src i xs i' ->
  (length xs <= fuel)%nat ->
  ToSlice fuel (Map f (Filter p (newHead src))) i = Some (i', map f (List.filter p xs)).
Proof.
  intros Hy Hl. unfold ToSlice, ReduceBy, terminal.
  cbn [source Map Filter wrapStage wrapInit].
  rewrite (walk_yields src _ fuel i xs i' (tt, (tt, None)) (tt, (tt, Some []))
             (tt, (tt, Some (map f (List.filter p xs))))
             (tt, (tt, Some (map f (List.filter p xs)))) Hy); try done.
  - by intros [[] [[] r]].
  - rewrite filter_acceptAll, map_acceptAll, toSlice_acceptAll. reflexivity.
Qed.

(** [Filter(isEven)] then [Map(x*2)] over [[1,2,3,4,5,6]] yields [[4,8,12]]. *)
Lemma filter_map_toSlice_witness :
  yields sliceIterator_iterator (it [1; 2; 3; 4; 5; 6]) [1; 2; 3; 4; 5; 6]
    (SliceIterator (Base 6 6) [1; 2; 3; 4; 5; 6]) /\
  (length [1; 2; 3; 4; 5; 6] <= 6)%nat /\
  ToSlice 6 (Map (fun x => x * 2) (Filter Z.even (newHead sliceIterator_iterator)))
    (it [1; 2; 3; 4; 5; 6]) =
  Some (SliceIterator (Base 6 6) [1; 2; 3; 4; 5; 6], [4; 8; 12]).
Proof.
  assert (Hy : yields sliceIterator_iterator (it [1; 2; 3; 4; 5; 6]) [1; 2; 3; 4; 5; 6]
                 (SliceIterator (Base 6 6) [1; 2; 3; 4; 5; 6]))
    by (repeat (eapply yields_cons; [reflexivity|reflexivity|]); apply yields_nil; reflexivity).
  split; [exact Hy|]. split; [simpl; lia|].
  apply (filter_map_toSlice sliceIterator_iterator Z.even (fun x => x * 2) 6 _ _ _ Hy).
  simpl. lia.
Defined.

Lemma int64_small z : min_int <= z <= max_int -> int64 z = z.
Proof.
  unfold int64, min_int, max_int. intros H.
  rewrite Z.mod_small by lia. lia.
Qed.

Section LimitStage.
Context {T D : Type}.
Variable maxSize : Z.
Variable down : baseStage T D.

Lemma limit_Begin size count d :
  Begin (wrap_fn (limitWrap maxSize) down) size (count, d) =
  below count (Begin down (if (size >? 0) && (size >? maxSize) then maxSize else size) d).
Proof. reflexivity. Qed.

Lemma limit_Accept t count d :
  Accept (wrap_fn (limitWrap maxSize) down) t (count, d) =
  (d' ← (if count <? maxSize then Accept down t d else Some d);
   Some (int64 (count + 1), d')).
Proof. reflexivity. Qed.

Lemma limit_CanFinish count d :
  CanFinish (wrap_fn (limitWrap maxSize) down) (count, d) = (count >=? maxSize).
Proof. reflexivity. Qed.

Lemma limit_End count d :
  End (wrap_fn (limitWrap maxSize) down) (count, d) = below count (End down d).
Proof. reflexivity. Qed.

End LimitStage.

(** ** C2: Limit over the seed source *)

Lemma iterates_snoc {T} (f : T -> T) s n :
  iterates f s (S n) = iterates f s n ++ [Nat.iter n f s].
Proof.
  revert s. induction n as [|n IH]; intros s; [reflexivity|].
  change (iterates f s (S (S n))) with (s :: iterates f (f s) (S n)).
  rewrite IH. simpl. f_equal. f_equal. f_equal.
  clear IH. induction n as [|n IH]; [reflexivity|]. simpl. by rewrite IH.
Qed.

Lemma length_iterates {T} (f : T -> T) s n : length (iterates f s n) = n.
Proof. revert s. induction n as [|n IH]; intros s; simpl; [done|by rewrite IH]. Qed.

Lemma limit_seed_pulls {T} (f : T -> T) (k : Z) (n : nat) e calls c acc :
  0 <= c -> c + Z.of_nat n = k -> k <= max_int ->
  pulls (counting seedIt_iterator)
    (wrap_fn (limitWrap k) (reduceByStage toSliceInit toSliceAcc))
    (SeedIt e f false, calls) (c, Some acc)
    (iterates f (f e) n)
    (SeedIt (Nat.iter n f e) f false, (calls + n)%nat)
    (k, Some (acc ++ iterates f (f e) n)).
Proof.
  revert e calls c acc. induction n as [|n IH]; intros e calls c acc Hc Hk Hmax.
  - cbn [iterates Nat.iter]. rewrite app_nil_r, Nat.add_0_r. replace c with k by lia.
    apply pulls_finished; [reflexivity|].
    rewrite limit_CanFinish. apply Z.geb_le. lia.
  - cbn [iterates]. eapply pulls_step.
    + reflexivity.
    + rewrite limit_CanFinish, Z.geb_leb. apply Z.leb_gt. lia.
    + reflexivity.
    + rewrite limit_Accept.
      replace (c <? k) with true by (symmetry; apply Z.ltb_lt; lia).
      rewrite int64_small by (unfold min_int, max_int in *; lia). reflexivity.
    + specialize (IH (f e) (S calls) (c + 1) (acc ++ [f e])).
      rewrite <- app_assoc in IH. cbn [app Nat.add] in IH.
      replace (calls + S n)%nat with (S (calls + n)) by lia.
      rewrite Nat.iter_succ_r. apply IH; lia.
Qed.

(** C2.  For every [k] from 1 up (an [int64]), every seed [s] and operator
    [f]: [Limit k] then [ToSlice] over the seed source returns, given [k]
    rounds, exactly [[s; f s; ...]] of length [k], and the source's [Next] has
    then been called exactly [k] times. *)
Theorem limit_seed_toSlice {T} (s : T) (f : T -> T) (k : Z) (fuel : nat) :
  1 <= k <= max_int ->
  (Z.to_nat k <= fuel)%nat ->
  ToSlice fuel (Limit k (newHead (counting seedIt_iterator))) (withSeed s f, 0%nat) =
  Some ((SeedIt (Nat.iter (Z.to_nat k - 1) f s) f false, Z.to_nat k),
        iterates f s (Z.to_nat k)).
Proof.
  intros Hk Hfuel. unfold ToSlice, ReduceBy, terminal, walk.
  cbn [source Limit wrapStage wrapInit].
  change (Begin _ _ _) with (Some (0, Some (@nil T))). cbn [mbind option_bind].
  destruct (Z.to_nat k) as [|n] eqn:Hn; [lia|].
  rewrite (pulls_forLoop _ _ fuel _ _ (s :: iterates f (f s) n)
             (SeedIt (Nat.iter n f s) f false, S n) (k, Some (s :: iterates f (f s) n))).
  - cbn. by rewrite Nat.sub_0_r.
  - eapply pulls_step.
    + reflexivity.
    + rewrite limit_CanFinish, Z.geb_leb. apply Z.leb_gt. lia.
    + reflexivity.
    + rewrite limit_Accept.
      replace (0 <? k) with true by (symmetry; apply Z.ltb_lt; lia).
      reflexivity.
    + apply (limit_seed_pulls f k n s 1%nat 1 [s]); lia.
  - cbn [length]. rewrite length_iterates. lia.
Qed.

(** The witness of C2: [Limit(3)] over seed 0 with operator +1 yields
    [[0,1,2]] after three calls of [Next]. *)
Lemma limit_seed_toSlice_witness :
  1 <= 3 <= max_int /\ (Z.to_nat 3 <= 3)%nat /\
  ToSlice 3 (Limit 3 (newHead (counting seedIt_iterator))) (withSeed 0 (fun x => x + 1), 0%nat) =
  Some ((SeedIt 2 (fun x => x + 1) false, 3%nat), [0; 1; 2]).
Proof.
  split; [unfold max_int; lia|]. split; [simpl; lia|].
  apply (limit_seed_toSlice 0 (fun x => x + 1) 3 3); [unfold max_int; lia|simpl; lia].
Defined.

(** ** C4: Distinct *)

Section DistinctStage.
Context {T D : Type}.
Variable distincter : T -> Z.
Variable down : baseStage T D.

Lemma distinct_Begin size set d :
  Begin (wrap_fn (distinctWrap distincter) down) size (set, d) =
  below (Some ∅) (Begin down unkonwnSize d).
Proof. reflexivity. Qed.

Lemma distinct_Accept t set d :
  Accept (wrap_fn (distinctWrap distincter) down) t (set, d) =
  match set ≫= (fun m : gmap Z bool => m !! distincter t) with
  | Some _ => Some (set, d)
  | None => m ← set; below (Some (<[distincter t := true]> m)) (Accept down t d)
  end.
Proof. reflexivity. Qed.

Lemma distinct_CanFinish set d :
  CanFinish (wrap_fn (distinctWrap distincter) down) (set, d) = CanFinish down d.
Proof. reflexivity. Qed.

Lemma distinct_End set d :
  End (wrap_fn (distinctWrap distincter) down) (set, d) = below None (End down d).
Proof. reflexivity. Qed.

Lemma holds_empty : holds distincter ∅ [].
Proof.
  intros z. rewrite lookup_empty. split; [by intros [? ?]|].
  simpl. by intros ?%elem_of_nil.
Qed.

Lemma holds_seen m earlier t :
  holds distincter m earlier -> is_Some (m !! distincter t) ->
  holds distincter m (earlier ++ [t]).
Proof.
  intros H Ht z. rewrite fmap_app, elem_of_app. split.
  - intros Hz. left. by apply H.
  - intros [Hz|Hz]; [by apply H|].
    simpl in Hz. apply list_elem_of_singleton in Hz. by subst.
Qed.

Lemma holds_insert m earlier t :
  holds distincter m earlier ->
  holds distincter (<[distincter t := true]> m) (earlier ++ [t]).
Proof.
  intros H z. rewrite fmap_app, elem_of_app. simpl. rewrite list_elem_of_singleton.
  destruct (decide (distincter t = z)) as [->|Hne].
  - rewrite lookup_insert_eq. split; [by right|by eauto].
  - rewrite lookup_insert_ne by done. split.
    + intros Hz. left. by apply H.
    + intros [Hz|Hz]; [by apply H|congruence].
Qed.

Lemma holds_seenSet xs earlier m :
  holds distincter m earlier ->
  holds distincter (seenSet distincter m xs) (earlier ++ xs).
Proof.
  revert earlier m. induction xs as [|t xs IH]; intros earlier m Hm.
  - by rewrite app_nil_r.
  - cbn [seenSet fold_left]. replace (earlier ++ t :: xs) with ((earlier ++ [t]) ++ xs)
      by (by rewrite <- app_assoc).
    apply IH. destruct (m !! distincter t) eqn:Hb.
    + apply holds_seen; [done|]. by rewrite Hb.
    + by apply holds_insert.
Qed.

(** Accepting [xs] hands on the elements whose hash code is new, in order. *)
Lemma distinct_acceptAll xs earlier m d :
  holds distincter m earlier ->
  acceptAll (wrap_fn (distinctWrap distincter) down) xs (Some m, d) =
  below (Some (seenSet distincter m xs)) (acceptAll down (firstSeen distincter earlier xs) d).
Proof.
  revert earlier m d. induction xs as [|t xs IH]; intros earlier m d Hm; [reflexivity|].
  cbn [acceptAll firstSeen seenSet fold_left]. rewrite distinct_Accept. cbn [mbind option_bind].
  destruct (decide (distincter t ∈ distincter <$> earlier)) as [Hin|Hnin].
  - apply Hm in Hin as Hs. destruct Hs as [b Hb]. rewrite Hb. cbn [mbind option_bind app].
    apply IH, holds_seen; [done|]. by rewrite Hb.
  - destruct (m !! distincter t) as [b|] eqn:Hb.
    { exfalso. apply Hnin, Hm. by rewrite Hb. }
    cbn [app acceptAll]. rewrite below_bind.
    destruct (Accept down t d) as [d'|]; cbn [mbind option_bind]; [|done].
    apply IH. by apply holds_insert.
Qed.

End DistinctStage.

(** C4.  For every hash function [h] and whatever stage is below:
    [Begin] makes a fresh, empty set; accepting [xs] from there hands down,
    in order, exactly the elements whose hash code no earlier element of
    [xs] bears; of two elements with one hash code the later is dropped,
    equal or not; [End] sets the set to nil; and over a source that
    delivers [xs], [Distinct h] then [ToSlice] returns those elements. *)
Theorem distinct_first_seen {T} (h : T -> Z) :
  (forall D (down : baseStage T D) size set d,
     Begin (wrap_fn (distinctWrap h) down) size (set, d) =
     below (Some ∅) (Begin down unkonwnSize d)) /\
  (forall D (down : baseStage T D) xs d,
     acceptAll (wrap_fn (distinctWrap h) down) xs (Some ∅, d) =
     below (Some (seenSet h ∅ xs)) (acceptAll down (firstSeen h [] xs) d)) /\
  (forall x y, h x = h y -> firstSeen h [] [x; y] = [x]) /\
  (forall D (down : baseStage T D) set d,
     End (wrap_fn (distinctWrap h) down) (set, d) = below None (End down d)) /\
  (forall I (src : iterator T I) fuel i xs i',
     yields src i xs i' ->
     (length xs <= fuel)%nat ->
     ToSlice fuel (Distinct h (newHead src)) i = Some (i', firstSeen h [] xs)).
Proof.
  split; [reflexivity|]. split; [|split; [|split; [reflexivity|]]].
  - intros D down xs d. apply distinct_acceptAll, holds_empty.
  - intros x y Hxy. cbn [firstSeen app fmap list_fmap].
    destruct (decide (h x ∈ [])) as [Hin|_]; [by apply elem_of_nil in Hin|].
    destruct (decide (h y ∈ [h x])) as [_|Hnin]; [done|].
    exfalso. apply Hnin. rewrite Hxy. by apply list_elem_of_singleton.
  - intros I src fuel i xs i' Hy Hl. unfold ToSlice, ReduceBy, terminal.
    cbn [source Distinct wrapStage wrapInit].
    rewrite (walk_yields src _ fuel i xs i' (None, None) (Some ∅, Some [])
               (Some (seenSet h ∅ xs), Some (firstSeen h [] xs))
               (None, Some (firstSeen h [] xs)) Hy); try done.
    + by intros [set r].
    + rewrite (distinct_acceptAll h _ xs [] ∅) by apply holds_empty.
      rewrite toSlice_acceptAll. reflexivity.
Qed.

(** The witness of C4: [Distinct(identityHash)] over [[1,2,2,3,1]] yields
    [[1,2,3]]. *)
Lemma distinct_first_seen_witness :
  yields sliceIterator_iterator (it [1; 2; 2; 3; 1]) [1; 2; 2; 3; 1]
    (SliceIterator (Base 5 5) [1; 2; 2; 3; 1]) /\
  (length [1; 2; 2; 3; 1] <= 5)%nat /\
  ToSlice 5 (Distinct (fun x => x) (newHead sliceIterator_iterator)) (it [1; 2; 2; 3; 1]) =
  Some (SliceIterator (Base 5 5) [1; 2; 2; 3; 1], [1; 2; 3]).
Proof.
  assert (Hy : yields sliceIterator_iterator (it [1; 2; 2; 3; 1]) [1; 2; 2; 3; 1]
                 (SliceIterator (Base 5 5) [1; 2; 2; 3; 1]))
    by (repeat (eapply yields_cons; [reflexivity|reflexivity|]); apply yields_nil; reflexivity).
  split; [exact Hy|]. split; [simpl; lia|].
  apply (proj2 (proj2 (proj2 (proj2 (distinct_first_seen (fun x : Z => x)))))
           _ sliceIterator_iterator 5%nat _ _ _ Hy).
  simpl. lia.
Defined.

(** ** C8: the range source *)

(** Where the difference of cursor and bound is an [int], the sign of
    [CompareTo] is the order of the two. *)
Lemma rangeIt_HasNext_in_range (r : rangeIt epInt) :
  min_int <= epInt_val (next r) - epInt_val (to r) <= max_int ->
  rangeIt_HasNext r =
  if step r >=? 0 then epInt_val (next r) <? epInt_val (to r)
  else epInt_val (next r) >? epInt_val (to r).
Proof.
  intros H. unfold rangeIt_HasNext. cbn [CompareTo epInt_endpoint]. unfold int.
  rewrite int64_small by done.
  destruct (step r >=? 0).
  - destruct (Z.ltb_spec (epInt_val (next r)) (epInt_val (to r)));
      [apply Z.ltb_lt|apply Z.ltb_ge]; lia.
  - rewrite !Z.gtb_ltb.
    destruct (Z.ltb_spec (epInt_val (to r)) (epInt_val (next r)));
      [apply Z.ltb_lt|apply Z.ltb_ge]; lia.
Qed.

(** C8.  [CompareTo] subtracts in [int], and the difference wraps: stepping
    forward from the least [int] towards 1 the cursor is below the bound, yet
    [HasNext] is false; stepping backward from the greatest [int] towards -1
    the cursor is above the bound, yet [HasNext] is false. *)
Theorem rangeIt_HasNext_overflow :
  (let r := withRange (EpInt min_int) (EpInt 1) 1 in
   step r >= 0 /\ epInt_val (next r) < epInt_val (to r) /\
   HasNext rangeIt_iterator r = false) /\
  (let r := withRange (EpInt max_int) (EpInt (-1)) (-1) in
   step r < 0 /\ epInt_val (next r) > epInt_val (to r) /\
   HasNext rangeIt_iterator r = false).
Proof. by vm_compute. Qed.

(** ** C5: Reduce *)

Lemma reduce_acceptAll {V U} (accumulator : option V -> option V -> U -> option V * U)
  (xs : list (option V)) (r : option V) (u : U) :
  acceptAll (reduceOptStage accumulator) xs (ReduceVars u r true) =
  Some (ReduceVars (foldFrom accumulator r u xs).2 (foldFrom accumulator r u xs).1 true).
Proof.
  revert r u. induction xs as [|x xs IH]; intros r u; [reflexivity|].
  cbn [acceptAll foldFrom].
  change (Accept (reduceOptStage accumulator) x (ReduceVars u r true))
    with (let '(r', u') := accumulator r x u in Some (ReduceVars u' r' true)).
  destruct (accumulator r x u) as [r' u']. cbn [mbind option_bind]. apply IH.
Qed.

(** C5, as the code has it.  Over a source that delivers no element [Reduce]
    returns the absent optional.  Over one that delivers [x :: rest] it
    returns [OfNullable] of the left-to-right fold seeded with [x]: a present
    optional holding the fold when the fold is not nil, the absent optional
    when it is.  Over the single element [Some v] it returns [present v] and
    the combiner has not run, whatever it is. *)
Theorem reduce_fold {V I U} (src : iterator (option V) I)
  (accumulator : option V -> option V -> U -> option V * U)
  (fuel : nat) (i : I) (xs : list (option V)) (i' : I) (u : U) :
  yields src i xs i' ->
  (length xs <= fuel)%nat ->
  Reduce fuel (newHead src) accumulator i u =
    Some (i', match xs with
              | [] => (u, emtpy)
              | x :: rest =>
                  ((foldFrom accumulator x u rest).2,
                   OfNullable (foldFrom accumulator x u rest).1)
              end) /\
  (forall v, xs = [Some v] ->
     Reduce fuel (newHead src) accumulator i u = Some (i', (u, present v))).
Proof.
  intros Hy Hl.
  assert (Heq : Reduce fuel (newHead src) accumulator i u =
    Some (i', match xs with
              | [] => (u, emtpy)
              | x :: rest =>
                  ((foldFrom accumulator x u rest).2,
                   OfNullable (foldFrom accumulator x u rest).1)
              end)).
  { unfold Reduce, terminal. cbn [source wrapStage wrapState wrapInit terminalVars].
    destruct xs as [|x rest].
    - rewrite (walk_yields src _ fuel i [] i' (ReduceVars u None false)
                 (ReduceVars u None false) (ReduceVars u None false)
                 (ReduceVars u None false) Hy); done.
    - rewrite (walk_yields src _ fuel i (x :: rest) i' (ReduceVars u None false)
                 (ReduceVars u None false)
                 (ReduceVars (foldFrom accumulator x u rest).2
                    (foldFrom accumulator x u rest).1 true)
                 (ReduceVars (foldFrom accumulator x u rest).2
                    (foldFrom accumulator x u rest).1 true) Hy); try done.
      cbn [acceptAll].
      change (Accept (reduceOptStage accumulator) x (ReduceVars u None false))
        with (Some (ReduceVars u x true)).
      cbn [mbind option_bind]. apply reduce_acceptAll. }
  split; [exact Heq|]. intros v ->. exact Heq.
Qed.

(** The witness of C5: over [[5]] the result is present(5), and a combiner
    that counts its calls has counted none. *)
Lemma reduce_fold_witness :
  yields sliceIterator_iterator (it [Some 5]) [Some 5] (SliceIterator (Base 1 1) [Some 5]) /\
  (length [Some 5] <= 1)%nat /\
  Reduce 1 (newHead sliceIterator_iterator) (fun a b (calls : nat) => (a, S calls))
    (it [Some 5]) 0%nat =
  Some (SliceIterator (Base 1 1) [Some 5], (0%nat, present 5)).
Proof.
  assert (Hy : yields sliceIterator_iterator (it [Some 5]) [Some 5]
                 (SliceIterator (Base 1 1) [Some 5]))
    by (eapply yields_cons; [reflexivity|reflexivity|]; apply yields_nil; reflexivity).
  split; [exact Hy|]. split; [simpl; lia|].
  apply (proj2 (reduce_fold sliceIterator_iterator (fun a b (calls : nat) => (a, S calls)) 1
                  (it [Some 5]) [Some 5] _ 0%nat Hy (le_n 1)) 5 eq_refl).
Defined.

(** Against C5 as it was stated: a source that delivers one element, nil,
    and [Reduce] returns the absent optional. *)
Lemma reduce_present_counterexample :
  ~ (forall (accumulator : option Z -> option Z -> unit -> option Z * unit)
            (xs : list (option Z)),
       xs <> [] ->
       exists i' u v,
         Reduce (length xs) (newHead sliceIterator_iterator) accumulator (it xs) tt =
         Some (i', (u, present v))).
Proof.
  intros H. destruct (H (fun a _ u => (a, u)) [None]) as (i' & u & v & Hr); [done|].
  vm_compute in Hr. discriminate Hr.
Qed.

(** ** C9: a second terminal operation on an exhausted source *)

Lemma forLoop_exhausted {T I S} (source : iterator T I) (stage : baseStage T S) fuel i st :
  HasNext source i = false -> forLoop fuel source stage i st = Some (i, st).
Proof. intros H. destruct fuel; simpl; by rewrite H. Qed.

Lemma walk_exhausted {T I S} (source : iterator T I) (stage : baseStage T S) fuel i st :
  HasNext source i = false ->
  walk fuel source stage i st =
  (st1 ← Begin stage (GetSizeIfKnown source i) st; st2 ← End stage st1; Some (i, st2)).
Proof.
  intros H. unfold walk. destruct (Begin stage _ st) as [st1|]; [|done].
  cbn [mbind option_bind]. by rewrite forLoop_exhausted.
Qed.

Lemma quiet_wrapStage {T I} (s : stream T I) :
  passiveStream s ->
  forall D (ts : baseStage T D) (P Q : D -> Prop),
    quiet ts P Q ->
    exists P' Q' : wrapState s D -> Prop,
      quiet (wrapStage s ts) P' Q' /\
      (forall d, P d -> P' (wrapInit s d)) /\
      (forall st, Q' st -> Q (terminalVars s st)).
Proof.
  induction s as [src|p IH O w]; intros Hs D ts P Q Hq.
  - exists P, Q. done.
  - destruct Hs as [(OI & H0 & Hw) Hp].
    destruct (IH Hp _ (wrap_fn w ts) _ _ (Hw D ts P Q Hq)) as (P' & Q' & Hq' & HP & HQ).
    exists P', Q'. split; [exact Hq'|]. split.
    + intros d Hd. apply HP. done.
    + intros st Hst. apply HQ in Hst. apply Hst.
Qed.

(** Over an exhausted source a terminal stage that stays quiet is begun and
    ended, and nothing else, whatever passive pipeline is in front of it. *)
Lemma terminal_exhausted {T I D} (s : stream T I) (ts : baseStage T D) (P Q : D -> Prop)
  fuel i d :
  passiveStream s -> quiet ts P Q -> P d ->
  HasNext (source s) i = false ->
  exists d', terminal fuel s ts i d = Some (i, d') /\ Q d'.
Proof.
  intros Hs Hq Hd Hn. unfold terminal. rewrite walk_exhausted by done.
  destruct (quiet_wrapStage s Hs D ts P Q Hq) as (P' & Q' & [Hb He] & HP & HQ).
  destruct (Hb (GetSizeIfKnown (source s) i) (wrapInit s d)) as (st1 & -> & H1);
    [left; by apply HP|].
  destruct (He st1 H1) as (st2 & H2 & HQ2). cbn [mbind option_bind].
  rewrite H2. cbn [mbind option_bind]. eauto.
Qed.

(** ** A sorting routine as documented *)

Lemma StronglySorted_lookup {A} (R : A -> A -> Prop) (l : list A) i j x y :
  StronglySorted R l -> (i < j)%nat -> l !! i = Some x -> l !! j = Some y -> R x y.
Proof.
  intros Hs. revert i j. induction Hs as [|a l Hs IH Hall]; intros i j Hij Hi Hj; [done|].
  destruct j as [|j]; [lia|]. destruct i as [|i]; simpl in *.
  - injection Hi as <-. rewrite Forall_lookup in Hall. by eapply Hall.
  - apply (IH i j); [lia|done|done].
Qed.

Lemma index_lookup {A} (l : list A) (i : Z) :
  0 <= i -> index l i = l !! Z.to_nat i.
Proof. intros H. unfold index. destruct (Z.leb_spec 0 i); [done|lia]. Qed.

(** The merge sort meets what is asked of [sort.Sort]. *)
Lemma mergeSort_sorts : sorts mergeSort.
Proof.
  intros T a. split; [reflexivity|]. split; [apply merge_sort_Permutation|].
  intros (Hirr & Htr & Hntr) i j Hij Hj.
  pose (R := fun x y : T => 0 <= Cmp a y x).
  assert (Htotal : Total R).
  { intros x y. unfold R.
    destruct (Z_lt_le_dec (Cmp a y x) 0) as [H1|H1]; [|by left].
    destruct (Z_lt_le_dec (Cmp a x y) 0) as [H2|H2]; [|by right].
    exfalso. apply (Hirr x). by apply (Htr x y x). }
  assert (Htrans : Transitive R).
  { intros x y z Hxy Hyz. unfold R in *.
    destruct (Z_lt_le_dec (Cmp a z x) 0) as [H|H]; [|done].
    exfalso. apply (Hntr z y x); [lia|lia|done]. }
  pose proof (StronglySorted_merge_sort R (H := fun x y => decide (0 <= Cmp a y x)) (List a))
    as Hsorted.
  unfold Less, Len in *. cbn [List Cmp mergeSort] in *.
  change (fun x y : T => 0 <= Cmp a y x) with R in Hj |- *.
  match type of Hsorted with StronglySorted _ ?l => set (sorted := l) in * end.
  rewrite !index_lookup by lia.
  destruct (lookup_lt_is_Some_2 sorted (Z.to_nat j)) as [x Hx]; [lia|].
  destruct (lookup_lt_is_Some_2 sorted (Z.to_nat i)) as [y Hy]; [lia|].
  rewrite Hx, Hy. cbn [mbind option_bind]. f_equal. apply Z.ltb_ge.
  apply (StronglySorted_lookup R _ (Z.to_nat i) (Z.to_nat j) y x Hsorted); [lia|done|done].
Qed.

(** The closures of the eight operations are passive. *)
Section Passive.
Context {T : Type}.

Lemma quiet_below {O D} (OI : O -> Prop) (Q : D -> Prop) (o : O) (r : option D) :
  OI o -> (exists d', r = Some d' /\ Q d') ->
  exists x' : O * D, below o r = Some x' /\ OI x'.1 /\ Q x'.2.
Proof. intros Ho (d' & -> & Hd). by exists (o, d'). Qed.

Lemma begins {D} (down : baseStage T D) (P Q : D -> Prop) {O} (OI : O -> Prop) size o d :
  quiet down P Q ->
  OI o /\ P d \/ OI o /\ Q d ->
  exists d', Begin down size d = Some d' /\ Q d'.
Proof. intros [Hb _] H. apply Hb. tauto. Qed.

Lemma filter_passive test : passive (filterWrap (T:=T) test).
Proof.
  exists (fun _ => True). split; [done|]. intros D down P Q Hq. split.
  - intros size [o d] H. rewrite filter_Begin.
    apply (quiet_below (fun _ => True)); [done|].
    exact (begins down P Q (fun _ => True) _ o d Hq H).
  - intros [o d] [_ H]. rewrite filter_End.
    apply (quiet_below (fun _ => True)); [done|]. by apply Hq.
Qed.

Lemma map_passive apply : passive (mapWrap (T:=T) apply).
Proof.
  exists (fun _ => True). split; [done|]. intros D down P Q Hq. split.
  - intros size [o d] H. rewrite map_Begin.
    apply (quiet_below (fun _ => True)); [done|].
    exact (begins down P Q (fun _ => True) _ o d Hq H).
  - intros [o d] [_ H]. rewrite map_End.
    apply (quiet_below (fun _ => True)); [done|]. by apply Hq.
Qed.

Lemma flatMap_passive fuel flatten : passive (flatMapWrap (T:=T) fuel flatten).
Proof.
  exists (fun _ => True). split; [done|]. intros D down P Q Hq. split.
  - intros size [o d] H.
    change (Begin _ size (o, d)) with (below o (Begin down unkonwnSize d)).
    apply (quiet_below (fun _ => True)); [done|].
    exact (begins down P Q (fun _ => True) _ o d Hq H).
  - intros [o d] [_ H].
    change (End _ (o, d)) with (below o (End down d)).
    apply (quiet_below (fun _ => True)); [done|]. by apply Hq.
Qed.

Lemma peek_passive {U} (consumer : T -> U -> option U) u : passive (peekWrap consumer u).
Proof.
  exists (fun _ => True). split; [done|]. intros D down P Q Hq. split.
  - intros size [o d] H.
    change (Begin _ size (o, d)) with (below o (Begin down size d)).
    apply (quiet_below (fun _ => True)); [done|].
    exact (begins down P Q (fun _ => True) _ o d Hq H).
  - intros [o d] [_ H].
    change (End _ (o, d)) with (below o (End down d)).
    apply (quiet_below (fun _ => True)); [done|]. by apply Hq.
Qed.

Lemma distinct_passive distincter : passive (distinctWrap (T:=T) distincter).
Proof.
  exists (fun _ => True). split; [done|]. intros D down P Q Hq. split.
  - intros size [o d] H. rewrite distinct_Begin.
    apply (quiet_below (fun _ => True)); [done|].
    exact (begins down P Q (fun _ => True) _ o d Hq H).
  - intros [o d] [_ H]. rewrite distinct_End.
    apply (quiet_below (fun _ => True)); [done|]. by apply Hq.
Qed.

Lemma limit_passive maxSize : passive (limitWrap (T:=T) maxSize).
Proof.
  exists (fun _ => True). split; [done|]. intros D down P Q Hq. split.
  - intros size [o d] H. rewrite limit_Begin.
    apply (quiet_below (fun _ => True)); [done|].
    exact (begins down P Q (fun _ => True) _ o d Hq H).
  - intros [o d] [_ H]. rewrite limit_End.
    apply (quiet_below (fun _ => True)); [done|]. by apply Hq.
Qed.

Lemma skip_passive n : passive (skipWrap (T:=T) n).
Proof.
  exists (fun _ => True). split; [done|]. intros D down P Q Hq. split.
  - intros size [o d] H.
    change (Begin _ size (o, d))
      with (below o (Begin down
              (if size >? 0 then
                 let size := int64 (size - n) in if size <? 0 then 0 else size
               else size) d)).
    apply (quiet_below (fun _ => True)); [done|].
    exact (begins down P Q (fun _ => True) _ o d Hq H).
  - intros [o d] [_ H].
    change (End _ (o, d)) with (below o (End down d)).
    apply (quiet_below (fun _ => True)); [done|]. by apply Hq.
Qed.

Lemma sorted_passive sort_Sort comparator :
  sorts sort_Sort -> passive (sortedWrap (T:=T) sort_Sort comparator).
Proof.
  intros Hsort. exists (fun buf => buf = []). split; [done|].
  intros D down P Q Hq. split.
  - intros size [o d] H.
    change (Begin _ size (o, d))
      with (below (if size >? 0 then @nil T else @nil T) (Begin down size d)).
    apply (quiet_below (fun buf : list T => buf = [])); [by destruct (size >? 0)|].
    exact (begins down P Q (fun buf : list T => buf = []) _ o d Hq H).
  - intros [o d] [Ho H]. simpl in Ho, H. subst o.
    change (End _ ([], d))
      with (let a := sort_Sort T (MkSortable [] comparator) in
            d1 ← Begin down (Len a) d;
            '(_, d2) ← forLoop (length (List a)) sliceIterator_iterator down (it (List a)) d1;
            below (@nil T) (End down d2)).
    destruct (Hsort T (MkSortable [] comparator)) as (_ & Hperm & _).
    apply Permutation_nil_r in Hperm. cbn zeta. rewrite Hperm.
    destruct Hq as [Hb He].
    destruct (Hb (Len (MkSortable [] comparator)) d) as (d1 & Hd1 & HQ1); [by right|].
    unfold Len at 1. rewrite Hperm. unfold Len in Hd1. cbn [List length] in *.
    rewrite Hd1. cbn [mbind option_bind].
    rewrite forLoop_exhausted by reflexivity.
    apply (quiet_below (fun buf : list T => buf = [])); [done|]. by apply He.
Qed.

End Passive.

Lemma declareAll_passive sort_Sort {T I} (ops : list (operation T)) (s : stream T I) :
  sorts sort_Sort -> passiveStream s -> passiveStream (declareAll sort_Sort ops s).
Proof.
  intros Hsort. revert s. induction ops as [|op ops IH]; intros s Hs; [done|].
  cbn [declareAll fold_left]. apply IH.
  destruct op; (split; [|done]).
  - apply filter_passive.
  - apply map_passive.
  - apply flatMap_passive.
  - apply peek_passive.
  - apply distinct_passive.
  - by apply sorted_passive.
  - apply limit_passive.
  - apply skip_passive.
Qed.

Lemma declareAll_source sort_Sort {T I} (ops : list (operation T)) (s : stream T I) :
  source (declareAll sort_Sort ops s) = source s.
Proof.
  revert s. induction ops as [|op ops IH]; intros s; [reflexivity|].
  cbn [declareAll fold_left]. fold (declareAll sort_Sort ops (declare sort_Sort op s)).
  rewrite IH. by destruct op.
Qed.

Lemma quiet_plain {T D} (action : T -> D -> option D) (d : D) :
  quiet (newTerminalStage action []) (eq d) (eq d).
Proof.
  split.
  - intros size d' [<-|<-]; by exists d.
  - intros d' <-. by exists d.
Qed.

Lemma quiet_toSlice {T} :
  quiet (reduceByStage (T:=T) toSliceInit toSliceAcc) (eq None) (eq (Some [])).
Proof.
  split.
  - intros size d _. exists (Some []). split; [|done].
    change (Begin _ size d) with (Some (toSliceInit (T:=T) size)).
    unfold toSliceInit. by destruct (size >=? 0).
  - intros d <-. by exists (Some []).
Qed.



(** ** C3: Sorted *)

Lemma strictWeak_IntComparator : strictWeak IntComparator.
Proof.
  unfold strictWeak, IntComparator. repeat split.
  - intros x. rewrite Z.gtb_ltb, Z.ltb_irrefl. lia.
  - intros x y z. rewrite !Z.gtb_ltb.
    destruct (Z.ltb_spec y x), (Z.ltb_spec x y), (Z.ltb_spec z y), (Z.ltb_spec y z),
      (Z.ltb_spec z x), (Z.ltb_spec x z); lia.
  - intros x y z. rewrite !Z.gtb_ltb.
    destruct (Z.ltb_spec y x), (Z.ltb_spec x y), (Z.ltb_spec z y), (Z.ltb_spec y z),
      (Z.ltb_spec z x), (Z.ltb_spec x z); lia.
Qed.

Section SortedStage.
Variable sort_Sort : forall T : Type, Sortable T -> Sortable T.
Context {T D : Type}.
Variable comparator : T -> T -> Z.
Variable down : baseStage T D.

Lemma sorted_Begin size buf d :
  Begin (wrap_fn (sortedWrap sort_Sort comparator) down) size (buf, d) =
  below [] (Begin down size d).
Proof.
  change (Begin _ size (buf, d))
    with (below (if size >? 0 then @nil T else @nil T) (Begin down size d)).
  by destruct (size >? 0).
Qed.

Lemma sorted_Accept t buf d :
  Accept (wrap_fn (sortedWrap sort_Sort comparator) down) t (buf, d) = Some (buf ++ [t], d).
Proof. reflexivity. Qed.

Lemma sorted_CanFinish buf d :
  CanFinish (wrap_fn (sortedWrap sort_Sort comparator) down) (buf, d) = CanFinish down d.
Proof. reflexivity. Qed.

Lemma sorted_End buf d :
  End (wrap_fn (sortedWrap sort_Sort comparator) down) (buf, d) =
  (let a := sort_Sort T (MkSortable buf comparator) in
   d1 ← Begin down (Len a) d;
   '(_, d2) ← forLoop (length (List a)) sliceIterator_iterator down (it (List a)) d1;
   below [] (End down d2)).
Proof. reflexivity. Qed.

Lemma sorted_acceptAll ts buf d :
  acceptAll (wrap_fn (sortedWrap sort_Sort comparator) down) ts (buf, d) = Some (buf ++ ts, d).
Proof.
  revert buf. induction ts as [|t ts IH]; intros buf; cbn [acceptAll].
  - by rewrite app_nil_r.
  - rewrite sorted_Accept. cbn [mbind option_bind]. rewrite IH, <- app_assoc. done.
Qed.

End SortedStage.

(** A loop over a slice iterator takes the elements in order and stops short
    only where the stage asks to finish. *)
Lemma pulls_slice {T S} (stage : baseStage T S) (rest done_ : list T) st fwd i' st' :
  pulls sliceIterator_iterator stage
    (SliceIterator (Base (Z.of_nat (length done_)) (Z.of_nat (length (done_ ++ rest))))
       (done_ ++ rest)) st fwd i' st' ->
  exists rest', rest = fwd ++ rest' /\ (rest' = [] \/ CanFinish stage st' = true).
Proof.
  revert done_ st fwd. induction rest as [|t rest IH]; intros done_ st fwd Hp.
  - inversion Hp as [? ? Hn|? ? Hn Hc|? ? ? ? ? ? ? ? Hn]; subst.
    + exists []. by split; [|left].
    + exfalso. revert Hn. simpl. unfold base_HasNext. simpl.
      rewrite app_nil_r, Z.ltb_irrefl. done.
    + exfalso. revert Hn. simpl. unfold base_HasNext. simpl.
      rewrite app_nil_r, Z.ltb_irrefl. done.
  - inversion Hp as [? ? Hn|? ? Hn Hc|? ? t' i1 st1 ts ? ? Hn Hc Hx Ha Hp']; subst.
    + exfalso. revert Hn. simpl. unfold base_HasNext. simpl.
      rewrite length_app. simpl. intros Hn. apply Z.ltb_ge in Hn. lia.
    + exists (t :: rest). split; [done|by right].
    + revert Hx. simpl. unfold sliceIterator_Next. simpl.
      rewrite index_lookup by lia. rewrite Nat2Z.id, list_lookup_middle by done.
      simpl. intros [= <- <-].
      replace (done_ ++ t :: rest) with ((done_ ++ [t]) ++ rest) in Hp'
        by (by rewrite <- app_assoc).
      replace (Z.of_nat (length done_) + 1) with (Z.of_nat (length (done_ ++ [t]))) in Hp'
        by (rewrite length_app; simpl; lia).
      destruct (IH _ _ _ Hp') as (rest' & -> & Hr). exists rest'. done.
Qed.

Lemma sorted_312 (l : list Z) :
  l ≡ₚ [3; 1; 2] -> ascending (MkSortable l IntComparator) -> l = [1; 2; 3].
Proof.
  intros Hperm Hasc.
  assert (Hlen : length l = 3%nat) by (by rewrite Hperm).
  destruct l as [|a [|b [|c [|? ?]]]]; try discriminate Hlen.
  assert (Ha : a ∈ [3; 1; 2]) by (rewrite <- Hperm, !elem_of_cons; auto).
  assert (Hb : b ∈ [3; 1; 2]) by (rewrite <- Hperm, !elem_of_cons; auto).
  assert (Hc : c ∈ [3; 1; 2]) by (rewrite <- Hperm, !elem_of_cons; auto).
  assert (H1 : 1 ∈ [a; b; c]) by (rewrite Hperm, !elem_of_cons; auto).
  assert (H2 : 2 ∈ [a; b; c]) by (rewrite Hperm, !elem_of_cons; auto).
  assert (H3 : 3 ∈ [a; b; c]) by (rewrite Hperm, !elem_of_cons; auto).
  pose proof (Hasc 0 1 ltac:(lia) ltac:(unfold Len; simpl; lia)) as H01.
  pose proof (Hasc 1 2 ltac:(lia) ltac:(unfold Len; simpl; lia)) as H12.
  unfold Less, index in H01, H12. simpl in H01, H12.
  injection H01 as H01. injection H12 as H12.
  apply Z.ltb_ge in H01, H12. unfold IntComparator in H01, H12.
  rewrite !Z.gtb_ltb in *.
  rewrite !elem_of_cons, !elem_of_nil in *.
  destruct (Z.ltb_spec a b), (Z.ltb_spec b a), (Z.ltb_spec b c), (Z.ltb_spec c b);
    try lia; repeat f_equal; lia.
Qed.

Section SortedEnd.
Variable sort_Sort : forall T : Type, Sortable T -> Sortable T.
Hypothesis sort_ok : sorts sort_Sort.
Context {T D : Type}.
Variable comparator : T -> T -> Z.
Variable down : baseStage T D.

Lemma sorted_End_replay buf d r :
  End (wrap_fn (sortedWrap sort_Sort comparator) down) (buf, d) = Some r <->
  exists d1 fwd rest i' d2 d3,
    Begin down (Z.of_nat (length buf)) d = Some d1 /\
    List (sort_Sort T (MkSortable buf comparator)) = fwd ++ rest /\
    pulls sliceIterator_iterator down (it (fwd ++ rest)) d1 fwd i' d2 /\
    (rest = [] \/ CanFinish down d2 = true) /\
    End down d2 = Some d3 /\
    r = ([], d3).
Proof.
  rewrite (sorted_End sort_Sort comparator down). cbn zeta.
  destruct (sort_ok T (MkSortable buf comparator)) as (_ & Hperm & _). cbn [List] in Hperm.
  unfold Len. rewrite (Permutation_length Hperm).
  set (sorted := List (sort_Sort T (MkSortable buf comparator))) in *.
  split.
  - destruct (Begin down (Z.of_nat (length buf)) d) as [d1|];
      cbn [mbind option_bind]; [|by intros [=]].
    destruct (forLoop (length buf) sliceIterator_iterator down (it sorted) d1)
      as [[i' d2]|] eqn:Hl;
      cbn [mbind option_bind]; [|by intros [=]].
    destruct (End down d2) as [d3|] eqn:He; cbn [below fmap option_fmap option_map];
      [|by intros [=]].
    intros [= <-].
    apply forLoop_pulls in Hl as (fwd & Hp & _).
    destruct (pulls_slice down sorted [] d1 fwd i' d2 Hp) as (rest & Hs & Hr).
    exists d1, fwd, rest, i', d2, d3. rewrite <- Hs. done.
  - intros (d1 & fwd & rest & i' & d2 & d3 & -> & Hs & Hp & _ & He & ->).
    cbn [mbind option_bind]. rewrite <- Hs in Hp.
    rewrite (pulls_forLoop sliceIterator_iterator down (length buf) _ _ _ _ _ Hp).
    + cbn [mbind option_bind]. by rewrite He.
    + rewrite <- (Permutation_length Hperm), Hs, length_app. lia.
Qed.

End SortedEnd.

(** C3.  For a [sort.Sort] that does what the standard library documents,
    every comparator and whatever stage is below: [Accept] only appends to
    the buffer and leaves the stage below as it is; [End] returns exactly
    when the stage below can be begun with the buffered count, then fed, in
    order and each with its [CanFinish] false just before, a prefix [fwd] of
    the sorted buffer that is all of it unless [CanFinish] has become true,
    and then ended; the sorted buffer is a permutation of the buffer, in
    ascending order when the comparator is a strict weak ordering.  So over a
    source that delivers [xs], [Sorted] then [ToSlice] returns the sorted
    [xs], and over [[3,1,2]] with the ascending int comparator, [[1,2,3]]. *)
Theorem sorted_stage (sort_Sort : forall T : Type, Sortable T -> Sortable T) :
  sorts sort_Sort ->
  (forall T D (comparator : T -> T -> Z) (down : baseStage T D),
     (forall t buf d,
        Accept (wrap_fn (sortedWrap sort_Sort comparator) down) t (buf, d) =
        Some (buf ++ [t], d)) /\
     (forall buf d r,
        End (wrap_fn (sortedWrap sort_Sort comparator) down) (buf, d) = Some r <->
        exists d1 fwd rest i' d2 d3,
          Begin down (Z.of_nat (length buf)) d = Some d1 /\
          List (sort_Sort T (MkSortable buf comparator)) = fwd ++ rest /\
          pulls sliceIterator_iterator down (it (fwd ++ rest)) d1 fwd i' d2 /\
          (rest = [] \/ CanFinish down d2 = true) /\
          End down d2 = Some d3 /\
          r = ([], d3)) /\
     (forall buf,
        List (sort_Sort T (MkSortable buf comparator)) ≡ₚ buf /\
        (strictWeak comparator -> ascending (sort_Sort T (MkSortable buf comparator))))) /\
  (forall T I (src : iterator T I) (comparator : T -> T -> Z) fuel i xs i',
     yields src i xs i' ->
     (length xs <= fuel)%nat ->
     ToSlice fuel (Sorted sort_Sort comparator (newHead src)) i =
     Some (i', List (sort_Sort T (MkSortable xs comparator)))) /\
  (exists i',
     ToSlice 3 (Sorted sort_Sort IntComparator (newHead sliceIterator_iterator)) (it [3; 1; 2]) =
     Some (i', [1; 2; 3])).
Proof.
  intros Hsort.
  assert (Hpipe : forall T I (src : iterator T I) (comparator : T -> T -> Z) fuel i xs i',
     yields src i xs i' ->
     (length xs <= fuel)%nat ->
     ToSlice fuel (Sorted sort_Sort comparator (newHead src)) i =
     Some (i', List (sort_Sort T (MkSortable xs comparator)))).
  { intros T I src comparator fuel i xs i' Hy Hl.
    unfold ToSlice, ReduceBy, terminal.
    cbn [source Sorted wrapStage wrapState wrapInit].
    set (sorted := List (sort_Sort T (MkSortable xs comparator))).
    rewrite (walk_yields src _ fuel i xs i' ([], None) ([], Some []) (xs, Some [])
               ([], Some sorted) Hy); try done.
    - by intros [buf r].
    - rewrite sorted_Begin.
      change (Begin _ ?n None) with (Some (toSliceInit (T:=T) n)).
      unfold toSliceInit. by destruct (_ >=? 0).
    - apply (sorted_acceptAll sort_Sort comparator _ xs []).
    - apply (sorted_End_replay sort_Sort Hsort).
      exists (Some []), sorted, [],
        (SliceIterator (Base (Z.of_nat (length sorted)) (Z.of_nat (length sorted))) sorted),
        (Some sorted), (Some sorted).
      rewrite app_nil_r. repeat split; try done.
      + change (Begin _ ?n (Some [])) with (Some (toSliceInit (T:=T) n)).
        unfold toSliceInit. by destruct (_ >=? 0).
      + apply pulls_yields; [apply yields_it|done|apply (toSlice_acceptAll sorted [])].
      + by left. }
  split; [|split; [exact Hpipe|]].
  - intros T D comparator down. split; [reflexivity|]. split.
    + intros buf d r. by apply sorted_End_replay.
    + intros buf. destruct (Hsort T (MkSortable buf comparator)) as (_ & Hperm & Hasc).
      split; [exact Hperm|exact Hasc].
  - eexists.
    rewrite (Hpipe Z _ sliceIterator_iterator IntComparator 3%nat _ _ _ (yields_it [3; 1; 2]))
      by (simpl; lia).
    f_equal. f_equal.
    destruct (Hsort Z (MkSortable [3; 1; 2] IntComparator)) as (Hcmp & Hperm & Hasc).
    apply sorted_312; [exact Hperm|].
    specialize (Hasc strictWeak_IntComparator). cbn [Cmp] in Hcmp.
    destruct (sort_Sort Z (MkSortable [3; 1; 2] IntComparator)) as [l c].
    cbn [Cmp List] in *. by subst c.
Qed.

(** The witness of C3: the merge sort stands in for [sort.Sort]. *)
Lemma sorted_stage_witness :
  sorts mergeSort /\
  exists i',
    ToSlice 3 (Sorted mergeSort IntComparator (newHead sliceIterator_iterator)) (it [3; 1; 2]) =
    Some (i', [1; 2; 3]).
Proof.
  split; [exact mergeSort_sorts|].
  exact (proj2 (proj2 (sorted_stage mergeSort mergeSort_sorts))).
Defined.

(** ** C7: declaring operations does not touch the source *)

Lemma pulls_counting {T I S} (src : iterator T I) (stage : baseStage T S) p st ts p' st' :
  pulls (counting src) stage p st ts p' st' -> p'.2 = (p.2 + length ts)%nat.
Proof.
  induction 1 as [[i n] st Hn|[i n] st Hn Hc|[i n] st t [i1 n1] st1 ts p2 st2 Hn Hc Hx Ha Hp IH];
    cbn [length snd] in *; [lia|lia|].
  cbn [Next counting] in Hx. destruct (Next src i) as [[t' i1']|]; [|discriminate].
  injection Hx as -> -> <-. lia.
Qed.

Lemma walk_pulls {T I S} (src : iterator T I) (stage : baseStage T S) fuel i st i' st' :
  walk fuel src stage i st = Some (i', st') ->
  exists st1 pulled st2,
    Begin stage (GetSizeIfKnown src i) st = Some st1 /\
    pulls src stage i st1 pulled i' st2 /\ (length pulled <= fuel)%nat /\
    End stage st2 = Some st'.
Proof.
  unfold walk. destruct (Begin stage (GetSizeIfKnown src i) st) as [st1|]; [|discriminate].
  cbn [mbind option_bind].
  destruct (forLoop fuel src stage i st1) as [[j st2]|] eqn:Hl; [|discriminate].
  cbn [mbind option_bind]. destruct (End stage st2) as [st3|] eqn:He; [|discriminate].
  intros [= -> ->]. apply forLoop_pulls in Hl as (pulled & Hp & Hlen).
  by exists st1, pulled, st2.
Qed.



(** ** C10: the match operations on an empty traversal *)

Lemma option_le_bind {A B A' B'} (R : A -> B -> Prop) (R' : A' -> B' -> Prop)
  (x : option A) (y : option B) (f : A -> option A') (g : B -> option B') :
  option_le R x y ->
  (forall a b, R a b -> option_le R' (f a) (g b)) ->
  option_le R' (x ≫= f) (y ≫= g).
Proof. destruct x as [a|], y as [b|]; simpl; try done. intros H Hf. by apply Hf. Qed.

Lemma option_le_below {O D1 D2} (R : D1 -> D2 -> Prop) (o : O) r1 r2 :
  option_le R r1 r2 -> option_le (above R) (below o r1) (below o r2).
Proof. by destruct r1, r2. Qed.

Section Related.
Context {T I D1 D2 : Type}.
Variable R : D1 -> D2 -> Prop.
Variable source : iterator T I.
Variable a : baseStage T D1.
Variable b : baseStage T D2.
Hypothesis Hab : related R a b.

Lemma related_forLoop fuel i st1 st2 :
  R st1 st2 ->
  option_le (above R) (forLoop fuel source a i st1) (forLoop fuel source b i st2).
Proof.
  destruct Hab as (_ & Ha & Hc & _).
  revert i st1 st2. induction fuel as [|n IH]; intros i st1 st2 Hst; simpl;
    rewrite (Hc _ _ Hst); destruct (HasNext source i && negb (CanFinish b st2)); try done.
  destruct (Next source i) as [[t i1]|]; [|done]. cbn [mbind option_bind].
  apply (option_le_bind R); [by apply Ha|]. intros st1' st2' H'. by apply IH.
Qed.

Lemma related_walk fuel i st1 st2 :
  R st1 st2 ->
  option_le (above R) (walk fuel source a i st1) (walk fuel source b i st2).
Proof.
  intros Hst. unfold walk. destruct Hab as (Hb & _ & _ & He).
  apply (option_le_bind R); [by apply Hb|]. intros st1' st2' H'.
  apply (option_le_bind (above R)); [by apply related_forLoop|].
  intros [i1 x1] [i2 x2] [Hi Hx]. simpl in Hi, Hx. subst i2.
  apply (option_le_bind R); [by apply He|]. intros y1 y2 Hy. done.
Qed.

End Related.

Lemma related_wrapStage {T I} (s : stream T I) :
  naturalStream s ->
  forall D1 D2 (R : D1 -> D2 -> Prop) (ts1 : baseStage T D1) (ts2 : baseStage T D2),
    related R ts1 ts2 ->
    related (wrapRel s R) (wrapStage s ts1) (wrapStage s ts2).
Proof.
  induction s as [src|p IH O w]; intros Hs D1 D2 R ts1 ts2 Hts; [done|].
  destruct Hs as [Hw Hp]. cbn [wrapRel wrapStage]. apply (IH Hp). by apply Hw.
Qed.

Lemma wrapRel_init {T I} (s : stream T I) {D1 D2} (R : D1 -> D2 -> Prop) d1 d2 :
  R d1 d2 -> wrapRel s R (wrapInit s d1) (wrapInit s d2).
Proof.
  revert D1 D2 R d1 d2. induction s as [src|p IH O w]; intros D1 D2 R d1 d2 H; [done|].
  cbn [wrapRel wrapInit]. by apply IH.
Qed.

Lemma wrapRel_terminalVars {T I} (s : stream T I) {D1 D2} (R : D1 -> D2 -> Prop) st1 st2 :
  wrapRel s R st1 st2 -> R (terminalVars s st1) (terminalVars s st2).
Proof.
  revert D1 D2 R st1 st2. induction s as [src|p IH O w]; intros D1 D2 R st1 st2 H; [done|].
  cbn [wrapRel terminalVars] in *. apply IH in H. apply H.
Qed.

(** Through a natural pipeline, what a terminal stage lets happen, every
    stage related to it lets happen as well. *)
Lemma related_terminal {T I D1 D2} (s : stream T I) (R : D1 -> D2 -> Prop)
  (ts1 : baseStage T D1) (ts2 : baseStage T D2) fuel i d1 d2 :
  naturalStream s -> related R ts1 ts2 -> R d1 d2 ->
  option_le (above R) (terminal fuel s ts1 i d1) (terminal fuel s ts2 i d2).
Proof.
  intros Hs Hts Hd. unfold terminal.
  apply (option_le_bind (above (wrapRel s R))).
  - apply related_walk; [by apply related_wrapStage|by apply wrapRel_init].
  - intros [i1 st1] [i2 st2] [Hi Hst]. simpl in *. subst i2.
    split; [done|]. by apply wrapRel_terminalVars.
Qed.

(** The closures of the eight operations are natural. *)
Section Natural.
Context {T : Type}.

Lemma filter_natural test : natural (filterWrap (T:=T) test).
Proof.
  natural_cases.
  - rewrite !filter_Begin. by apply option_le_below, Hb.
  - rewrite !filter_Accept. destruct (test t); [by apply option_le_below, Ha|done].
  - rewrite !filter_CanFinish. by apply Hc.
  - rewrite !filter_End. by apply option_le_below, He.
Qed.

Lemma map_natural apply : natural (mapWrap (T:=T) apply).
Proof.
  natural_cases.
  - rewrite !map_Begin. by apply option_le_below, Hb.
  - rewrite !map_Accept. by apply option_le_below, Ha.
  - rewrite !map_CanFinish. by apply Hc.
  - rewrite !map_End. by apply option_le_below, He.
Qed.

Lemma peek_natural {U} (consumer : T -> U -> option U) u : natural (peekWrap consumer u).
Proof.
  natural_cases.
  - change (option_le (above R) (below o1 (Begin down1 size d1))
              (below o1 (Begin down2 size d2))).
    by apply option_le_below, Hb.
  - change (option_le (above R) (o' ← consumer t o1; below o' (Accept down1 t d1))
              (o' ← consumer t o1; below o' (Accept down2 t d2))).
    destruct (consumer t o1) as [o'|]; [|done]. by apply option_le_below, Ha.
  - by apply Hc.
  - change (option_le (above R) (below o1 (End down1 d1)) (below o1 (End down2 d2))).
    by apply option_le_below, He.
Qed.

Lemma distinct_natural distincter : natural (distinctWrap (T:=T) distincter).
Proof.
  natural_cases.
  - rewrite !distinct_Begin. by apply option_le_below, Hb.
  - rewrite !distinct_Accept.
    destruct (o1 ≫= (fun m : gmap Z bool => m !! distincter t)); [done|].
    destruct o1 as [m|]; [|done]. by apply option_le_below, Ha.
  - rewrite !distinct_CanFinish. by apply Hc.
  - rewrite !distinct_End. by apply option_le_below, He.
Qed.

Lemma limit_natural maxSize : natural (limitWrap (T:=T) maxSize).
Proof.
  natural_cases.
  - rewrite !limit_Begin. by apply option_le_below, Hb.
  - rewrite !limit_Accept. apply (option_le_bind R); [|done].
    destruct (o1 <? maxSize); [by apply Ha|done].
  - by rewrite !limit_CanFinish.
  - rewrite !limit_End. by apply option_le_below, He.
Qed.

Lemma skip_natural n : natural (skipWrap (T:=T) n).
Proof.
  natural_cases.
  - change (option_le (above R)
              (below o1 (Begin down1
                 (if size >? 0 then
                    let size := int64 (size - n) in if size <? 0 then 0 else size
                  else size) d1))
              (below o1 (Begin down2
                 (if size >? 0 then
                    let size := int64 (size - n) in if size <? 0 then 0 else size
                  else size) d2))).
    by apply option_le_below, Hb.
  - change (option_le (above R)
              (d' ← (if o1 >=? n then Accept down1 t d1 else Some d1);
               Some (int64 (o1 + 1), d'))
              (d' ← (if o1 >=? n then Accept down2 t d2 else Some d2);
               Some (int64 (o1 + 1), d'))).
    apply (option_le_bind R); [|done]. destruct (o1 >=? n); [by apply Ha|done].
  - by apply Hc.
  - change (option_le (above R) (below o1 (End down1 d1)) (below o1 (End down2 d2))).
    by apply option_le_below, He.
Qed.

Lemma sorted_natural sort_Sort comparator : natural (sortedWrap (T:=T) sort_Sort comparator).
Proof.
  natural_cases.
  - rewrite !sorted_Begin. by apply option_le_below, Hb.
  - rewrite !sorted_Accept. done.
  - rewrite !sorted_CanFinish. by apply Hc.
  - rewrite !sorted_End. cbn zeta.
    apply (option_le_bind R); [by apply Hb|]. intros x1 x2 Hx.
    apply (option_le_bind (above R)).
    + by apply related_forLoop.
    + intros [i1 y1] [i2 y2] [_ Hy]. by apply option_le_below, He.
Qed.

Lemma flatMap_natural fuel (flatten : T -> Stream T) :
  (forall t, naturalStream (nodes (flatten t))) ->
  natural (flatMapWrap fuel flatten).
Proof.
  intros Hin. natural_cases.
  - change (option_le (above R) (below o1 (Begin down1 unkonwnSize d1))
              (below o1 (Begin down2 unkonwnSize d2))).
    by apply option_le_below, Hb.
  - change (option_le (above R)
              (below o1 (snd <$> ForEach fuel (nodes (flatten t)) (Accept down1)
                                    (source_fields (flatten t)) d1))
              (below o1 (snd <$> ForEach fuel (nodes (flatten t)) (Accept down2)
                                    (source_fields (flatten t)) d2))).
    apply option_le_below. unfold ForEach.
    pose proof (related_terminal (nodes (flatten t)) R
                  (newTerminalStage (Accept down1) []) (newTerminalStage (Accept down2) [])
                  fuel (source_fields (flatten t)) d1 d2 (Hin t)) as H.
    assert (Hrel : related R (newTerminalStage (Accept down1) [])
                     (newTerminalStage (Accept down2) [])).
    { repeat split; try done; intros t' x1 x2 Hx; by apply Ha. }
    specialize (H Hrel Hd).
    destruct (terminal fuel (nodes (flatten t)) (newTerminalStage (Accept down1) []) _ d1)
      as [[j1 e1]|]; [|done].
    destruct (terminal fuel (nodes (flatten t)) (newTerminalStage (Accept down2) []) _ d2)
      as [[j2 e2]|]; simpl in *; [apply H|done].
  - by apply Hc.
  - change (option_le (above R) (below o1 (End down1 d1)) (below o1 (End down2 d2))).
    by apply option_le_below, He.
Qed.

End Natural.

(** A chain of declared operations is natural, given that the streams a
    [FlatMap] flattens into are. *)
Lemma declareAll_natural sort_Sort {T I} (ops : list (operation T)) (s : stream T I) :
  Forall (fun op => match op with
                    | opFlatMap _ flatten => forall t, naturalStream (nodes (flatten t))
                    | _ => True
                    end) ops ->
  naturalStream s -> naturalStream (declareAll sort_Sort ops s).
Proof.
  intros Hops. revert s. induction Hops as [|op ops Hop Hops IH]; intros s Hs; [done|].
  cbn [declareAll fold_left]. apply IH.
  destruct op; (split; [|done]).
  - apply filter_natural.
  - apply map_natural.
  - by apply flatMap_natural.
  - apply peek_natural.
  - apply distinct_natural.
  - apply sorted_natural.
  - apply limit_natural.
  - apply skip_natural.
Qed.

(** A walk that goes through although the terminal stage's [Accept] would
    panic is a walk that never calls it: the terminal stage proper then does
    the same, and its variables are what they were. *)
Lemma terminal_silent {T I D} (s : stream T I) (ts : baseStage T D) fuel i d r :
  naturalStream s ->
  (forall size d, Begin ts size d = Some d) ->
  (forall d, End ts d = Some d) ->
  terminal fuel s (silent ts) i d = Some r ->
  terminal fuel s ts i d = Some (r.1, d).
Proof.
  intros Hs Hb He Hr.
  assert (H1 : related eq (silent ts) ts).
  { repeat split.
    - intros size d1 d2 <-. change (Begin (silent ts) size d1) with (Begin ts size d1).
      by rewrite Hb.
    - by intros d1 d2 <-.
    - intros d1 d2 <-. change (End (silent ts) d1) with (End ts d1). by rewrite He. }
  assert (H2 : related (fun d1 d2 : D => d1 = d /\ d2 = d) (silent ts) (silent ts)).
  { repeat split.
    - intros size d1 d2 [-> ->]. change (Begin (silent ts) size d) with (Begin ts size d).
      by rewrite Hb.
    - by intros d1 d2 [-> ->].
    - intros d1 d2 [-> ->]. change (End (silent ts) d) with (End ts d). by rewrite He. }
  pose proof (related_terminal s _ _ _ fuel i d d Hs H1 eq_refl) as K1.
  pose proof (related_terminal s _ _ _ fuel i d d Hs H2 (conj eq_refl eq_refl)) as K2.
  rewrite Hr in K1, K2. destruct r as [i' d'].
  destruct K2 as [_ [Hd' _]]. cbn [fst snd] in *. subst d'.
  destruct (terminal fuel s ts i d) as [[i2 d2]|]; [|done].
  destruct K1 as [Hi Hd]. cbn [fst snd] in *. by subst.
Qed.

Lemma declared_natural sort_Sort {T I} (s : stream T I) :
  declared sort_Sort s -> naturalStream s.
Proof.
  induction 1 as [I src|I s fuel flatten Hs IHs Hin IHin|I s op Hs IHs Hop]; [done| |].
  - split; [by apply flatMap_natural|done].
  - destruct op; (split; [|done]).
    + apply filter_natural.
    + apply map_natural.
    + by destruct (Hop fuel flatten).
    + apply peek_natural.
    + apply distinct_natural.
    + apply sorted_natural.
    + apply limit_natural.
    + apply skip_natural.
Qed.

(** C10.  For every pipeline of declared operations whose walk delivers no
    element to the terminal stage (the walk goes through with a terminal
    [Accept] that would panic if it were called): [AllMatch] and [NoneMatch]
    return true, [AnyMatch] returns false, and the caller's variables are as
    before, the predicate not having run. *)
Theorem match_on_empty_traversal sort_Sort {T I U} (s : stream T I)
  (test : T -> U -> bool * U) (fuel : nat) (i : I) (u : U) :
  declared sort_Sort s ->
  (forall r, terminal fuel s (silent (allMatchStage test)) i (u, true) = Some r ->
             AllMatch fuel s test i u = Some (r.1, (u, true))) /\
  (forall r, terminal fuel s (silent (noneMatchStage test)) i (u, true) = Some r ->
             NoneMatch fuel s test i u = Some (r.1, (u, true))) /\
  (forall r, terminal fuel s (silent (anyMatchStage test)) i (u, false) = Some r ->
             AnyMatch fuel s test i u = Some (r.1, (u, false))).
Proof.
  intros Hs%declared_natural. repeat split; intros r Hr.
  - by apply (terminal_silent s (allMatchStage test) fuel i (u, true) r Hs).
  - by apply (terminal_silent s (noneMatchStage test) fuel i (u, true) r Hs).
  - by apply (terminal_silent s (anyMatchStage test) fuel i (u, false) r Hs).
Qed.

(** The witness of C10: nothing of [[1,3,5]] passes [Filter(isEven)], and a
    predicate that counts its calls has counted none. *)
Lemma match_on_empty_traversal_witness :
  let s := Filter Z.even (newHead sliceIterator_iterator) in
  let test := fun (t : Z) (calls : nat) => (t >? 10, S calls) in
  let spent := SliceIterator (Base 3 3) [1; 3; 5] in
  declared mergeSort s /\
  terminal 3 s (silent (allMatchStage test)) (it [1; 3; 5]) (0%nat, true) =
    Some (spent, (0%nat, true)) /\
  AllMatch 3 s test (it [1; 3; 5]) 0%nat = Some (spent, (0%nat, true)).
Proof.
  intros s test spent.
  assert (Hs : declared mergeSort s).
  { apply (declared_op mergeSort (newHead sliceIterator_iterator) (opFilter Z.even)).
    - apply declared_head.
    - discriminate. }
  assert (Hr : terminal 3 s (silent (allMatchStage test)) (it [1; 3; 5]) (0%nat, true) =
               Some (spent, (0%nat, true))) by reflexivity.
  split; [exact Hs|]. split; [exact Hr|].
  exact (proj1 (match_on_empty_traversal mergeSort s test 3 (it [1; 3; 5]) 0%nat Hs) _ Hr).
Defined.

(** * What a pipeline computes *)


Lemma sized_snoc {T} (ys zs : list T) (y z : T) :
  (length zs <= length ys)%nat -> sized (ys ++ [y]) -> sized (zs ++ [z]).
Proof. unfold sized. rewrite !length_app. simpl. lia. Qed.


Section Serving.
Context {T I D X : Type}.
Variable src : iterator T I.
Variable stage : baseStage T D.
Variable P : D -> Prop.
Variable A : list T -> D -> Prop.
Variable out : D -> X.
Variable G : list T -> X.
Hypothesis Hs : serves stage P A out G.

(** The loop over a source that holds [rest], on a stage that has been fed
    [ys]: whether it stops early or not, [End] leaves [G (ys ++ rest)]. *)
Lemma serves_pulls i rest i' :
  yields src i rest i' ->
  forall ys st, sized (ys ++ rest) -> A ys st ->
  exists ts j st' d',
    pulls src stage i st ts j st' /\ (length ts <= length rest)%nat /\
    End stage st' = Some d' /\ out d' = G (ys ++ rest).
Proof.
  destruct Hs as [Hb Ha Hc He].
  induction 1 as [i Hn|i t i1 ts i2 Hn Hx Hy IH]; intros ys st Hsz HA.
  - destruct (He ys st HA) as (d' & Hd & Ho).
    exists [], i, st, d'. rewrite app_nil_r.
    repeat split; [by apply pulls_exhausted|done|done|done].
  - destruct (CanFinish stage st) eqn:Hf.
    + destruct (He ys st HA) as (d' & Hd & Ho).
      exists [], i, st, d'. rewrite (Hc ys (t :: ts) st HA Hf).
      repeat split; [by apply pulls_finished|simpl; lia|done|done].
    + assert (Hsz1 : sized (ys ++ [t])).
      { revert Hsz. unfold sized. rewrite !length_app. simpl. lia. }
      destruct (Ha ys t st Hsz1 HA) as (st1 & Hacc & HA1).
      destruct (IH (ys ++ [t]) st1) as (ps & j & st' & d' & Hp & Hl & Hd & Ho);
        [by rewrite <- app_assoc|done|].
      exists (t :: ps), j, st', d'. rewrite <- app_assoc in Ho.
      repeat split; [by eapply pulls_step|simpl; lia|done|done].
Qed.

Lemma serves_walk fuel i xs i' st :
  P st -> yields src i xs i' -> sized xs -> (length xs <= fuel)%nat ->
  exists j st', walk fuel src stage i st = Some (j, st') /\ out st' = G xs.
Proof.
  intros HP Hy Hsz Hl.
  destruct (serves_Begin _ _ _ _ _ Hs (GetSizeIfKnown src i) st) as (st1 & Hb & HA);
    [by left|].
  destruct (serves_pulls i xs i' Hy [] st1 Hsz HA) as (ts & j & st2 & st3 & Hp & Hlt & He & Ho).
  exists j, st3. unfold walk. rewrite Hb. cbn [mbind option_bind].
  rewrite (pulls_forLoop src stage fuel i st1 ts j st2 Hp) by lia.
  cbn [mbind option_bind]. rewrite He. done.
Qed.

End Serving.

(** A chain that carries [F], under a terminal stage that serves [G]. *)
Lemma carries_terminal {T I D X} (s : stream T I) (F : list T -> list T)
  (ts : baseStage T D) P A (out : D -> X) G fuel i xs i' d :
  carries s F -> serves ts P A out G -> P d ->
  yields (source s) i xs i' -> sized xs -> (length xs <= fuel)%nat ->
  exists j d', terminal fuel s ts i d = Some (j, d') /\ out d' = G (F xs).
Proof.
  intros Hc Hs HP Hy Hsz Hl.
  destruct (Hc D X ts P A out G Hs) as (P' & A' & Hs' & Hinit).
  destruct (serves_walk (source s) (wrapStage s ts) P' A' _ _ Hs' fuel i xs i' (wrapInit s d))
    as (j & st' & Hw & Ho); [by apply Hinit|done|done|done|].
  exists j, (terminalVars s st'). unfold terminal. rewrite Hw. done.
Qed.

Lemma carries_head {T I} (src : iterator T I) : carries (newHead src) (fun xs => xs).
Proof. intros D X ts P A out G Hs. exists P, A. split; [exact Hs|done]. Qed.

Lemma carries_node {T I O} (s : stream T I) (w : wrapper T O) F f :
  carries s F -> computes w f -> carries (newNode s w) (fun xs => f (F xs)).
Proof.
  intros Hc Hw D X ts P A out G Hs.
  destruct (Hw D X ts P A out G Hs) as (A1 & Hs1).
  destruct (Hc _ _ _ _ _ _ _ Hs1) as (P' & A' & Hs' & Hinit).
  exists P', A'. split; [exact Hs'|].
  intros d HP. apply Hinit. done.
Qed.

Section SkipStage.
Context {T D : Type}.
Variable n : Z.
Variable down : baseStage T D.

Lemma skip_Begin size count d :
  Begin (wrap_fn (skipWrap n) down) size (count, d) =
  below count (Begin down (if size >? 0
                           then (if int64 (size - n) <? 0 then 0 else int64 (size - n))
                           else size) d).
Proof. reflexivity. Qed.

Lemma skip_Accept t count d :
  Accept (wrap_fn (skipWrap n) down) t (count, d) =
  (d' ← (if count >=? n then Accept down t d else Some d);
   Some (int64 (count + 1), d')).
Proof. reflexivity. Qed.

Lemma skip_CanFinish count d :
  CanFinish (wrap_fn (skipWrap n) down) (count, d) = CanFinish down d.
Proof. reflexivity. Qed.

Lemma skip_End count d :
  End (wrap_fn (skipWrap n) down) (count, d) = below count (End down d).
Proof. reflexivity. Qed.

End SkipStage.

Lemma firstSeen_app {T} (h : T -> Z) (earlier xs zs : list T) :
  firstSeen h earlier (xs ++ zs) = firstSeen h earlier xs ++ firstSeen h (earlier ++ xs) zs.
Proof.
  revert earlier. induction xs as [|x xs IH]; intros earlier; simpl.
  - by rewrite app_nil_r.
  - rewrite IH, <- !app_assoc. done.
Qed.

Lemma length_firstSeen {T} (h : T -> Z) (earlier xs : list T) :
  (length (firstSeen h earlier xs) <= length xs)%nat.
Proof.
  revert earlier. induction xs as [|x xs IH]; intros earlier; simpl; [done|].
  rewrite length_app. specialize (IH (earlier ++ [x])).
  destruct (decide _); simpl; lia.
Qed.

Section Computes.
Context {T : Type}.

Lemma filter_computes (test : T -> bool) : computes (filterWrap test) (List.filter test).
Proof.
  intros D X down P A out G [Hb Ha Hc He].
  exists (fun ys x => A (List.filter test ys) x.2). split.
  - intros size [o d] H. rewrite filter_Begin.
    destruct (Hb unkonwnSize d) as (d' & -> & Hd'); [cbn in H; tauto|].
    by exists (o, d').
  - intros ys y [o d] Hsz HA. cbn [snd] in *. rewrite filter_Accept, List.filter_app.
    simpl. destruct (test y).
    + destruct (Ha (List.filter test ys) y d) as (d' & -> & Hd'); [|done|by exists (o, d')].
      eapply sized_snoc; [apply List.filter_length_le|exact Hsz].
    + exists (o, d). by rewrite app_nil_r.
  - intros ys zs [o d] HA Hf. cbn [snd] in *. rewrite filter_CanFinish in Hf.
    rewrite List.filter_app. by apply (Hc _ _ d).
  - intros ys [o d] HA. cbn [snd] in *. rewrite filter_End.
    destruct (He _ d HA) as (d' & -> & Ho). by exists (o, d').
Qed.

Lemma map_computes (apply : T -> T) : computes (mapWrap apply) (map apply).
Proof.
  intros D X down P A out G [Hb Ha Hc He].
  exists (fun ys x => A (map apply ys) x.2). split.
  - intros size [o d] H. rewrite map_Begin.
    destruct (Hb size d) as (d' & -> & Hd'); [cbn in H; tauto|].
    by exists (o, d').
  - intros ys y [o d] Hsz HA. cbn [snd] in *. rewrite map_Accept, List.map_app.
    simpl.
    destruct (Ha (map apply ys) (apply y) d) as (d' & -> & Hd'); [|done|by exists (o, d')].
    eapply sized_snoc; [|exact Hsz]. by rewrite List.length_map.
  - intros ys zs [o d] HA Hf. cbn [snd] in *. rewrite map_CanFinish in Hf.
    rewrite List.map_app. by apply (Hc _ _ d).
  - intros ys [o d] HA. cbn [snd] in *. rewrite map_End.
    destruct (He _ d HA) as (d' & -> & Ho). by exists (o, d').
Qed.

Lemma distinct_computes (h : T -> Z) : computes (distinctWrap h) (firstSeen h []).
Proof.
  intros D X down P A out G [Hb Ha Hc He].
  exists (fun ys x => (exists m, x.1 = Some m /\ holds h m ys) /\ A (firstSeen h [] ys) x.2).
  split.
  - intros size [o d] H. rewrite distinct_Begin.
    destruct (Hb unkonwnSize d) as (d' & -> & Hd'); [cbn in H; tauto|].
    exists (Some ∅, d'). split; [done|]. split; [|done].
    exists ∅. split; [done|apply holds_empty].
  - intros ys y [o d] Hsz [(m & Ho & Hm) HA]. cbn [fst snd] in *. subst o.
    rewrite distinct_Accept, firstSeen_app. cbn [mbind option_bind firstSeen app].
    rewrite app_nil_r.
    destruct (m !! h y) as [b|] eqn:E.
    + exists (Some m, d). split; [done|]. cbn [fst snd].
      split; [exists m; split; [done|by apply holds_seen]|].
      rewrite decide_True, app_nil_r; [done|]. apply Hm. by exists b.
    + destruct (Ha (firstSeen h [] ys) y d) as (d' & -> & Hd'); [|done|].
      { eapply sized_snoc; [apply length_firstSeen|exact Hsz]. }
      exists (Some (<[h y := true]> m), d'). split; [done|]. cbn [fst snd].
      split; [eexists; split; [done|by apply holds_insert]|].
      rewrite decide_False; [done|]. intros Hin. apply Hm in Hin. rewrite E in Hin.
      by destruct Hin.
  - intros ys zs [o d] [_ HA] Hf. cbn [snd] in *. rewrite distinct_CanFinish in Hf.
    rewrite firstSeen_app. by apply (Hc _ _ d).
  - intros ys [o d] [_ HA]. cbn [snd] in *. rewrite distinct_End.
    destruct (He _ d HA) as (d' & -> & Ho). by exists (None, d').
Qed.

Lemma limit_computes (k : Z) : computes (limitWrap (T:=T) k) (take (Z.to_nat k)).
Proof.
  intros D X down P A out G [Hb Ha Hc He].
  exists (fun ys x => x.1 = Z.of_nat (length ys) /\ A (take (Z.to_nat k) ys) x.2).
  split.
  - intros size [c d] H. rewrite limit_Begin.
    assert (Hc0 : c = 0 /\ (P d \/ A [] d)).
    { cbn in H. rewrite take_nil in H. destruct H as [[-> ?]|[-> ?]]; auto. }
    destruct Hc0 as [-> Hd].
    destruct (Hb (if (size >? 0) && (size >? k) then k else size) d) as (d' & -> & Hd');
      [done|].
    exists (0, d'). split; [done|]. cbn. by rewrite take_nil.
  - intros ys y [c d] Hsz [Hcnt HA]. cbn [fst snd] in *. subst c.
    rewrite limit_Accept.
    assert (Hnext : int64 (Z.of_nat (length ys) + 1) = Z.of_nat (length (ys ++ [y]))).
    { revert Hsz. unfold sized. rewrite length_app. simpl. intros Hsz.
      rewrite int64_small; unfold min_int; lia. }
    destruct (Z.ltb_spec (Z.of_nat (length ys)) k) as [Hlt|Hge].
    + destruct (Ha (take (Z.to_nat k) ys) y d) as (d' & -> & Hd'); [|done|].
      { eapply sized_snoc; [|exact Hsz]. rewrite length_take. lia. }
      exists (int64 (Z.of_nat (length ys) + 1), d'). split; [done|]. cbn [fst snd].
      split; [done|].
      rewrite take_ge in Hd' by lia. rewrite take_ge; [done|].
      rewrite length_app. simpl. lia.
    + exists (int64 (Z.of_nat (length ys) + 1), d). split; [done|]. cbn [fst snd].
      split; [done|]. rewrite take_app_le by lia. done.
  - intros ys zs [c d] [Hcnt HA] Hf. cbn [fst snd] in *. subst c.
    rewrite limit_CanFinish in Hf. rewrite Z.geb_leb in Hf. apply Z.leb_le in Hf.
    rewrite take_app_le by lia. done.
  - intros ys [c d] [Hcnt HA]. cbn [snd] in *. rewrite limit_End.
    destruct (He _ d HA) as (d' & -> & Ho). by exists (c, d').
Qed.

Lemma skip_computes (n : Z) : computes (skipWrap (T:=T) n) (drop (Z.to_nat n)).
Proof.
  intros D X down P A out G [Hb Ha Hc He].
  exists (fun ys x => x.1 = Z.of_nat (length ys) /\ A (drop (Z.to_nat n) ys) x.2).
  split.
  - intros size [c d] H. rewrite skip_Begin.
    assert (Hc0 : c = 0 /\ (P d \/ A [] d)).
    { cbn in H. rewrite drop_nil in H. destruct H as [[-> ?]|[-> ?]]; auto. }
    destruct Hc0 as [-> Hd].
    match goal with |- context [Begin down ?sz d] =>
      destruct (Hb sz d) as (d' & -> & Hd'); [done|] end.
    exists (0, d'). split; [done|]. cbn. by rewrite drop_nil.
  - intros ys y [c d] Hsz [Hcnt HA]. cbn [fst snd] in *. subst c.
    rewrite skip_Accept.
    assert (Hnext : int64 (Z.of_nat (length ys) + 1) = Z.of_nat (length (ys ++ [y]))).
    { revert Hsz. unfold sized. rewrite length_app. simpl. intros Hsz.
      rewrite int64_small; unfold min_int; lia. }
    rewrite Z.geb_leb. destruct (Z.leb_spec n (Z.of_nat (length ys))) as [Hle|Hgt].
    + destruct (Ha (drop (Z.to_nat n) ys) y d) as (d' & -> & Hd'); [|done|].
      { eapply sized_snoc; [|exact Hsz]. rewrite length_drop. lia. }
      exists (int64 (Z.of_nat (length ys) + 1), d'). split; [done|]. cbn [fst snd].
      split; [done|]. rewrite drop_app_le by lia. done.
    + exists (int64 (Z.of_nat (length ys) + 1), d). split; [done|]. cbn [fst snd].
      split; [done|]. rewrite drop_ge in HA by lia. rewrite drop_ge; [done|].
      rewrite length_app. simpl. lia.
  - intros ys zs [c d] [Hcnt HA] Hf. cbn [fst snd] in *.
    rewrite skip_CanFinish in Hf. rewrite drop_app.
    by apply (Hc _ _ d).
  - intros ys [c d] [Hcnt HA]. cbn [snd] in *. rewrite skip_End.
    destruct (He _ d HA) as (d' & -> & Ho). by exists (c, d').
Qed.

Lemma sorted_computes sort_Sort (cmp : T -> T -> Z) :
  sorts sort_Sort ->
  computes (sortedWrap sort_Sort cmp) (fun ys => List (sort_Sort T (MkSortable ys cmp))).
Proof.
  intros Hsort D X down P A out G Hs. pose proof Hs as [Hb Ha Hc He].
  exists (fun ys x => sized ys /\ x.1 = ys /\ A [] x.2).
  assert (Hconst : forall d zs, A [] d -> CanFinish down d = true -> G zs = G []).
  { intros d zs HA Hf. apply (Hc [] zs d HA Hf). }
  split.
  - intros size [buf d] H. rewrite sorted_Begin.
    destruct (Hb size d) as (d' & -> & Hd'); [cbn in H; tauto|].
    exists ([], d'). split; [done|]. cbn. unfold sized. simpl. unfold max_int. split; [lia|done].
  - intros ys y [buf d] Hsz (_ & Hbuf & HA). cbn [fst snd] in *. subst buf.
    rewrite sorted_Accept. exists (ys ++ [y], d). done.
  - intros ys zs [buf d] (_ & Hbuf & HA) Hf. cbn [fst snd] in *.
    rewrite sorted_CanFinish in Hf.
    rewrite (Hconst d _ HA Hf). symmetry. apply (Hconst d _ HA Hf).
  - intros ys [buf d] (Hsz & Hbuf & HA). cbn [fst snd] in *. subst buf.
    rewrite sorted_End. cbn zeta.
    set (a := sort_Sort T (MkSortable ys cmp)).
    destruct (Hsort T (MkSortable ys cmp)) as (_ & Hperm & _). fold a in Hperm.
    cbn [List] in Hperm.
    destruct (Hb (Len a) d) as (d1 & -> & Hd1); [by right|]. cbn [mbind option_bind].
    destruct (serves_pulls sliceIterator_iterator down P A out G Hs
                (it (List a)) (List a) _ (yields_it (List a)) [] d1)
      as (ts & j & d2 & d3 & Hp & Hl & Hend & Ho); [|done|].
    { unfold sized. simpl. rewrite (Permutation_length Hperm). exact Hsz. }
    rewrite (pulls_forLoop _ _ _ _ _ _ _ _ Hp Hl). cbn [mbind option_bind].
    rewrite Hend. exists ([], d3). done.
Qed.

End Computes.

Lemma declare_carries sort_Sort {T I} (op : operation T) f (s : stream T I) F :
  sorts sort_Sort -> listOf sort_Sort op = Some f -> carries s F ->
  carries (declare sort_Sort op s) (fun xs => f (F xs)).
Proof.
  intros Hsort Hop Hc.
  destruct op; simpl in Hop; try discriminate; injection Hop as <-.
  - apply (carries_node s _ F _ Hc), filter_computes.
  - apply (carries_node s _ F _ Hc), map_computes.
  - apply (carries_node s _ F _ Hc), distinct_computes.
  - by apply (carries_node s (sortedWrap sort_Sort comparator) F
                (fun ys => List (sort_Sort T (MkSortable ys comparator))) Hc), sorted_computes.
  - apply (carries_node s _ F _ Hc), limit_computes.
  - apply (carries_node s _ F _ Hc), skip_computes.
Qed.

Lemma declareAll_carries sort_Sort {T I} (ops : list (operation T)) :
  sorts sort_Sort ->
  forall (s : stream T I) F0 F,
    listsOf sort_Sort ops = Some F -> carries s F0 ->
    carries (declareAll sort_Sort ops s) (fun xs => F (F0 xs)).
Proof.
  intros Hsort. induction ops as [|op ops IH]; intros s F0 F Hops Hc.
  - injection Hops as <-. exact Hc.
  - cbn [listsOf] in Hops.
    destruct (listOf sort_Sort op) as [f|] eqn:Hop; [|discriminate].
    destruct (listsOf sort_Sort ops) as [F'|] eqn:Hops'; [|discriminate].
    injection Hops as <-.
    apply (IH (declare sort_Sort op s) (fun xs => f (F0 xs)) F' eq_refl).
    by apply declare_carries.
Qed.

(** The chain of [ops] on a head, under a terminal stage that serves [G]. *)
Lemma chain_terminal sort_Sort {T I D X} (src : iterator T I) (ops : list (operation T)) F
  (ts : baseStage T D) P A (out : D -> X) G fuel i xs i' d :
  sorts sort_Sort -> listsOf sort_Sort ops = Some F ->
  serves ts P A out G -> P d ->
  yields src i xs i' -> sized xs -> (length xs <= fuel)%nat ->
  exists j d', terminal fuel (declareAll sort_Sort ops (newHead src)) ts i d = Some (j, d') /\
               out d' = G (F xs).
Proof.
  intros Hsort Hops Hs HP Hy Hsz Hl.
  apply (carries_terminal _ (fun xs => F ((fun xs => xs) xs)) ts P A out G fuel i xs i' d);
    try done.
  - apply declareAll_carries; [done|done|apply carries_head].
  - by rewrite declareAll_source.
Qed.

(** What the terminal stages serve. *)
Lemma toSlice_serves {T} :
  serves (reduceByStage (T:=T) toSliceInit toSliceAcc) (fun _ => True)
    (fun ys d => d = Some ys) (fun d => d) (fun ys => Some ys).
Proof.
  split.
  - intros size d _. exists (Some []). split; [|done].
    change (Begin _ size d) with (Some (toSliceInit (T:=T) size)).
    unfold toSliceInit. by destruct (_ >=? 0).
  - intros ys y d _ ->. by exists (Some (ys ++ [y])).
  - intros ys zs d _ Hf. discriminate Hf.
  - intros ys d ->. by exists (Some ys).
Qed.

Lemma plain_serves {T D} (g : D -> T -> D) (d0 : D) :
  serves (newTerminalStage (fun t d => Some (g d t)) []) (eq d0)
    (fun ys d => d = fold_left g ys d0) (fun d => d) (fun ys => fold_left g ys d0).
Proof.
  split.
  - intros size d [<-| ->]; by exists d0.
  - intros ys y d _ ->. exists (g (fold_left g ys d0) y). by rewrite fold_left_app.
  - intros ys zs d _ Hf. discriminate Hf.
  - intros ys d ->. by eexists.
Qed.

Lemma count_serves {T} :
  serves (reduceStage (T:=T) (fun count t => Some (int64 (count + 1)))) (eq 0)
    (fun ys d => d = Z.of_nat (length ys)) (fun d => d) (fun ys => Z.of_nat (length ys)).
Proof.
  split.
  - intros size d [<-| ->]; by exists 0.
  - intros ys y d Hsz ->. exists (Z.of_nat (length (ys ++ [y]))). split; [|done].
    change (Accept _ y ?c) with (Some (int64 (c + 1))). f_equal.
    revert Hsz. unfold sized. rewrite length_app. simpl. intros Hsz.
    rewrite int64_small; unfold min_int; lia.
  - intros ys zs d _ Hf. discriminate Hf.
  - intros ys d ->. by eexists.
Qed.

Lemma findFirst_serves {V} :
  serves (findFirstStage (V:=V)) (eq (None, false))
    (fun ys d => d = match ys with [] => (None, false) | y :: _ => (y, true) end)
    (fun d => OfNullable d.1)
    (fun ys => match ys with [] => emtpy | y :: _ => OfNullable y end).
Proof.
  split.
  - intros size d [<-| ->]; by exists (None, false).
  - intros ys y d _ ->. destruct ys as [|y0 ys]; simpl; by eexists.
  - intros ys zs d -> Hf. by destruct ys.
  - intros ys d ->. eexists. split; [reflexivity|]. by destruct ys.
Qed.

Section MatchStages.
Context {T U : Type}.
Variable p : T -> bool.
Variable g : T -> U -> U.

Lemma allMatch_serves :
  serves (allMatchStage (fun t u => (p t, g t u))) (fun d => d.2 = true)
    (fun ys d => d.2 = forallb p ys) (fun d => d.2) (forallb p).
Proof.
  split.
  - intros size [u r] H. exists (u, r). split; [done|]. by destruct H.
  - intros ys y [u r] _ Hr. cbn [snd] in Hr. subst r.
    exists (g y u, if negb (p y) then false else forallb p ys). split; [done|].
    cbn [snd]. rewrite forallb_app. simpl. destruct (p y), (forallb p ys); done.
  - intros ys zs [u r] Hr Hf. cbn [snd] in Hr. subst r.
    change (negb (forallb p ys) = true) in Hf.
    rewrite forallb_app. by destruct (forallb p ys).
  - intros ys [u r] Hr. by exists (u, r).
Qed.

Lemma noneMatch_serves :
  serves (noneMatchStage (fun t u => (p t, g t u))) (fun d => d.2 = true)
    (fun ys d => d.2 = negb (existsb p ys)) (fun d => d.2) (fun ys => negb (existsb p ys)).
Proof.
  split.
  - intros size [u r] H. exists (u, r). split; [done|]. by destruct H.
  - intros ys y [u r] _ Hr. cbn [snd] in Hr. subst r.
    exists (g y u, if p y then false else negb (existsb p ys)). split; [done|].
    cbn [snd]. rewrite existsb_app. simpl. destruct (p y), (existsb p ys); done.
  - intros ys zs [u r] Hr Hf. cbn [snd] in Hr. subst r.
    change (negb (negb (existsb p ys)) = true) in Hf.
    rewrite existsb_app. by destruct (existsb p ys).
  - intros ys [u r] Hr. by exists (u, r).
Qed.

Lemma anyMatch_serves :
  serves (anyMatchStage (fun t u => (p t, g t u))) (fun d => d.2 = false)
    (fun ys d => d.2 = existsb p ys) (fun d => d.2) (existsb p).
Proof.
  split.
  - intros size [u r] H. exists (u, r). split; [done|]. by destruct H.
  - intros ys y [u r] _ Hr. cbn [snd] in Hr. subst r.
    exists (g y u, if p y then true else existsb p ys). split; [done|].
    cbn [snd]. rewrite existsb_app. simpl. destruct (p y), (existsb p ys); done.
  - intros ys zs [u r] Hr Hf. cbn [snd] in Hr. subst r.
    change (existsb p ys = true) in Hf.
    rewrite existsb_app. by rewrite Hf.
  - intros ys [u r] Hr. by exists (u, r).
Qed.

End MatchStages.













Lemma ascending_pairwise {T} (cmp : T -> T -> Z) (l : list T) :
  ascending (MkSortable l cmp) -> StronglySorted (fun x y => ~ cmp y x < 0) l.
Proof.
  induction l as [|x l IH]; intros Hasc; [constructor|]. constructor.
  - apply IH. intros i j Hij Hj. unfold Len in Hj. cbn [List length] in Hj.
    specialize (Hasc (i + 1) (j + 1)). unfold Less, Len in Hasc |- *.
    cbn [List Cmp length] in Hasc |- *.
    rewrite !index_lookup in Hasc by lia. rewrite !index_lookup by lia.
    replace (Z.to_nat (i + 1)) with (S (Z.to_nat i)) in Hasc by lia.
    replace (Z.to_nat (j + 1)) with (S (Z.to_nat j)) in Hasc by lia.
    cbn [lookup list_lookup] in Hasc. apply Hasc; lia.
  - apply Forall_forall. intros y Hy. apply list_elem_of_lookup in Hy as [k Hk].
    pose proof (lookup_lt_Some _ _ _ Hk) as Hlen.
    specialize (Hasc 0 (Z.of_nat k + 1)). unfold Less, Len in Hasc.
    cbn [List Cmp length] in Hasc. rewrite !index_lookup in Hasc by lia.
    replace (Z.to_nat (Z.of_nat k + 1)) with (S k) in Hasc by lia.
    assert (H0 : 0 <= 0 < Z.of_nat k + 1) by lia.
    assert (H1 : Z.of_nat k + 1 < Z.of_nat (S (length l))) by lia.
    specialize (Hasc H0 H1).
    change ((x :: l) !! S k) with (l !! k) in Hasc. rewrite Hk in Hasc.
    injection Hasc as Hf. apply Z.ltb_ge in Hf. lia.
Qed.

Lemma StronglySorted_weaken {A} (R R' : A -> A -> Prop) (l : list A) :
  (forall x y, R x y -> R' x y) -> StronglySorted R l -> StronglySorted R' l.
Proof.
  intros HR. induction 1 as [|x l Hs IH Hf]; constructor; [done|].
  eapply Forall_impl; [exact Hf|]. intros y. apply HR.
Qed.

Lemma strictWeak_ReverseOrder {T} (cmp : T -> T -> Z) :
  strictWeak cmp -> strictWeak (ReverseOrder cmp).
Proof.
  unfold strictWeak, ReverseOrder. intros (Hi & Ht & Hn). repeat split.
  - intros x. apply Hi.
  - intros x y z Hxy Hyz. by apply (Ht z y x).
  - intros x y z Hxy Hyz. by apply (Hn z y x).
Qed.

(** X7.  [Sorted] with the package's comparators, for a [sort.Sort] that
    does what the standard library documents: over a source that delivers
    the finite list [xs] of integers, [Sorted(IntComparator)] then [ToSlice]
    returns a permutation of [xs] in ascending order, and
    [Sorted(ReverseOrder(IntComparator))] one in descending order. *)
Theorem Sorted_IntComparator sort_Sort {I} (src : iterator Z I)
  (fuel : nat) (i : I) (xs : list Z) (i' : I) :
  sorts sort_Sort ->
  yields src i xs i' -> sized xs -> (length xs <= fuel)%nat ->
  (exists j out,
     ToSlice fuel (Sorted sort_Sort IntComparator (newHead src)) i = Some (j, out) /\
     out ≡ₚ xs /\ StronglySorted Z.le out) /\
  (exists j out,
     ToSlice fuel (Sorted sort_Sort (ReverseOrder IntComparator) (newHead src)) i =
       Some (j, out) /\
     out ≡ₚ xs /\ StronglySorted Z.ge out).
Proof.
  intros Hsort Hy Hsz Hl. split.
  - destruct (chain_terminal sort_Sort src [opSorted IntComparator] _ _ _ _ _ _ fuel i xs i' None
                Hsort eq_refl toSlice_serves Logic.I Hy Hsz Hl) as (j & d' & Ht & Ho).
    cbn beta in Ho. subst d'.
    destruct (Hsort Z (MkSortable xs IntComparator)) as (Hcmp & Hperm & Hasc).
    exists j, (List (sort_Sort Z (MkSortable xs IntComparator))).
    split; [|split; [exact Hperm|]].
    + unfold ToSlice, ReduceBy.
      change (Sorted sort_Sort IntComparator (newHead src))
        with (declareAll sort_Sort [opSorted IntComparator] (newHead src)).
      by rewrite Ht.
    + specialize (Hasc strictWeak_IntComparator).
      destruct (sort_Sort Z (MkSortable xs IntComparator)) as [l c]. cbn [Cmp List] in *.
      subst c. apply ascending_pairwise in Hasc.
      eapply StronglySorted_weaken; [|exact Hasc].
      intros x y. unfold IntComparator.
      destruct (Z.gtb_spec y x), (Z.ltb_spec y x); lia.
  - destruct (chain_terminal sort_Sort src [opSorted (ReverseOrder IntComparator)]
                _ _ _ _ _ _ fuel i xs i' None
                Hsort eq_refl toSlice_serves Logic.I Hy Hsz Hl) as (j & d' & Ht & Ho).
    cbn beta in Ho. subst d'.
    destruct (Hsort Z (MkSortable xs (ReverseOrder IntComparator))) as (Hcmp & Hperm & Hasc).
    exists j, (List (sort_Sort Z (MkSortable xs (ReverseOrder IntComparator)))).
    split; [|split; [exact Hperm|]].
    + unfold ToSlice, ReduceBy.
      change (Sorted sort_Sort (ReverseOrder IntComparator) (newHead src))
        with (declareAll sort_Sort [opSorted (ReverseOrder IntComparator)] (newHead src)).
      by rewrite Ht.
    + specialize (Hasc (strictWeak_ReverseOrder _ strictWeak_IntComparator)).
      destruct (sort_Sort Z (MkSortable xs (ReverseOrder IntComparator))) as [l c].
      cbn [Cmp List] in *. subst c. apply ascending_pairwise in Hasc.
      eapply StronglySorted_weaken; [|exact Hasc].
      intros x y. unfold ReverseOrder, IntComparator.
      destruct (Z.gtb_spec x y), (Z.ltb_spec x y); lia.
Qed.

Lemma Sorted_IntComparator_witness :
  let xs := [3; 1; 2] in
  sorts mergeSort /\
  yields sliceIterator_iterator (it xs) xs (SliceIterator (Base 3 3) xs) /\
  sized xs /\ (length xs <= 3)%nat /\
  (exists j out,
     ToSlice 3 (Sorted mergeSort IntComparator (newHead sliceIterator_iterator)) (it xs) =
       Some (j, out) /\
     out ≡ₚ xs /\ StronglySorted Z.le out) /\
  (exists j out,
     ToSlice 3 (Sorted mergeSort (ReverseOrder IntComparator) (newHead sliceIterator_iterator))
       (it xs) = Some (j, out) /\
     out ≡ₚ xs /\ StronglySorted Z.ge out).
Proof.
  intros xs.
  assert (Hsz : sized xs) by (unfold sized, max_int; simpl; lia).
  assert (Hl : (length xs <= 3)%nat) by (simpl; lia).
  split; [exact mergeSort_sorts|]. split; [exact (yields_it xs)|].
  split; [exact Hsz|]. split; [exact Hl|].
  exact (Sorted_IntComparator mergeSort sliceIterator_iterator 3 (it xs) xs _
           mergeSort_sorts (yields_it xs) Hsz Hl).
Defined.

Lemma foldFrom_snoc {V U} (accumulator : option V -> option V -> U -> option V * U)
  (xs : list (option V)) x r u :
  foldFrom accumulator r u (xs ++ [x]) =
  accumulator (foldFrom accumulator r u xs).1 x (foldFrom accumulator r u xs).2.
Proof.
  revert r u. induction xs as [|y xs IH]; intros r u; cbn [app foldFrom fst snd].
  - by destruct (accumulator r x u).
  - destruct (accumulator r y u) as [r1 u1]. apply IH.
Qed.

Lemma reduceOpt_serves {V U} (accumulator : option V -> option V -> U -> option V * U) (u : U) :
  serves (reduceOptStage accumulator) (eq (ReduceVars u None false))
    (fun ys v => v = match ys with
                     | [] => ReduceVars u None false
                     | y :: ys' => ReduceVars (foldFrom accumulator y u ys').2
                                     (foldFrom accumulator y u ys').1 true
                     end)
    (fun v => (callerVars v, OfNullable (result v)))
    (fun ys => match ys with
               | [] => (u, emtpy)
               | y :: ys' => ((foldFrom accumulator y u ys').2,
                              OfNullable (foldFrom accumulator y u ys').1)
               end).
Proof.
  split.
  - intros size d [<-| ->]; by eexists.
  - intros ys y d _ ->. destruct ys as [|y0 ys]; [by eexists|].
    eexists. split; [|reflexivity]. cbn [app]. rewrite foldFrom_snoc.
    change (Accept (reduceOptStage accumulator) y ?v) with
      (if negb (hasElement v) then Some (ReduceVars (callerVars v) y true)
       else let '(r, u) := accumulator (result v) y (callerVars v) in
            Some (ReduceVars u r (hasElement v))).
    cbn [hasElement negb result callerVars].
    by destruct (accumulator _ y _).
  - intros ys zs d _ Hf. discriminate Hf.
  - intros ys d ->. eexists. split; [reflexivity|]. by destruct ys.
Qed.



(** * Stopping short *)

Lemma delivers_pulls {T I S} (src : iterator T I) (stage : baseStage T S) i ts j :
  delivers src i ts j ->
  forall st st', drive stage ts st = Some st' -> CanFinish stage st' = true ->
  pulls src stage i st ts j st'.
Proof.
  induction 1 as [i|i t i1 ts i2 Hn Hx Hd IH]; intros st st' Hdr Hf.
  - injection Hdr as <-. destruct (HasNext src i) eqn:Hn.
    + by apply pulls_finished.
    + by apply pulls_exhausted.
  - cbn [drive] in Hdr. destruct (CanFinish stage st) eqn:Hc; [discriminate|].
    destruct (Accept stage t st) as [st1|] eqn:Ha; [|discriminate].
    eapply pulls_step; eauto.
Qed.

Lemma yields_counting {T I} (src : iterator T I) i xs i' :
  yields src i xs i' ->
  forall n, yields (counting src) (i, n) xs (i', (n + length xs)%nat).
Proof.
  induction 1 as [i Hn|i t i1 ts i2 Hn Hx Hy IH]; intros n.
  - rewrite Nat.add_0_r. by apply yields_nil.
  - eapply yields_cons; [exact Hn| |].
    + cbn [Next counting]. rewrite Hx. reflexivity.
    + specialize (IH (S n)). cbn [length].
      by replace (n + S (length ts))%nat with (S n + length ts)%nat by lia.
Qed.


(** What a loop pulls is the front of what the source holds. *)
Lemma pulls_prefix {T I S} (src : iterator T I) (stage : baseStage T S) i xs i' :
  yields src i xs i' ->
  forall st ts j st', pulls src stage i st ts j st' ->
  exists rest, xs = ts ++ rest /\ (rest = [] -> j = i').
Proof.
  induction 1 as [i Hn|i t i1 xs i2 Hn Hx Hy IH]; intros st ts j st' Hp.
  - inversion Hp; subst; try congruence. by exists [].
  - inversion Hp as [? ? Hn'|? ? Hn' Hc|? ? t' j1 st1 ts' ? ? Hn' Hc Hx' Ha Hp']; subst.
    + congruence.
    + exists (t :: xs). done.
    + rewrite Hx in Hx'. injection Hx' as <- <-.
      destruct (IH _ _ _ _ Hp') as (rest & -> & Hr). by exists rest.
Qed.

(** X9.  One pass, in order: whatever the pipeline and the terminal stage,
    a terminal operation that returns has taken from a source that holds
    the finite list [xs] a front part of [xs], with one call of [Next] per
    element taken and none besides, so never more calls than [xs] has
    elements; and when it has taken all of [xs] the source is exhausted. *)
Theorem terminal_single_pass {T I D} (src : iterator T I) (s : stream T (I * nat))
  (ts : baseStage T D) (fuel : nat) (i : I) (n : nat) (d : D) (xs : list T) (i' : I)
  (j : I) (m : nat) (d' : D) :
  source s = counting src ->
  yields src i xs i' ->
  terminal fuel s ts (i, n) d = Some ((j, m), d') ->
  exists pulled rest,
    xs = pulled ++ rest /\ m = (n + length pulled)%nat /\ (m <= n + length xs)%nat /\
    (rest = [] -> j = i').
Proof.
  intros Hsrc Hy Ht. unfold terminal in Ht.
  destruct (walk fuel (source s) (wrapStage s ts) (i, n) (wrapInit s d)) as [[p st]|] eqn:Hw;
    [|discriminate].
  injection Ht as -> <-.
  apply walk_pulls in Hw as (st1 & pulled & st2 & _ & Hp & _ & _).
  rewrite Hsrc in Hp.
  destruct (pulls_prefix (counting src) _ (i, n) xs _ (yields_counting src i xs i' Hy n)
              _ _ _ _ Hp) as (rest & -> & Hr).
  apply pulls_counting in Hp. cbn [snd] in Hp.
  exists pulled, rest. rewrite length_app. repeat split; [done|lia|].
  intros ->. specialize (Hr eq_refl). by injection Hr.
Qed.

Lemma terminal_single_pass_witness :
  let s := Limit 2 (Filter Z.even (newHead (counting sliceIterator_iterator))) in
  let xs := [1; 2; 4; 6; 8] in
  source s = counting sliceIterator_iterator /\
  yields sliceIterator_iterator (it xs) xs (SliceIterator (Base 5 5) xs) /\
  terminal 5 s (reduceByStage toSliceInit toSliceAcc) (it xs, 0%nat) None =
    Some ((SliceIterator (Base 3 5) xs, 3%nat), Some [2; 4]) /\
  exists pulled rest,
    xs = pulled ++ rest /\ 3%nat = (0 + length pulled)%nat /\
    (3 <= 0 + length xs)%nat /\
    (rest = [] -> SliceIterator (Base 3 5) xs = SliceIterator (Base 5 5) xs).
Proof.
  intros s xs.
  split; [reflexivity|]. split; [exact (yields_it xs)|]. split; [reflexivity|].
  exact (terminal_single_pass sliceIterator_iterator s (reduceByStage toSliceInit toSliceAcc)
           5 (it xs) 0%nat None xs _ _ 3%nat _ eq_refl (yields_it xs) eq_refl).
Defined.

Lemma limit_drive {T D} (k : Z) (down : baseStage T D) (ts : list T) c d d' :
  0 <= c -> c + Z.of_nat (length ts) = k -> k <= max_int ->
  acceptAll down ts d = Some d' ->
  drive (wrap_fn (limitWrap k) down) ts (c, d) = Some (k, d').
Proof.
  revert c d. induction ts as [|t ts IH]; intros c d Hc Hk Hmax Hacc.
  - injection Hacc as <-. simpl in Hk. replace c with k by lia. done.
  - cbn [drive acceptAll length] in *. rewrite limit_CanFinish, Z.geb_leb.
    replace (k <=? c) with false by (symmetry; apply Z.leb_gt; lia).
    rewrite limit_Accept.
    replace (c <? k) with true by (symmetry; apply Z.ltb_lt; lia).
    destruct (Accept down t d) as [d1|]; [|discriminate]. cbn [mbind option_bind].
    rewrite int64_small by (unfold min_int, max_int in *; lia).
    apply IH; [lia|lia|done|done].
Qed.

(** X10.  [Limit k] over any source that has [k] elements to give: [ToSlice]
    returns the first [k] of them and leaves the source right after the
    [k]-th, whatever it still holds (it may be endless); [Next] has run [k]
    times and no more.  With [k = 0] the source is not touched. *)
Theorem Limit_takes_k {T I} (src : iterator T I) (k : Z) (fuel : nat) (i : I)
  (ts : list T) (j : I) :
  delivers src i ts j ->
  Z.of_nat (length ts) = k -> k <= max_int -> (length ts <= fuel)%nat ->
  ToSlice fuel (Limit k (newHead src)) i = Some (j, ts).
Proof.
  intros Hd Hk Hmax Hl. unfold ToSlice, ReduceBy, terminal, walk.
  cbn [source Limit wrapStage wrapInit].
  change (Begin ?stage ?n _) with (Begin stage n (0, @None (list T))). rewrite limit_Begin.
  change (Begin (reduceByStage _ _) ?n None) with (Some (toSliceInit (T:=T) n)).
  replace (toSliceInit (T:=T) _) with (Some (@nil T))
    by (unfold toSliceInit; by destruct (_ >=? 0)).
  cbn [below fmap option_fmap option_map mbind option_bind].
  rewrite (pulls_forLoop _ _ fuel _ _ ts j (k, Some ts)); [done| |done].
  apply delivers_pulls; [done| |].
  - apply limit_drive; [lia|lia|done|]. by rewrite toSlice_acceptAll.
  - rewrite limit_CanFinish. apply Z.geb_le. lia.
Qed.

Lemma Limit_takes_k_witness :
  let src := counting (supplierIt_iterator (T:=Z) (G:=Z)) in
  let i := (withSupplier (fun g => (g * g, g + 1)) 1, 0%nat) in
  let j := (SupplierIt (fun g => (g * g, g + 1)) 4, 3%nat) in
  delivers src i [1; 4; 9] j /\
  Z.of_nat (length [1; 4; 9]) = 3 /\ 3 <= max_int /\ (length [1; 4; 9] <= 3)%nat /\
  ToSlice 3 (Limit 3 (newHead src)) i = Some (j, [1; 4; 9]).
Proof.
  intros src i j.
  assert (Hd : delivers src i [1; 4; 9] j).
  { repeat (eapply delivers_cons; [reflexivity|reflexivity|]). apply delivers_nil. }
  assert (Hmax : 3 <= max_int) by (unfold max_int; lia).
  assert (Hl : (length [1; 4; 9] <= 3)%nat) by (simpl; lia).
  split; [exact Hd|]. split; [reflexivity|]. split; [exact Hmax|]. split; [exact Hl|].
  exact (Limit_takes_k src 3 3 i [1; 4; 9] j Hd eq_refl Hmax Hl).
Defined.

(** X11.  [FindFirst] on a head takes one element and stops: the source is
    left right after its first element, and the result is [OfNullable] of
    that element.  On a source with no element it returns the absent
    optional and leaves the source as it is. *)
Theorem FindFirst_takes_one {V I} (src : iterator (option V) I) (fuel : nat) (i : I) :
  (HasNext src i = false -> FindFirst fuel (newHead src) i = Some (i, emtpy)) /\
  (forall t j, delivers src i [t] j ->
     FindFirst (S fuel) (newHead src) i = Some (j, OfNullable t)).
Proof.
  split.
  - intros Hn. unfold FindFirst, terminal, walk. cbn [source wrapStage wrapInit].
    change (Begin _ _ _) with (Some (@None V, false)). cbn [mbind option_bind].
    by rewrite forLoop_exhausted.
  - intros t j Hd. unfold FindFirst, terminal, walk. cbn [source wrapStage wrapInit].
    change (Begin _ _ _) with (Some (@None V, false)). cbn [mbind option_bind].
    rewrite (pulls_forLoop _ _ (S fuel) _ _ [t] j (t, true)); [done| |simpl; lia].
    by apply delivers_pulls.
Qed.

Lemma FindFirst_takes_one_witness :
  let src := counting (seedIt_iterator (T:=option Z)) in
  let f := fun t : option Z => (fun v => v + 1) <$> t in
  (HasNext sliceIterator_iterator (it (@nil (option Z))) = false /\
   FindFirst 0 (newHead sliceIterator_iterator) (it (@nil (option Z))) = Some (it [], emtpy)) /\
  delivers src (withSeed (Some 7) f, 0%nat) [Some 7] (SeedIt (Some 7) f false, 1%nat) /\
  FindFirst 1 (newHead src) (withSeed (Some 7) f, 0%nat) =
    Some ((SeedIt (Some 7) f false, 1%nat), present 7).
Proof.
  intros src f.
  assert (Hd : delivers src (withSeed (Some 7) f, 0%nat) [Some 7]
                 (SeedIt (Some 7) f false, 1%nat)).
  { eapply delivers_cons; [reflexivity|reflexivity|apply delivers_nil]. }
  split; [split; [reflexivity|]|split; [exact Hd|]].
  - exact (proj1 (FindFirst_takes_one sliceIterator_iterator 0 (it [])) eq_refl).
  - exact (proj2 (FindFirst_takes_one src 0 (withSeed (Some 7) f, 0%nat)) _ _ Hd).
Defined.

Lemma findFirst_acceptAll {V} (ts : list (option V)) r :
  acceptAll findFirstStage ts (r, true) = Some (r, true).
Proof. induction ts as [|t ts IH]; [done|]. cbn [acceptAll]. exact IH. Qed.

(** X12.  [Limit] answers [CanFinish] from its own count alone, so a
    terminal operation below it that could stop early does not stop the
    loop: [FindFirst] after [Limit k] over a source that has [k] elements
    to give returns [OfNullable] of the first, and has taken all [k] from
    the source. *)
Theorem Limit_hides_FindFirst {V I} (src : iterator (option V) I) (k : Z) (fuel : nat)
  (i : I) (t : option V) (ts : list (option V)) (j : I) :
  delivers src i (t :: ts) j ->
  Z.of_nat (length (t :: ts)) = k -> k <= max_int -> (length (t :: ts) <= fuel)%nat ->
  FindFirst fuel (Limit k (newHead src)) i = Some (j, OfNullable t).
Proof.
  intros Hd Hk Hmax Hl. unfold FindFirst, terminal, walk.
  cbn [source Limit wrapStage wrapInit].
  change (Begin ?stage ?n _) with (Begin stage n (0, (@None V, false))). rewrite limit_Begin.
  change (Begin findFirstStage ?n ?d) with (Some d).
  cbn [below fmap option_fmap option_map mbind option_bind].
  rewrite (pulls_forLoop _ _ fuel _ _ (t :: ts) j (k, (t, true))); [done| |done].
  apply delivers_pulls; [done| |].
  - apply limit_drive; [lia|lia|done|]. cbn [acceptAll].
    change (Accept findFirstStage t (None, false)) with (Some (t, true)).
    cbn [mbind option_bind]. apply findFirst_acceptAll.
  - rewrite limit_CanFinish. apply Z.geb_le. lia.
Qed.

Lemma Limit_hides_FindFirst_witness :
  let src := counting (seedIt_iterator (T:=option Z)) in
  let f := fun t : option Z => (fun v => v + 1) <$> t in
  let i := (withSeed (Some 7) f, 0%nat) in
  let j := (SeedIt (Some 9) f false, 3%nat) in
  delivers src i [Some 7; Some 8; Some 9] j /\
  Z.of_nat (length [Some 7; Some 8; Some 9]) = 3 /\ 3 <= max_int /\
  (length [Some 7; Some 8; Some 9] <= 3)%nat /\
  FindFirst 3 (Limit 3 (newHead src)) i = Some (j, present 7).
Proof.
  intros src f i j.
  assert (Hd : delivers src i [Some 7; Some 8; Some 9] j).
  { repeat (eapply delivers_cons; [reflexivity|reflexivity|]). apply delivers_nil. }
  assert (Hmax : 3 <= max_int) by (unfold max_int; lia).
  assert (Hl : (length [Some 7; Some 8; Some 9] <= 3)%nat) by (simpl; lia).
  split; [exact Hd|]. split; [reflexivity|]. split; [exact Hmax|]. split; [exact Hl|].
  exact (Limit_hides_FindFirst src 3 3 i (Some 7) [Some 8; Some 9] j Hd eq_refl Hmax Hl).
Defined.

(** A stage with a verdict that starts as [b0] and flips for good at the
    first element that [stop] marks: fed elements that do not flip it and
    then one that does. *)
Lemma verdict_drive {T U} (stage : baseStage T (U * bool)) (stop : T -> bool) (b0 : bool)
  (g : T -> U -> U) :
  (forall t u r, Accept stage t (u, r) = Some (g t u, if stop t then negb b0 else r)) ->
  (forall u r, CanFinish stage (u, r) = negb (eqb r b0)) ->
  forall pre x u,
    Forall (fun t => stop t = false) pre -> stop x = true ->
    drive stage (pre ++ [x]) (u, b0) =
    Some (fold_left (fun u t => g t u) (pre ++ [x]) u, negb b0).
Proof.
  intros Ha Hc pre x. induction pre as [|t pre IH]; intros u Hpre Hx.
  - cbn [app drive fold_left]. rewrite Hc, Ha, Hx. by destruct b0.
  - inversion Hpre as [|? ? Ht Hpre']; subst.
    cbn [app drive fold_left]. rewrite Hc, Ha, Ht.
    replace (negb (eqb b0 b0)) with false by (by destruct b0).
    cbn [mbind option_bind]. by apply IH.
Qed.

(** X13.  A match operation on a head stops at the element that settles
    the verdict: with a predicate whose verdict depends on the element only,
    over a source that gives [pre] and then [x], where [x] is the first
    element that fails ([AllMatch]) or passes ([AnyMatch], [NoneMatch]) the
    predicate, the operation returns the settled verdict, has run the
    predicate once on each element of [pre] and on [x], and leaves the
    source right after [x]. *)
Theorem match_stops_at_verdict {T I U} (src : iterator T I) (p : T -> bool)
  (g : T -> U -> U) (fuel : nat) (i : I) (pre : list T) (x : T) (j : I) (u : U) :
  delivers src i (pre ++ [x]) j ->
  (length pre < fuel)%nat ->
  let test := fun t u => (p t, g t u) in
  let u' := fold_left (fun u t => g t u) (pre ++ [x]) u in
  (Forall (fun t => p t = true) pre -> p x = false ->
   AllMatch fuel (newHead src) test i u = Some (j, (u', false))) /\
  (Forall (fun t => p t = false) pre -> p x = true ->
   AnyMatch fuel (newHead src) test i u = Some (j, (u', true)) /\
   NoneMatch fuel (newHead src) test i u = Some (j, (u', false))).
Proof.
  intros Hd Hl test u'.
  assert (Hlen : (length (pre ++ [x]) <= fuel)%nat) by (rewrite length_app; simpl; lia).
  split; [intros Hpre Hx|intros Hpre Hx; split].
  - unfold AllMatch, terminal, walk. cbn [source wrapStage wrapInit terminalVars].
    change (Begin (allMatchStage test) ?n ?d) with (Some d). cbn [mbind option_bind].
    rewrite (pulls_forLoop _ _ fuel _ _ (pre ++ [x]) j (u', false)); [done| |done].
    apply delivers_pulls; [done| |done].
    apply (verdict_drive (allMatchStage test) (fun t => negb (p t)) true g).
    + intros t u0 r. reflexivity.
    + intros u0 r. by destruct r.
    + eapply Forall_impl; [exact Hpre|]. by intros t ->.
    + by rewrite Hx.
  - unfold AnyMatch, terminal, walk. cbn [source wrapStage wrapInit terminalVars].
    change (Begin (anyMatchStage test) ?n ?d) with (Some d). cbn [mbind option_bind].
    rewrite (pulls_forLoop _ _ fuel _ _ (pre ++ [x]) j (u', true)); [done| |done].
    apply delivers_pulls; [done| |done].
    apply (verdict_drive (anyMatchStage test) p false g); try done.
    intros u0 r. by destruct r.
  - unfold NoneMatch, terminal, walk. cbn [source wrapStage wrapInit terminalVars].
    change (Begin (noneMatchStage test) ?n ?d) with (Some d). cbn [mbind option_bind].
    rewrite (pulls_forLoop _ _ fuel _ _ (pre ++ [x]) j (u', false)); [done| |done].
    apply delivers_pulls; [done| |done].
    apply (verdict_drive (noneMatchStage test) p true g); try done.
    intros u0 r. by destruct r.
Qed.

Lemma match_stops_at_verdict_witness :
  let src := sliceIterator_iterator (T:=Z) in
  let xs := [2; 4; 5; 6; 7] in
  let test := fun (t : Z) (calls : nat) => (Z.even t, S calls) in
  let j := SliceIterator (Base 3 5) xs in
  delivers src (it xs) ([2; 4] ++ [5]) j /\
  (length [2; 4] < 3)%nat /\
  (Forall (fun t => Z.even t = true) [2; 4] /\ Z.even 5 = false) /\
  AllMatch 3 (newHead src) test (it xs) 0%nat = Some (j, (3%nat, false)).
Proof.
  intros src xs test j.
  assert (Hd : delivers src (it xs) ([2; 4] ++ [5]) j).
  { repeat (eapply delivers_cons; [reflexivity|reflexivity|]). apply delivers_nil. }
  assert (Hl : (length [2; 4] < 3)%nat) by (simpl; lia).
  assert (Hpre : Forall (fun t => Z.even t = true) [2; 4]) by (repeat constructor).
  split; [exact Hd|]. split; [exact Hl|]. split; [split; [exact Hpre|reflexivity]|].
  exact (proj1 (match_stops_at_verdict src Z.even (fun _ calls => S calls) 3 (it xs)
                  [2; 4] 5 j 0%nat Hd Hl) Hpre eq_refl).
Defined.

Section PeekStage.
Context {T U D : Type}.
Variable consumer : T -> U -> option U.
Variable u0 : U.
Variable down : baseStage T D.

Lemma peek_Begin size u d :
  Begin (wrap_fn (peekWrap consumer u0) down) size (u, d) = below u (Begin down size d).
Proof. reflexivity. Qed.

Lemma peek_Accept t u d :
  Accept (wrap_fn (peekWrap consumer u0) down) t (u, d) =
  (u' ← consumer t u; below u' (Accept down t d)).
Proof. reflexivity. Qed.

Lemma peek_CanFinish u d :
  CanFinish (wrap_fn (peekWrap consumer u0) down) (u, d) = CanFinish down d.
Proof. reflexivity. Qed.

Lemma peek_End u d :
  End (wrap_fn (peekWrap consumer u0) down) (u, d) = below u (End down d).
Proof. reflexivity. Qed.

End PeekStage.

Lemma peek_drive {T U D} (c : U -> T -> U) (u0 : U) (down : baseStage T D) ts u d d' :
  drive down ts d = Some d' ->
  drive (wrap_fn (peekWrap (fun t u => Some (c u t)) u0) down) ts (u, d) =
  Some (fold_left c ts u, d').
Proof.
  revert u d. induction ts as [|t ts IH]; intros u d Hd.
  - by injection Hd as <-.
  - cbn [drive fold_left] in *. rewrite peek_CanFinish.
    destruct (CanFinish down d); [discriminate|].
    rewrite peek_Accept. cbn [mbind option_bind].
    destruct (Accept down t d) as [d1|]; [|discriminate].
    cbn [below fmap option_fmap option_map mbind option_bind]. by apply IH.
Qed.

(** X14.  [Peek] hands every element on unchanged, and its consumer runs on
    an element when that element passes, not before: with [Limit k]
    declared after it, over a source that has [k] elements to give, the
    consumer has run on those [k] elements, in order, and on no other; the
    stage below has received exactly them; and the source is left right
    after the [k]-th. *)
Theorem Peek_sees_what_passes {T I U} (src : iterator T I) (c : U -> T -> U) (u0 : U)
  (k : Z) (fuel : nat) (i : I) (ts : list T) (j : I) :
  delivers src i ts j ->
  Z.of_nat (length ts) = k -> k <= max_int -> (length ts <= fuel)%nat ->
  let s := Limit k (Peek (fun t u => Some (c u t)) u0 (newHead src)) in
  walk fuel src (wrapStage s (reduceByStage toSliceInit toSliceAcc)) i (wrapInit s None) =
    Some (j, (fold_left c ts u0, (k, Some ts))) /\
  ToSlice fuel s i = Some (j, ts).
Proof.
  intros Hd Hk Hmax Hl s.
  assert (Hw : walk fuel src (wrapStage s (reduceByStage toSliceInit toSliceAcc)) i
                 (wrapInit s None) = Some (j, (fold_left c ts u0, (k, Some ts)))).
  { unfold walk, s. cbn [Limit Peek wrapStage wrapInit].
    change (Begin ?stage ?n _) with (Begin stage n (u0, (0, @None (list T)))).
    rewrite peek_Begin, limit_Begin.
    change (Begin (reduceByStage _ _) ?n None) with (Some (toSliceInit (T:=T) n)).
    replace (toSliceInit (T:=T) _) with (Some (@nil T))
      by (unfold toSliceInit; by destruct (_ >=? 0)).
    cbn [below fmap option_fmap option_map mbind option_bind].
    rewrite (pulls_forLoop _ _ fuel _ _ ts j (fold_left c ts u0, (k, Some ts))); [done| |done].
    apply delivers_pulls; [done| |].
    - apply peek_drive, limit_drive; [lia|lia|done|]. by rewrite toSlice_acceptAll.
    - rewrite peek_CanFinish, limit_CanFinish. apply Z.geb_le. lia. }
  split; [exact Hw|].
  unfold ToSlice, ReduceBy, terminal. change (source s) with src. by rewrite Hw.
Qed.

Lemma Peek_sees_what_passes_witness :
  let src := seedIt_iterator (T:=Z) in
  let i := withSeed 1 (fun x => x * 2) in
  let j := SeedIt 4 (fun x => x * 2) false in
  let s := Limit 3 (Peek (fun t (seen : list Z) => Some (seen ++ [t])) [] (newHead src)) in
  delivers src i [1; 2; 4] j /\
  Z.of_nat (length [1; 2; 4]) = 3 /\ 3 <= max_int /\ (length [1; 2; 4] <= 3)%nat /\
  walk 3 src (wrapStage s (reduceByStage toSliceInit toSliceAcc)) i (wrapInit s None) =
    Some (j, ([1; 2; 4], (3, Some [1; 2; 4]))) /\
  ToSlice 3 s i = Some (j, [1; 2; 4]).
Proof.
  intros src i j s.
  assert (Hd : delivers src i [1; 2; 4] j).
  { repeat (eapply delivers_cons; [reflexivity|reflexivity|]). apply delivers_nil. }
  assert (Hmax : 3 <= max_int) by (unfold max_int; lia).
  assert (Hl : (length [1; 2; 4] <= 3)%nat) by (simpl; lia).
  split; [exact Hd|]. split; [reflexivity|]. split; [exact Hmax|]. split; [exact Hl|].
  exact (Peek_sees_what_passes src (fun seen t => seen ++ [t]) [] 3 3 i [1; 2; 4] j
           Hd eq_refl Hmax Hl).
Defined.

(** * Nested streams *)

Section FlatMapStage.
Context {T D : Type}.
Variable fuel : nat.
Variable flatten : T -> Stream T.
Variable down : baseStage T D.

Lemma flatMap_Begin size o d :
  Begin (wrap_fn (flatMapWrap fuel flatten) down) size (o, d) =
  below o (Begin down unkonwnSize d).
Proof. reflexivity. Qed.

Lemma flatMap_Accept t o d :
  Accept (wrap_fn (flatMapWrap fuel flatten) down) t (o, d) =
  below o (snd <$> ForEach fuel (nodes (flatten t)) (Accept down)
                     (source_fields (flatten t)) d).
Proof. reflexivity. Qed.

Lemma flatMap_CanFinish o d :
  CanFinish (wrap_fn (flatMapWrap fuel flatten) down) (o, d) = CanFinish down d.
Proof. reflexivity. Qed.

Lemma flatMap_End o d :
  End (wrap_fn (flatMapWrap fuel flatten) down) (o, d) = below o (End down d).
Proof. reflexivity. Qed.

End FlatMapStage.

Lemma acceptAll_app {T S} (stage : baseStage T S) (xs ys : list T) st :
  acceptAll stage (xs ++ ys) st = acceptAll stage xs st ≫= acceptAll stage ys.
Proof.
  revert st. induction xs as [|x xs IH]; intros st; [done|].
  cbn [app acceptAll]. destruct (Accept stage x st) as [st1|]; [apply IH|done].
Qed.

(** [ForEach] on a head that holds a finite list hands every element to
    the consumer. *)
Lemma ForEach_head_Accept {T I D} (src : iterator T I) (down : baseStage T D)
  fuel i ts i' d d' :
  yields src i ts i' -> (length ts <= fuel)%nat ->
  acceptAll down ts d = Some d' ->
  ForEach fuel (newHead src) (Accept down) i d = Some (i', d').
Proof.
  intros Hy Hl Ha. unfold ForEach, terminal. cbn [source wrapStage wrapInit terminalVars].
  rewrite (walk_yields src _ fuel i ts i' d d d' d' Hy); try done.
  rewrite <- Ha. clear. revert d. induction ts as [|t ts IH]; intros d; [done|].
  cbn [acceptAll]. change (Accept (newTerminalStage _ _) t d) with (Accept down t d).
  destruct (Accept down t d); [apply IH|done].
Qed.

Section FlatMapHeads.
Context {T I' D : Type}.
Variable src' : iterator T I'.
Variable fields : T -> I'.
Variable g : T -> list T.
Variable inner : nat.
Variable down : baseStage T D.

Lemma flatMap_acceptAll xs o d d' :
  Forall (fun t => (exists j, yields src' (fields t) (g t) j) /\ (length (g t) <= inner)%nat) xs ->
  acceptAll down (concat (map g xs)) d = Some d' ->
  acceptAll (wrap_fn (flatMapWrap inner (fun t => MkStream I' (newHead src') (fields t))) down)
    xs (o, d) = Some (o, d').
Proof.
  revert d. induction xs as [|x xs IH]; intros d Hxs Ha.
  - injection Ha as <-. done.
  - inversion Hxs as [|? ? [[j Hy] Hl] Hxs']; subst.
    cbn [map concat] in Ha. rewrite acceptAll_app in Ha.
    destruct (acceptAll down (g x) d) as [d1|] eqn:Hx; [|discriminate].
    cbn [mbind option_bind] in Ha.
    cbn [acceptAll]. rewrite flatMap_Accept. cbn [nodes source_fields source_type].
    rewrite (ForEach_head_Accept src' down inner (fields x) (g x) j d d1 Hy Hl Hx).
    cbn [fmap option_fmap option_map below snd mbind option_bind]. by apply IH.
Qed.

End FlatMapHeads.

(** X15.  [FlatMap] over nested streams that are heads on finite sources:
    [ToSlice] returns the elements of the nested streams one stream after
    the other, in the order of the elements they were flattened from. *)
Theorem FlatMap_concat {T I I'} (src : iterator T I) (src' : iterator T I')
  (fields : T -> I') (g : T -> list T) (inner fuel : nat) (i : I) (xs : list T) (i' : I) :
  yields src i xs i' -> (length xs <= fuel)%nat ->
  Forall (fun t => (exists j, yields src' (fields t) (g t) j) /\ (length (g t) <= inner)%nat) xs ->
  ToSlice fuel (FlatMap inner (fun t => MkStream I' (newHead src') (fields t)) (newHead src)) i =
  Some (i', concat (map g xs)).
Proof.
  intros Hy Hl Hxs. unfold ToSlice, ReduceBy, terminal.
  cbn [source FlatMap wrapStage wrapInit].
  rewrite (walk_yields src _ fuel i xs i' (tt, None) (tt, Some [])
             (tt, Some (concat (map g xs))) (tt, Some (concat (map g xs))) Hy); try done.
  - by intros [[] r].
  - apply (flatMap_acceptAll src' fields g); [done|]. by rewrite toSlice_acceptAll.
Qed.

Lemma FlatMap_concat_witness :
  let g := fun t : Z => [t; t * 10] in
  let xs := [1; 2; 3] in
  yields sliceIterator_iterator (it xs) xs (SliceIterator (Base 3 3) xs) /\
  (length xs <= 3)%nat /\
  Forall (fun t => (exists j, yields sliceIterator_iterator (it (g t)) (g t) j) /\
                   (length (g t) <= 2)%nat) xs /\
  ToSlice 3 (FlatMap 2 (fun t => MkStream _ (newHead sliceIterator_iterator) (it (g t)))
               (newHead sliceIterator_iterator)) (it xs) =
  Some (SliceIterator (Base 3 3) xs, [1; 10; 2; 20; 3; 30]).
Proof.
  intros g xs.
  assert (Hl : (length xs <= 3)%nat) by (simpl; lia).
  assert (Hxs : Forall (fun t => (exists j, yields sliceIterator_iterator (it (g t)) (g t) j) /\
                                 (length (g t) <= 2)%nat) xs).
  { repeat constructor; eexists; apply yields_it. }
  split; [exact (yields_it xs)|]. split; [exact Hl|]. split; [exact Hxs|].
  exact (FlatMap_concat sliceIterator_iterator sliceIterator_iterator (fun t => it (g t)) g
           2 3 (it xs) xs _ (yields_it xs) Hl Hxs).
Defined.

Lemma forLoop_endless {T I S} (src : iterator T I) (stage : baseStage T S) fuel i st :
  (forall j, HasNext src j = true) -> (forall st, CanFinish stage st = false) ->
  forLoop fuel src stage i st = None.
Proof.
  intros Hn Hc. revert i st. induction fuel as [|fuel IH]; intros i st; cbn [forLoop];
    rewrite Hn, Hc; [done|]. cbn [andb negb].
  destruct (Next src i) as [[t i1]|]; [|done]. cbn [mbind option_bind].
  destruct (Accept stage t st) as [st1|]; [|done]. apply IH.
Qed.

Lemma forLoop_stuck {T I S} (src : iterator T I) (stage : baseStage T S) fuel i st t i1 :
  HasNext src i = true -> CanFinish stage st = false ->
  Next src i = Some (t, i1) -> Accept stage t st = None ->
  forLoop fuel src stage i st = None.
Proof.
  intros Hn Hc Hx Ha. destruct fuel; cbn [forLoop]; rewrite Hn, Hc; [done|].
  cbn [andb negb]. rewrite Hx. cbn [mbind option_bind]. by rewrite Ha.
Qed.

(** X16.  The loop [FlatMap] runs over a nested stream never asks the
    stage below whether it can finish.  So when the nested stream is a head
    on a source that always has a next element (a seed or a supplier
    source), the pipeline does not return once an element reaches
    [FlatMap], whatever number of rounds the two loops are given, and a
    [Limit] declared after the [FlatMap] does not help. *)
Theorem FlatMap_endless_nested {T I I'} (src : iterator T I) (src' : iterator T I')
  (fields : T -> I') (k : Z) (inner fuel : nat) (i : I) (t : T) (i1 : I) :
  (forall j, HasNext src' j = true) ->
  HasNext src i = true -> Next src i = Some (t, i1) -> 0 < k ->
  ToSlice fuel
    (Limit k (FlatMap inner (fun t => MkStream I' (newHead src') (fields t)) (newHead src))) i =
  None.
Proof.
  intros Hendless Hn Hx Hk. unfold ToSlice, ReduceBy, terminal, walk.
  cbn [source Limit FlatMap wrapStage wrapInit].
  change (Begin ?stage ?n _) with (Begin stage n (tt, (0, @None (list T)))).
  rewrite flatMap_Begin, limit_Begin.
  change (Begin (reduceByStage _ _) ?n None) with (Some (toSliceInit (T:=T) n)).
  replace (toSliceInit (T:=T) _) with (Some (@nil T))
    by (unfold toSliceInit; by destruct (_ >=? 0)).
  cbn [below fmap option_fmap option_map mbind option_bind].
  rewrite (forLoop_stuck src _ fuel i _ t i1 Hn); [done| |done|].
  - change (CanFinish ?stage _) with (CanFinish stage (tt, (0, Some (@nil T)))).
    rewrite flatMap_CanFinish, limit_CanFinish, Z.geb_leb. apply Z.leb_gt. lia.
  - change (Accept ?stage t _) with (Accept stage t (tt, (0, Some (@nil T)))).
    rewrite flatMap_Accept.
    cbn [nodes source_fields source_type]. unfold ForEach, terminal, walk.
    cbn [source wrapStage wrapInit].
    change (Begin (newTerminalStage _ _) ?n ?d) with (Some d). cbn [mbind option_bind].
    by rewrite forLoop_endless.
Qed.

Lemma FlatMap_endless_nested_witness :
  let src := sliceIterator_iterator (T:=Z) in
  let src' := seedIt_iterator (T:=Z) in
  (forall j, HasNext src' j = true) /\
  HasNext src (it [5]) = true /\
  Next src (it [5]) = Some (5, SliceIterator (Base 1 1) [5]) /\ 0 < 2 /\
  ToSlice 100
    (Limit 2 (FlatMap 100 (fun t => MkStream _ (newHead src') (withSeed t (fun x => x + 1)))
                (newHead src))) (it [5]) = None.
Proof.
  intros src src'.
  assert (He : forall j, HasNext src' j = true) by reflexivity.
  assert (Hk : 0 < 2) by lia.
  split; [exact He|]. split; [reflexivity|]. split; [reflexivity|]. split; [exact Hk|].
  exact (FlatMap_endless_nested src src' (fun t => withSeed t (fun x => x + 1)) 2 100 100
           (it [5]) 5 _ He eq_refl eq_refl Hk).
Defined.

(** * The range source *)

Lemma rangeIt_yields_from (a b stp : Z) (n : nat) : forall v,
  0 < stp -> stp <= max_int -> b + stp <= max_int + 1 ->
  min_int <= v <= max_int -> min_int <= v - b <= max_int ->
  (forall k, (k < n)%nat -> v + Z.of_nat k * stp < b) ->
  b <= v + Z.of_nat n * stp ->
  yields rangeIt_iterator (RangeIt (EpInt a) (EpInt b) stp (EpInt v))
    (map (fun k => EpInt (v + Z.of_nat k * stp)) (seq 0 n))
    (RangeIt (EpInt a) (EpInt b) stp (EpInt (v + Z.of_nat n * stp))).
Proof.
  induction n as [|n IH]; intros v Hs Hsm Hb Hv Hvb Hlt Hge.
  - cbn [seq map]. replace (v + Z.of_nat 0 * stp) with v by lia.
    apply yields_nil. cbn [HasNext rangeIt_iterator].
    rewrite rangeIt_HasNext_in_range by done. cbn [step next to epInt_val].
    replace (stp >=? 0) with true by (symmetry; apply Z.geb_le; lia).
    apply Z.ltb_ge. lia.
  - assert (Hv0 : v < b) by (specialize (Hlt 0%nat); lia).
    cbn [seq map]. replace (v + Z.of_nat 0 * stp) with v by lia.
    eapply yields_cons.
    + cbn [HasNext rangeIt_iterator].
      rewrite rangeIt_HasNext_in_range by done. cbn [step next to epInt_val].
      replace (stp >=? 0) with true by (symmetry; apply Z.geb_le; lia).
      apply Z.ltb_lt. lia.
    + cbn [Next rangeIt_iterator]. unfold rangeIt_Next.
      cbn [next from to step Add epInt_endpoint epInt_val]. unfold int.
      rewrite int64_small by (unfold min_int, max_int in *; lia). reflexivity.
    + rewrite <- seq_shift, map_map.
      replace (v + Z.of_nat (S n) * stp) with (v + stp + Z.of_nat n * stp) by lia.
      rewrite (map_ext (fun k => EpInt (v + Z.of_nat (S k) * stp))
                 (fun k => EpInt (v + stp + Z.of_nat k * stp)))
        by (intros k; f_equal; lia).
      apply IH; try done; try (unfold min_int, max_int in *; lia).
      intros k Hk. specialize (Hlt (S k)). lia.
Qed.

(** X17.  A forward range whose bounds and step keep the arithmetic within
    [int]: it yields [from], [from + step], [from + 2 step], ... as long as
    the value is below [to], and is then exhausted; [to] itself is never
    yielded, and nothing is yielded when [from] is not below [to]. *)
Theorem rangeIt_counts_up (a b stp : Z) (n : nat) :
  0 < stp -> stp <= max_int -> b + stp <= max_int + 1 ->
  min_int <= a <= max_int -> min_int <= a - b <= max_int ->
  (n = 0%nat \/ a + (Z.of_nat n - 1) * stp < b) ->
  b <= a + Z.of_nat n * stp ->
  yields rangeIt_iterator (withRange (EpInt a) (EpInt b) stp)
    (map (fun k => EpInt (a + Z.of_nat k * stp)) (seq 0 n))
    (RangeIt (EpInt a) (EpInt b) stp (EpInt (a + Z.of_nat n * stp))).
Proof.
  intros Hs Hsm Hb Ha Hab Hn Hge. apply rangeIt_yields_from; try done.
  intros k Hk. destruct Hn as [->|Hn]; [lia|]. nia.
Qed.

Lemma rangeIt_counts_up_witness :
  0 < 3 /\ 3 <= max_int /\ 10 + 3 <= max_int + 1 /\
  min_int <= 1 <= max_int /\ min_int <= 1 - 10 <= max_int /\
  (3%nat = 0%nat \/ 1 + (Z.of_nat 3 - 1) * 3 < 10) /\
  10 <= 1 + Z.of_nat 3 * 3 /\
  yields rangeIt_iterator (withRange (EpInt 1) (EpInt 10) 3)
    [EpInt 1; EpInt 4; EpInt 7] (RangeIt (EpInt 1) (EpInt 10) 3 (EpInt 10)).
Proof.
  assert (H1 : 0 < 3) by lia.
  assert (H2 : 3 <= max_int) by (unfold max_int; lia).
  assert (H3 : 10 + 3 <= max_int + 1) by (unfold max_int; lia).
  assert (H4 : min_int <= 1 <= max_int) by (unfold min_int, max_int; lia).
  assert (H5 : min_int <= 1 - 10 <= max_int) by (unfold min_int, max_int; lia).
  assert (H6 : 3%nat = 0%nat \/ 1 + (Z.of_nat 3 - 1) * 3 < 10) by (right; lia).
  assert (H7 : 10 <= 1 + Z.of_nat 3 * 3) by lia.
  repeat (split; [assumption|]).
  exact (rangeIt_counts_up 1 10 3 3 H1 H2 H3 H4 H5 H6 H7).
Defined.

(** X18.  A range with step 0 and [from] below [to] never ends: however
    many elements have been taken, each was [from], the fields are as they
    were at the start, and [HasNext] is still true. *)
Theorem rangeIt_step_zero_endless (a b : Z) (n : nat) :
  a < b -> min_int <= a <= max_int -> min_int <= a - b ->
  let r := withRange (EpInt a) (EpInt b) 0 in
  delivers rangeIt_iterator r (repeat (EpInt a) n) r /\ HasNext rangeIt_iterator r = true.
Proof.
  intros Hab Ha Hd r.
  assert (Hn : HasNext rangeIt_iterator r = true).
  { cbn [HasNext rangeIt_iterator]. rewrite rangeIt_HasNext_in_range.
    - cbn. apply Z.ltb_lt. lia.
    - cbn. unfold max_int, min_int in *. lia. }
  split; [|exact Hn].
  induction n as [|n IH]; [apply delivers_nil|].
  cbn [repeat]. eapply delivers_cons; [exact Hn| |exact IH].
  cbn [Next rangeIt_iterator]. unfold rangeIt_Next, r, withRange.
  cbn [next from to step Add epInt_endpoint epInt_val]. unfold int.
  rewrite Z.add_0_r, int64_small by done. reflexivity.
Qed.

Lemma rangeIt_step_zero_endless_witness :
  let r := withRange (EpInt 1) (EpInt 5) 0 in
  1 < 5 /\ min_int <= 1 <= max_int /\ min_int <= 1 - 5 /\
  delivers rangeIt_iterator r (repeat (EpInt 1) 1000) r /\ HasNext rangeIt_iterator r = true.
Proof.
  intros r.
  assert (H1 : 1 < 5) by lia.
  assert (H2 : min_int <= 1 <= max_int) by (unfold min_int, max_int; lia).
  assert (H3 : min_int <= 1 - 5) by (unfold min_int; lia).
  split; [exact H1|]. split; [exact H2|]. split; [exact H3|].
  exact (rangeIt_step_zero_endless 1 5 1000 H1 H2 H3).
Defined.

(** * Sortable *)

Lemma index_Some {A} (l : list A) (i : Z) x :
  index l i = Some x <-> 0 <= i /\ l !! Z.to_nat i = Some x.
Proof.
  unfold index. destruct (Z.leb_spec 0 i) as [H|H].
  - split; [by intros ?; split|by intros [_ ?]].
  - split; [done|intros [? _]; lia].
Qed.

Lemma delete_insert_same {A} (l : list A) (i : nat) (x : A) :
  delete i (<[i := x]> l) = delete i l.
Proof.
  revert i. induction l as [|y l IH]; intros [|i]; simpl; try done. by rewrite IH.
Qed.

Lemma insert_Permutation {A} (l : list A) (i : nat) (x y : A) :
  l !! i = Some x -> <[i := y]> l ≡ₚ y :: delete i l.
Proof.
  intros Hi. rewrite <- (delete_insert_same l i y).
  apply delete_Permutation, list_lookup_insert_eq. by eapply lookup_lt_Some.
Qed.

(** X19.  [Swap] of a [Sortable]: when both indices are in range it
    exchanges the two elements, leaves every other position, the length and
    the comparator as they are, so the list stays a permutation of itself,
    and swapping the same two indices again gives the list back; when one
    of the indices is out of range it panics. *)
Theorem Swap_exchanges {T} (a : Sortable T) (i j : Z) :
  (Swap a i j = None <-> ~ (0 <= i < Len a /\ 0 <= j < Len a)) /\
  (forall a', Swap a i j = Some a' ->
     Cmp a' = Cmp a /\ Len a' = Len a /\ List a' ≡ₚ List a /\
     index (List a') i = index (List a) j /\
     index (List a') j = index (List a) i /\
     (forall k, k <> i -> k <> j -> index (List a') k = index (List a) k) /\
     Swap a' i j = Some a).
Proof.
  destruct a as [l cmp]. unfold Swap, Len. cbn [List Cmp]. split.
  - destruct (index l i) as [x|] eqn:Hi; cbn [mbind option_bind].
    + destruct (index l j) as [y|] eqn:Hj; cbn [mbind option_bind].
      * apply index_Some in Hi as [Hi0 Hi], Hj as [Hj0 Hj].
        apply lookup_lt_Some in Hi, Hj. split; [done|]. intros H. exfalso. apply H. lia.
      * split; [intros _|done]. intros [_ [Hj0 Hj1]].
        assert (is_Some (l !! Z.to_nat j)) as [y Hy] by (apply lookup_lt_is_Some; lia).
        assert (index l j = Some y) by (by apply index_Some). congruence.
    + split; [intros _|done]. intros [[Hi0 Hi1] _].
      assert (is_Some (l !! Z.to_nat i)) as [x Hx] by (apply lookup_lt_is_Some; lia).
      assert (index l i = Some x) by (by apply index_Some). congruence.
  - intros a'.
    destruct (index l i) as [x|] eqn:Hi; cbn [mbind option_bind]; [|done].
    destruct (index l j) as [y|] eqn:Hj; cbn [mbind option_bind]; [|done].
    intros [= <-]. cbn [List Cmp].
    pose proof Hi as Hi'. pose proof Hj as Hj'.
    apply index_Some in Hi' as [Hi0 Hil], Hj' as [Hj0 Hjl].
    pose proof (lookup_lt_Some _ _ _ Hil) as Hilen.
    pose proof (lookup_lt_Some _ _ _ Hjl) as Hjlen.
    set (m := <[Z.to_nat i := y]> l).
    assert (Hmj : m !! Z.to_nat j = Some y).
    { unfold m. destruct (decide (Z.to_nat i = Z.to_nat j)) as [->|Hne].
      - by apply list_lookup_insert_eq.
      - by rewrite list_lookup_insert_ne. }
    assert (Hli : <[Z.to_nat j := x]> m !! Z.to_nat i = Some y).
    { destruct (decide (Z.to_nat j = Z.to_nat i)) as [Heq|Hne].
      - assert (x = y) as -> by (rewrite Heq in Hjl; congruence).
        rewrite Heq. apply list_lookup_insert_eq. unfold m. by rewrite length_insert.
      - rewrite list_lookup_insert_ne by done. by apply list_lookup_insert_eq. }
    assert (Hlj : <[Z.to_nat j := x]> m !! Z.to_nat j = Some x).
    { apply list_lookup_insert_eq. unfold m. by rewrite length_insert. }
    repeat split.
    + unfold m. by rewrite !length_insert.
    + rewrite (insert_Permutation m (Z.to_nat j) y x Hmj).
      rewrite (delete_Permutation l (Z.to_nat i) x Hil).
      apply Permutation_cons; [done|].
      apply (Permutation_cons_inv (a := y)).
      rewrite <- (delete_Permutation m (Z.to_nat j) y Hmj).
      unfold m. exact (insert_Permutation l (Z.to_nat i) x y Hil).
    + by apply index_Some.
    + by apply index_Some.
    + intros k Hki Hkj. unfold index. destruct (Z.leb_spec 0 k); [|done].
      unfold m. rewrite !list_lookup_insert_ne by lia. done.
    + assert (Hi2 : index (<[Z.to_nat j := x]> m) i = Some y) by (by apply index_Some).
      assert (Hj2 : index (<[Z.to_nat j := x]> m) j = Some x) by (by apply index_Some).
      rewrite Hi2, Hj2. cbn [mbind option_bind]. f_equal. f_equal.
      apply list_eq. intros k.
      destruct (decide (k = Z.to_nat j)) as [->|Hkj].
      * rewrite list_lookup_insert_eq; [by rewrite Hjl|]. unfold m. by rewrite !length_insert.
      * rewrite list_lookup_insert_ne by done.
        destruct (decide (k = Z.to_nat i)) as [->|Hki].
        -- rewrite list_lookup_insert_eq; [by rewrite Hil|]. unfold m. by rewrite !length_insert.
        -- rewrite list_lookup_insert_ne by done. rewrite list_lookup_insert_ne by done.
           unfold m. by rewrite list_lookup_insert_ne.
Qed.

Lemma Swap_exchanges_witness :
  let a := MkSortable [10; 20; 30] IntComparator in
  let a' := MkSortable [30; 20; 10] IntComparator in
  Swap a 0 2 = Some a' /\
  Cmp a' = Cmp a /\ Len a' = Len a /\ List a' ≡ₚ List a /\
  index (List a') 0 = index (List a) 2 /\
  index (List a') 2 = index (List a) 0 /\
  (forall k, k <> 0 -> k <> 2 -> index (List a') k = index (List a) k) /\
  Swap a' 0 2 = Some a.
Proof.
  intros a a'. split; [reflexivity|].
  exact (proj2 (Swap_exchanges a 0 2) a' eq_refl).
Defined.

Lemma rangeIt_yields_down (a b stp : Z) (n : nat) : forall v,
  stp < 0 -> min_int <= stp -> min_int - 1 <= b + stp ->
  min_int <= v <= max_int -> min_int <= v - b <= max_int ->
  (forall k, (k < n)%nat -> b < v + Z.of_nat k * stp) ->
  v + Z.of_nat n * stp <= b ->
  yields rangeIt_iterator (RangeIt (EpInt a) (EpInt b) stp (EpInt v))
    (map (fun k => EpInt (v + Z.of_nat k * stp)) (seq 0 n))
    (RangeIt (EpInt a) (EpInt b) stp (EpInt (v + Z.of_nat n * stp))).
Proof.
  induction n as [|n IH]; intros v Hs Hsm Hb Hv Hvb Hlt Hge.
  - cbn [seq map]. replace (v + Z.of_nat 0 * stp) with v by lia.
    apply yields_nil. cbn [HasNext rangeIt_iterator].
    rewrite rangeIt_HasNext_in_range by done. cbn [step next to epInt_val].
    replace (stp >=? 0) with false by (symmetry; rewrite Z.geb_leb; apply Z.leb_gt; lia).
    rewrite Z.gtb_ltb. apply Z.ltb_ge. lia.
  - assert (Hv0 : b < v) by (specialize (Hlt 0%nat); lia).
    cbn [seq map]. replace (v + Z.of_nat 0 * stp) with v by lia.
    eapply yields_cons.
    + cbn [HasNext rangeIt_iterator].
      rewrite rangeIt_HasNext_in_range by done. cbn [step next to epInt_val].
      replace (stp >=? 0) with false by (symmetry; rewrite Z.geb_leb; apply Z.leb_gt; lia).
      rewrite Z.gtb_ltb. apply Z.ltb_lt. lia.
    + cbn [Next rangeIt_iterator]. unfold rangeIt_Next.
      cbn [next from to step Add epInt_endpoint epInt_val]. unfold int.
      rewrite int64_small by (unfold min_int, max_int in *; lia). reflexivity.
    + rewrite <- seq_shift, map_map.
      replace (v + Z.of_nat (S n) * stp) with (v + stp + Z.of_nat n * stp) by lia.
      rewrite (map_ext (fun k => EpInt (v + Z.of_nat (S k) * stp))
                 (fun k => EpInt (v + stp + Z.of_nat k * stp)))
        by (intros k; f_equal; lia).
      apply IH; try done; try (unfold min_int, max_int in *; lia).
      intros k Hk. specialize (Hlt (S k)). lia.
Qed.

(** X20.  A backward range (negative step) whose bounds and step keep the
    arithmetic within [int]: it yields [from], [from + step], ... as long
    as the value is above [to], and is then exhausted; nothing is yielded
    when [from] is not above [to]. *)
Theorem rangeIt_counts_down (a b stp : Z) (n : nat) :
  stp < 0 -> min_int <= stp -> min_int - 1 <= b + stp ->
  min_int <= a <= max_int -> min_int <= a - b <= max_int ->
  (n = 0%nat \/ b < a + (Z.of_nat n - 1) * stp) ->
  a + Z.of_nat n * stp <= b ->
  yields rangeIt_iterator (withRange (EpInt a) (EpInt b) stp)
    (map (fun k => EpInt (a + Z.of_nat k * stp)) (seq 0 n))
    (RangeIt (EpInt a) (EpInt b) stp (EpInt (a + Z.of_nat n * stp))).
Proof.
  intros Hs Hsm Hb Ha Hab Hn Hge. apply rangeIt_yields_down; try done.
  intros k Hk. destruct Hn as [->|Hn]; [lia|]. nia.
Qed.

Lemma rangeIt_counts_down_witness :
  -4 < 0 /\ min_int <= -4 /\ min_int - 1 <= 0 + -4 /\
  min_int <= 10 <= max_int /\ min_int <= 10 - 0 <= max_int /\
  (3%nat = 0%nat \/ 0 < 10 + (Z.of_nat 3 - 1) * -4) /\
  10 + Z.of_nat 3 * -4 <= 0 /\
  yields rangeIt_iterator (withRange (EpInt 10) (EpInt 0) (-4))
    [EpInt 10; EpInt 6; EpInt 2] (RangeIt (EpInt 10) (EpInt 0) (-4) (EpInt (-2))).
Proof.
  assert (H1 : -4 < 0) by lia.
  assert (H2 : min_int <= -4) by (unfold min_int; lia).
  assert (H3 : min_int - 1 <= 0 + -4) by (unfold min_int; lia).
  assert (H4 : min_int <= 10 <= max_int) by (unfold min_int, max_int; lia).
  assert (H5 : min_int <= 10 - 0 <= max_int) by (unfold min_int, max_int; lia).
  assert (H6 : 3%nat = 0%nat \/ 0 < 10 + (Z.of_nat 3 - 1) * -4) by (right; lia).
  assert (H7 : 10 + Z.of_nat 3 * -4 <= 0) by lia.
  repeat (split; [assumption|]).
  exact (rangeIt_counts_down 10 0 (-4) 3 H1 H2 H3 H4 H5 H6 H7).
Defined.
